(** * visarepo: a replayable terminal dashboard over a commit history

    A shallow embedding of the replay engine of [app.go] (the Bubble Tea
    model, its [Update] function, the state effects of [View]), of the
    ingestion loop [fetcher], of the diff cache [getDiff], of the
    developer-statistics aggregation and of the braille canvas, together
    with the properties the specification states about them.

    Conventions.
    - Go's [int] is a 64-bit two's complement integer: it is modelled as
      [Z] and every arithmetic operation wraps ([Int.add], [Int.sub], ...).
    - A run-time panic (index or slice bounds out of range) is the
      [Panic] outcome of the [run] monad; Go's [(T, error)] results are
      the [errorable] type.
    - [[]*commitInfo] is a slice of pointers: a record that is mutated
      through one of these pointers is updated in place in the list. *)

From Stdlib Require Import ZArith Lia Ascii String.
From stdpp Require Import base tactics option list numbers strings gmap sorting.

Local Open Scope Z_scope.

(** ** Go's [int] *)

Module Int.

Definition min_int : Z := - 2 ^ 63.
Definition max_int : Z := 2 ^ 63 - 1.

(** Two's complement wrap-around of a mathematical integer. *)
Definition wrap (z : Z) : Z := (z + 2 ^ 63) mod 2 ^ 64 - 2 ^ 63.

Definition add (a b : Z) : Z := wrap (a + b).
Definition sub (a b : Z) : Z := wrap (a - b).
Definition mul (a b : Z) : Z := wrap (a * b).
(** [/] truncates towards zero and [%] takes the sign of the dividend. *)
Definition div (a b : Z) : Z := wrap (Z.quot a b).
Definition rem (a b : Z) : Z := Z.rem a b.

Definition fits (z : Z) : Prop := min_int <= z <= max_int.

End Int.

Arguments Int.wrap : simpl never.
Arguments Int.add : simpl never.
Arguments Int.sub : simpl never.
Arguments Int.mul : simpl never.
Arguments Int.div : simpl never.
Arguments Int.rem : simpl never.

(** ** Outcomes: panics and Go errors *)

(** The outcome of running a piece of Go code that may panic. *)
Inductive run (A : Type) : Type :=
  | Ret (a : A)
  | Panic (why : string).
Arguments Ret {A} a.
Arguments Panic {A} why.

Instance run_ret : MRet run := @Ret.
Instance run_bind : MBind run := fun A B f x =>
  match x with
  | Ret a => f a
  | Panic why => Panic why
  end.

(** Go's [error] values; only their message is observed. *)
Definition error : Type := string.

(** A Go result [(T, error)]. *)
Inductive errorable (A : Type) : Type :=
  | Ok (a : A)
  | Err (e : error).
Arguments Ok {A} a.
Arguments Err {A} e.

(** [s[i]] on a slice: panics out of range. *)
Definition index {A} (s : list A) (i : Z) : run A :=
  if (i <? 0) || (Z.of_nat (length s) <=? i) then Panic "index out of range"
  else match s !! Z.to_nat i with
       | Some a => Ret a
       | None => Panic "index out of range"
       end.

(** [s[lo:hi]] on a slice whose capacity is its length. *)
Definition slice {A} (s : list A) (lo hi : Z) : run (list A) :=
  if (lo <? 0) || (hi <? lo) || (Z.of_nat (length s) <? hi)
  then Panic "slice bounds out of range"
  else Ret (take (Z.to_nat (hi - lo)) (drop (Z.to_nat lo) s)).

(** [len(s)] *)
Definition len {A} (s : list A) : Z := Z.of_nat (length s).
Arguments len : simpl never.

(** ** Data model *)

(** The accessors of [time.Time] the program uses. *)
Record Time := mkTime {
  Year : Z;
  Month : Z;
  Weekday : Z;
  Hour : Z
}.

Record commitInfo := mkCommitInfo {
  Hash : string;
  Message : string;
  Author : string;
  Date : Time;
  DiffLoaded : bool;
  DiffContent : string;
  Files : Z;
  Additions : Z;
  Deletions : Z;
  Churn : Z;
  CumulativeFiles : Z;
  CumulativeAdditions : Z;
  CumulativeDeletions : Z
}.

Record authorStat := mkAuthorStat {
  name : string;
  churn : Z
}.

(** One entry of [patch.Stats()] (go-git's [object.FileStat]). *)
Record FileStat := mkFileStat {
  Name : string;
  Addition : Z;
  Deletion : Z
}.

(** The repository-access collaborator (go-git), as the operations the
    program calls on it. [Commit], [Tree] and [Patch] are its object
    types. *)
Record Repository (Commit Tree Patch : Type) := mkRepository {
  CommitObject : string -> errorable Commit;       (* r.CommitObject(hash) *)
  commit_Hash : Commit -> string;                  (* commit.Hash.String() *)
  commit_Message : Commit -> string;
  commit_AuthorName : Commit -> string;
  commit_AuthorWhen : Commit -> Time;
  NumParents : Commit -> Z;                        (* commit.NumParents() *)
  Parent : Commit -> Z -> errorable Commit;        (* commit.Parent(i) *)
  commit_Tree : Commit -> errorable Tree;          (* commit.Tree() *)
  emptyTree : Tree;                                (* &object.Tree{} *)
  tree_Patch : Tree -> Tree -> errorable Patch;    (* from.Patch(to) *)
  patch_Stats : Patch -> list FileStat;            (* patch.Stats() *)
  patch_String : Patch -> string                   (* patch.String() *)
}.
Arguments CommitObject {Commit Tree Patch} r hash.
Arguments commit_Hash {Commit Tree Patch} r c.
Arguments commit_Message {Commit Tree Patch} r c.
Arguments commit_AuthorName {Commit Tree Patch} r c.
Arguments commit_AuthorWhen {Commit Tree Patch} r c.
Arguments NumParents {Commit Tree Patch} r c.
Arguments Parent {Commit Tree Patch} r c i.
Arguments commit_Tree {Commit Tree Patch} r c.
Arguments emptyTree {Commit Tree Patch} r.
Arguments tree_Patch {Commit Tree Patch} r from to.
Arguments patch_Stats {Commit Tree Patch} r p.
Arguments patch_String {Commit Tree Patch} r p.

(** ** The ingestor: [fetcher] *)

Section Fetcher.
Context {Commit Tree Patch : Type}.
Variable r : Repository Commit Tree Patch.

(** [for _, s := range stats { additions += s.Addition; deletions += s.Deletion }] *)
Definition sum_stats (stats : list FileStat) : Z * Z :=
  foldl (fun acc s => (Int.add acc.1 (Addition s), Int.add acc.2 (Deletion s)))
        (0, 0) stats.

(** The statistics [(filesChanged, additions, deletions, churn)] of a
    patch, as the loop body computes them. *)
Definition patch_numbers (patch : Patch) : Z * Z * Z * Z :=
  let stats := patch_Stats r patch in
  let filesChanged := len stats in
  let '(additions, deletions) := sum_stats stats in
  (filesChanged, additions, deletions, Int.add additions deletions).

(** The diff statistics of one commit; [None] is a [continue]. *)
Definition commit_numbers (commit : Commit) : option (Z * Z * Z * Z) :=
  if 0 <? NumParents r commit then
    match Parent r commit 0 with
    | Err _ => None
    | Ok parent =>
      match commit_Tree r commit with
      | Err _ => None
      | Ok cTree =>
        match commit_Tree r parent with
        | Err _ => None
        | Ok pTree =>
          match tree_Patch r pTree cTree with
          | Err _ => None
          | Ok patch => Some (patch_numbers patch)
          end
        end
      end
    end
  else Some (0, 0, 0, 0).

(** The record the fetcher sends for the commit. *)
Definition new_record (commit : Commit) (n : Z * Z * Z * Z) : commitInfo :=
  let '(filesChanged, additions, deletions, churn) := n in
  {| Hash := commit_Hash r commit;
     Message := commit_Message r commit;
     Author := commit_AuthorName r commit;
     Date := commit_AuthorWhen r commit;
     DiffLoaded := false;
     DiffContent := "";
     Files := filesChanged;
     Additions := additions;
     Deletions := deletions;
     Churn := churn;
     CumulativeFiles := 0;
     CumulativeAdditions := 0;
     CumulativeDeletions := 0 |}.

(** One iteration of the scanner loop on the line [hashStr]: the
    record sent on the channel, or [None] when the iteration is
    skipped. *)
Definition fetch_one (hashStr : string) : option commitInfo :=
  match CommitObject r hashStr with
  | Err _ => None
  | Ok commit =>
    match commit_numbers commit with
    | None => None
    | Some n => Some (new_record commit n)
    end
  end.

(** The records the fetcher sends, in order, for the lines [hashes] of
    [git rev-list --reverse HEAD], starting with [commitCount] records
    already sent. *)
Fixpoint fetcher_loop (CommitLimit : Z) (hashes : list string) (commitCount : Z)
  : list commitInfo :=
  match hashes with
  | [] => []
  | hashStr :: rest =>
    match fetch_one hashStr with
    | None => fetcher_loop CommitLimit rest commitCount
    | Some c =>
      let commitCount := Int.add commitCount 1 in
      if (0 <? CommitLimit) && (CommitLimit <=? commitCount) then [c]
      else c :: fetcher_loop CommitLimit rest commitCount
    end
  end.

Definition fetcher (CommitLimit : Z) (hashes : list string) : list commitInfo :=
  fetcher_loop CommitLimit hashes 0.

End Fetcher.

(** ** The replay state *)

Inductive diffViewState := notInDiffView | inDiffView.

Record Config := mkConfig {
  CommitLimit : Z;
  RepoPath : string;
  AutoProgress : bool;
  ProgressIntervalMs : Z
}.

(** A buffered channel of commit records: the records waiting in the
    buffer, oldest first, and whether the channel has been closed. *)
Record Chan := mkChan {
  chan_buf : list commitInfo;
  chan_closed : bool
}.

(** [make(chan *commitInfo, 100)] *)
Definition chan_capacity : Z := 100.
Definition make_chan : Chan := {| chan_buf := []; chan_closed := false |}.

(** The Bubble Tea model. The fields [repo] and [program] are handles to
    the opened repository and to the running program; the repository is
    a parameter of the functions that use it. *)
Record Model := mkModel {
  config : Config;
  commits : list commitInfo;
  currentCommitIndex : Z;
  width : Z;
  height : Z;
  networkGraphHeight : Z;
  graphColumns : Z;
  maxAdditions : Z;
  maxDeletions : Z;
  autoProgress : bool;
  progressInterval : Z;
  processedCommitsChan : Chan;
  loadingComplete : bool;
  diffState : diffViewState;
  currentDiff : string;
  diffScroll : Z;
  displayedStatsYear : Z;
  availableStatYears : list Z;
  currentStatYearIndex : Z
}.

(** Field updates. *)
Definition set_commits (v : list commitInfo) (m : Model) : Model :=
  mkModel (config m) v (currentCommitIndex m) (width m) (height m)
    (networkGraphHeight m) (graphColumns m) (maxAdditions m) (maxDeletions m)
    (autoProgress m) (progressInterval m) (processedCommitsChan m)
    (loadingComplete m) (diffState m) (currentDiff m) (diffScroll m)
    (displayedStatsYear m) (availableStatYears m) (currentStatYearIndex m).
Definition set_currentCommitIndex (v : Z) (m : Model) : Model :=
  mkModel (config m) (commits m) v (width m) (height m)
    (networkGraphHeight m) (graphColumns m) (maxAdditions m) (maxDeletions m)
    (autoProgress m) (progressInterval m) (processedCommitsChan m)
    (loadingComplete m) (diffState m) (currentDiff m) (diffScroll m)
    (displayedStatsYear m) (availableStatYears m) (currentStatYearIndex m).
Definition set_layout (w h nh gc : Z) (m : Model) : Model :=
  mkModel (config m) (commits m) (currentCommitIndex m) w h
    nh gc (maxAdditions m) (maxDeletions m)
    (autoProgress m) (progressInterval m) (processedCommitsChan m)
    (loadingComplete m) (diffState m) (currentDiff m) (diffScroll m)
    (displayedStatsYear m) (availableStatYears m) (currentStatYearIndex m).
Definition set_maxAdditions (v : Z) (m : Model) : Model :=
  mkModel (config m) (commits m) (currentCommitIndex m) (width m) (height m)
    (networkGraphHeight m) (graphColumns m) v (maxDeletions m)
    (autoProgress m) (progressInterval m) (processedCommitsChan m)
    (loadingComplete m) (diffState m) (currentDiff m) (diffScroll m)
    (displayedStatsYear m) (availableStatYears m) (currentStatYearIndex m).
Definition set_maxDeletions (v : Z) (m : Model) : Model :=
  mkModel (config m) (commits m) (currentCommitIndex m) (width m) (height m)
    (networkGraphHeight m) (graphColumns m) (maxAdditions m) v
    (autoProgress m) (progressInterval m) (processedCommitsChan m)
    (loadingComplete m) (diffState m) (currentDiff m) (diffScroll m)
    (displayedStatsYear m) (availableStatYears m) (currentStatYearIndex m).
Definition set_autoProgress (v : bool) (m : Model) : Model :=
  mkModel (config m) (commits m) (currentCommitIndex m) (width m) (height m)
    (networkGraphHeight m) (graphColumns m) (maxAdditions m) (maxDeletions m)
    v (progressInterval m) (processedCommitsChan m)
    (loadingComplete m) (diffState m) (currentDiff m) (diffScroll m)
    (displayedStatsYear m) (availableStatYears m) (currentStatYearIndex m).
Definition set_processedCommitsChan (v : Chan) (m : Model) : Model :=
  mkModel (config m) (commits m) (currentCommitIndex m) (width m) (height m)
    (networkGraphHeight m) (graphColumns m) (maxAdditions m) (maxDeletions m)
    (autoProgress m) (progressInterval m) v
    (loadingComplete m) (diffState m) (currentDiff m) (diffScroll m)
    (displayedStatsYear m) (availableStatYears m) (currentStatYearIndex m).
Definition set_loadingComplete (v : bool) (m : Model) : Model :=
  mkModel (config m) (commits m) (currentCommitIndex m) (width m) (height m)
    (networkGraphHeight m) (graphColumns m) (maxAdditions m) (maxDeletions m)
    (autoProgress m) (progressInterval m) (processedCommitsChan m)
    v (diffState m) (currentDiff m) (diffScroll m)
    (displayedStatsYear m) (availableStatYears m) (currentStatYearIndex m).
Definition set_diffState (v : diffViewState) (m : Model) : Model :=
  mkModel (config m) (commits m) (currentCommitIndex m) (width m) (height m)
    (networkGraphHeight m) (graphColumns m) (maxAdditions m) (maxDeletions m)
    (autoProgress m) (progressInterval m) (processedCommitsChan m)
    (loadingComplete m) v (currentDiff m) (diffScroll m)
    (displayedStatsYear m) (availableStatYears m) (currentStatYearIndex m).
Definition set_currentDiff (v : string) (m : Model) : Model :=
  mkModel (config m) (commits m) (currentCommitIndex m) (width m) (height m)
    (networkGraphHeight m) (graphColumns m) (maxAdditions m) (maxDeletions m)
    (autoProgress m) (progressInterval m) (processedCommitsChan m)
    (loadingComplete m) (diffState m) v (diffScroll m)
    (displayedStatsYear m) (availableStatYears m) (currentStatYearIndex m).
Definition set_diffScroll (v : Z) (m : Model) : Model :=
  mkModel (config m) (commits m) (currentCommitIndex m) (width m) (height m)
    (networkGraphHeight m) (graphColumns m) (maxAdditions m) (maxDeletions m)
    (autoProgress m) (progressInterval m) (processedCommitsChan m)
    (loadingComplete m) (diffState m) (currentDiff m) v
    (displayedStatsYear m) (availableStatYears m) (currentStatYearIndex m).
Definition set_displayedStatsYear (v : Z) (m : Model) : Model :=
  mkModel (config m) (commits m) (currentCommitIndex m) (width m) (height m)
    (networkGraphHeight m) (graphColumns m) (maxAdditions m) (maxDeletions m)
    (autoProgress m) (progressInterval m) (processedCommitsChan m)
    (loadingComplete m) (diffState m) (currentDiff m) (diffScroll m)
    v (availableStatYears m) (currentStatYearIndex m).
Definition set_availableStatYears (v : list Z) (m : Model) : Model :=
  mkModel (config m) (commits m) (currentCommitIndex m) (width m) (height m)
    (networkGraphHeight m) (graphColumns m) (maxAdditions m) (maxDeletions m)
    (autoProgress m) (progressInterval m) (processedCommitsChan m)
    (loadingComplete m) (diffState m) (currentDiff m) (diffScroll m)
    (displayedStatsYear m) v (currentStatYearIndex m).
Definition set_currentStatYearIndex (v : Z) (m : Model) : Model :=
  mkModel (config m) (commits m) (currentCommitIndex m) (width m) (height m)
    (networkGraphHeight m) (graphColumns m) (maxAdditions m) (maxDeletions m)
    (autoProgress m) (progressInterval m) (processedCommitsChan m)
    (loadingComplete m) (diffState m) (currentDiff m) (diffScroll m)
    (displayedStatsYear m) (availableStatYears m) v.

Definition set_DiffLoaded (v : bool) (c : commitInfo) : commitInfo :=
  mkCommitInfo (Hash c) (Message c) (Author c) (Date c) v (DiffContent c)
    (Files c) (Additions c) (Deletions c) (Churn c)
    (CumulativeFiles c) (CumulativeAdditions c) (CumulativeDeletions c).
Definition set_DiffContent (v : string) (c : commitInfo) : commitInfo :=
  mkCommitInfo (Hash c) (Message c) (Author c) (Date c) (DiffLoaded c) v
    (Files c) (Additions c) (Deletions c) (Churn c)
    (CumulativeFiles c) (CumulativeAdditions c) (CumulativeDeletions c).
Definition set_Cumulative (f a d : Z) (c : commitInfo) : commitInfo :=
  mkCommitInfo (Hash c) (Message c) (Author c) (Date c) (DiffLoaded c) (DiffContent c)
    (Files c) (Additions c) (Deletions c) (Churn c) f a d.

Definition InitialModel (cfg : Config) : Model :=
  {| config := cfg;
     commits := [];
     currentCommitIndex := 0;
     width := 0;
     height := 0;
     networkGraphHeight := 0;
     graphColumns := 0;
     maxAdditions := 0;
     maxDeletions := 0;
     autoProgress := AutoProgress cfg;
     progressInterval := Int.mul (ProgressIntervalMs cfg) 1000000;
     processedCommitsChan := make_chan;
     loadingComplete := false;
     diffState := notInDiffView;
     currentDiff := "";
     diffScroll := 0;
     displayedStatsYear := 0;
     availableStatYears := [];
     currentStatYearIndex := 0 |}.

(** ** Messages and commands *)

Inductive Msg :=
  | KeyMsg (key : string)                 (* tea.KeyMsg, by its [String()] *)
  | WindowSizeMsg (Width Height : Z)      (* tea.WindowSizeMsg *)
  | progressTickMsg
  | errMsg (err : error)
  | otherMsg.                             (* any other message type *)

Inductive Cmd :=
  | CmdNil                                (* nil *)
  | CmdQuit                               (* tea.Quit *)
  | CmdTick.                              (* m.progressTickCmd() *)

(** [case k1, k2, ...:] of a [switch msg.String()] *)
Definition key_in (k : string) (keys : list string) : bool :=
  existsb (String.eqb k) keys.

(** ** The diff viewer: [getDiff] *)

(** The calls made on the repository, for counting the work done. *)
Inductive RepoCall :=
  | CallCommitObject (hash : string)
  | CallParent (i : Z)
  | CallTree
  | CallPatch
  | CallPatchString.

Section DiffViewer.
Context {Commit Tree Patch : Type}.
Variable r : Repository Commit Tree Patch.

(** A computation on the repository: the calls it made and its Go
    result. *)
Definition traced (A : Type) : Type := list RepoCall * errorable A.

Definition call {A} (c : RepoCall) (res : errorable A) : traced A := ([c], res).

Definition traced_bind {A B} (x : traced A) (f : A -> traced B) : traced B :=
  match x with
  | (calls, Err e) => (calls, Err e)
  | (calls, Ok a) => let '(calls', b) := f a in (calls ++ calls', b)
  end.

(** The part of [getDiff] after the cache test: the text of the patch
    against the first parent, or against the empty tree for a commit
    without parent. *)
Definition compute_diff (commit : commitInfo) : traced string :=
  traced_bind (call (CallCommitObject (Hash commit)) (CommitObject r (Hash commit)))
  (fun commitObject =>
    if NumParents r commitObject =? 0 then
      traced_bind (call CallTree (commit_Tree r commitObject)) (fun tree =>
      traced_bind (call CallPatch (tree_Patch r (emptyTree r) tree)) (fun patch =>
      call CallPatchString (Ok (patch_String r patch))))
    else
      traced_bind (call (CallParent 0) (Parent r commitObject 0)) (fun parent =>
      traced_bind (call CallTree (commit_Tree r commitObject)) (fun cTree =>
      traced_bind (call CallTree (commit_Tree r parent)) (fun pTree =>
      traced_bind (call CallPatch (tree_Patch r pTree cTree)) (fun patch =>
      call CallPatchString (Ok (patch_String r patch))))))).

(** [getDiff(r, commit)]: the result, the record [commit] points to
    after the call, and the repository calls made. *)
Definition getDiff (commit : commitInfo)
  : errorable string * commitInfo * list RepoCall :=
  if negb (String.eqb (DiffContent commit) "") then
    (Ok (DiffContent commit), commit, [])
  else
    match compute_diff commit with
    | (calls, Err e) => (Err e, commit, calls)
    | (calls, Ok text) => (Ok text, set_DiffContent text commit, calls)
    end.

(** The block that [Update] runs to show the diff of the commit under
    the cursor:
    [currentCommit := m.commits[m.currentCommitIndex]],
    [diff, err := getDiff(m.repo, currentCommit)] and the assignment
    to [m.currentDiff]. The record is mutated through the pointer held
    in [m.commits]. *)
Definition load_current_diff (m : Model) : run Model :=
  currentCommit ← index (commits m) (currentCommitIndex m);
  let '(res, currentCommit', _) := getDiff currentCommit in
  let m := set_commits (<[Z.to_nat (currentCommitIndex m) := currentCommit']> (commits m)) m in
  match res with
  | Err e => Ret (set_currentDiff ("Error getting diff: " ++ e) m)
  | Ok diff => Ret (set_currentDiff diff m)
  end.

(** ** The replay engine: [Update] *)

(** The key handler while the diff view is open. *)
Definition Update_key_inDiffView (m : Model) (k : string) : run (Model * Cmd) :=
  if key_in k ["q"; "ctrl+c"; "esc"; "enter"] then
    Ret (set_diffState notInDiffView m, CmdNil)
  else if key_in k ["up"; "k"] then
    let m := set_diffScroll (Int.sub (diffScroll m) 1) m in
    let m := if diffScroll m <? 0 then set_diffScroll 0 m else m in
    Ret (m, CmdNil)
  else if key_in k ["down"; "j"] then
    Ret (set_diffScroll (Int.add (diffScroll m) 1) m, CmdNil)
  else if key_in k ["pgup"] then
    let m := set_diffScroll (Int.sub (diffScroll m) (height m)) m in
    let m := if diffScroll m <? 0 then set_diffScroll 0 m else m in
    Ret (m, CmdNil)
  else if key_in k ["pgdown"; " "] then
    Ret (set_diffScroll (Int.add (diffScroll m) (height m)) m, CmdNil)
  else if key_in k ["left"; "h"] then
    let m := set_autoProgress false m in
    if 0 <? currentCommitIndex m then
      let m := set_currentCommitIndex (Int.sub (currentCommitIndex m) 1) m in
      m ← load_current_diff m;
      Ret (set_diffScroll 0 m, CmdNil)
    else Ret (m, CmdNil)
  else if key_in k ["right"; "l"] then
    let m := set_autoProgress false m in
    if currentCommitIndex m <? Int.sub (len (commits m)) 1 then
      let m := set_currentCommitIndex (Int.add (currentCommitIndex m) 1) m in
      m ← load_current_diff m;
      Ret (set_diffScroll 0 m, CmdNil)
    else Ret (m, CmdNil)
  else Ret (m, CmdNil).

(** The key handler outside the diff view. *)
Definition Update_key_normal (m : Model) (k : string) : run (Model * Cmd) :=
  if key_in k ["q"; "ctrl+c"] then
    Ret (m, CmdQuit)
  else if key_in k ["right"; "l"] then
    let m := set_autoProgress false m in
    let m := if currentCommitIndex m <? Int.sub (len (commits m)) 1
             then set_currentCommitIndex (Int.add (currentCommitIndex m) 1) m
             else m in
    Ret (m, CmdNil)
  else if key_in k ["left"; "h"] then
    let m := set_autoProgress false m in
    let m := if 0 <? currentCommitIndex m
             then set_currentCommitIndex (Int.sub (currentCommitIndex m) 1) m
             else m in
    Ret (m, CmdNil)
  else if key_in k ["up"; "k"] then
    if 0 <? len (availableStatYears m) then
      let m := set_currentStatYearIndex (Int.sub (currentStatYearIndex m) 1) m in
      let m := if currentStatYearIndex m <? 0
               then set_currentStatYearIndex (Int.sub (len (availableStatYears m)) 1) m
               else m in
      year ← index (availableStatYears m) (currentStatYearIndex m);
      Ret (set_displayedStatsYear year m, CmdNil)
    else Ret (m, CmdNil)
  else if key_in k ["down"; "j"] then
    if 0 <? len (availableStatYears m) then
      let m := set_currentStatYearIndex
                 (Int.rem (Int.add (currentStatYearIndex m) 1) (len (availableStatYears m))) m in
      year ← index (availableStatYears m) (currentStatYearIndex m);
      Ret (set_displayedStatsYear year m, CmdNil)
    else Ret (m, CmdNil)
  else if key_in k ["p"; " "] then
    Ret (set_autoProgress (negb (autoProgress m)) m, CmdNil)
  else if key_in k ["enter"] then
    if negb (autoProgress m) then
      let m := set_diffState inDiffView m in
      let m := set_diffScroll 0 m in
      m ← load_current_diff m;
      Ret (m, CmdNil)
    else Ret (m, CmdNil)
  else Ret (m, CmdNil).

(** Integration of a record received from the channel (the [ok] branch
    of the tick). *)
Definition integrate (m : Model) (newCommit : commitInfo) : Model :=
  let newCommit := set_DiffLoaded true newCommit in
  let newCommit :=
    match last (commits m) with
    | Some lastCommit =>
        set_Cumulative
          (Int.add (CumulativeFiles lastCommit) (Files newCommit))
          (Int.add (CumulativeAdditions lastCommit) (Additions newCommit))
          (Int.add (CumulativeDeletions lastCommit) (Deletions newCommit))
          newCommit
    | None =>
        set_Cumulative (Files newCommit) (Additions newCommit) (Deletions newCommit)
          newCommit
    end in
  let m := if maxAdditions m <? Additions newCommit
           then set_maxAdditions (Additions newCommit) m else m in
  let m := if maxDeletions m <? Deletions newCommit
           then set_maxDeletions (Deletions newCommit) m else m in
  let m := set_commits (commits m ++ [newCommit]) m in
  set_currentCommitIndex (Int.sub (len (commits m)) 1) m.

(** The tick: at most one non-blocking receive. *)
Definition Update_tick (m : Model) : Model :=
  if autoProgress m then
    match chan_buf (processedCommitsChan m) with
    | newCommit :: rest =>
        let m := set_processedCommitsChan
                   {| chan_buf := rest;
                      chan_closed := chan_closed (processedCommitsChan m) |} m in
        integrate m newCommit
    | [] =>
        if chan_closed (processedCommitsChan m)
        then set_loadingComplete true m
        else m
    end
  else m.

Definition Update (m : Model) (msg : Msg) : run (Model * Cmd) :=
  match msg with
  | KeyMsg k =>
      match diffState m with
      | inDiffView => Update_key_inDiffView m k
      | notInDiffView => Update_key_normal m k
      end
  | WindowSizeMsg Width Height =>
      let w := Int.sub Width 10 in
      let h := Int.sub Height 10 in
      Ret (set_layout w h (Int.sub (Int.div h 3) 10) (Int.sub (Int.div w 2) 10) m, CmdNil)
  | progressTickMsg => Ret (Update_tick m, CmdTick)
  | errMsg _ => Ret (m, CmdQuit)
  | otherMsg => Ret (m, CmdNil)
  end.

End DiffViewer.

(** ** Rendering: the diff view and the state effects of [View] *)

(** [strings.Split(s, "\n")] *)
Fixpoint split_lines (s : string) : list string :=
  match s with
  | EmptyString => [""]
  | String c s' =>
      if Ascii.eqb c "010"%char then "" :: split_lines s'
      else match split_lines s' with
           | line :: lines => String c line :: lines
           | [] => [String c ""]
           end
  end.

(** The window [(start, end)] of [renderDiffView] after its clamps. *)
Definition diff_window (m : Model) : Z * Z :=
  let lines := split_lines (currentDiff m) in
  let start := diffScroll m in
  let end_ := Int.add start (height m) in
  let start := if start <? 0 then 0 else start in
  let end_ := if len lines <? end_ then len lines else end_ in
  let start := if end_ <? start then end_ else start in
  (start, end_).

(** [renderDiffView], up to the styling of the lines: [visibleLines]. *)
Definition renderDiffView (m : Model) : run (list string) :=
  let '(start, end_) := diff_window m in
  slice (split_lines (currentDiff m)) start end_.

(** The commits visited by [for i := 0; i <= m.currentCommitIndex; i++]
    with [m.commits[i]] in the body. *)
Definition commits_to_cursor (m : Model) : run (list commitInfo) :=
  if currentCommitIndex m <? 0 then Ret []
  else if currentCommitIndex m <? len (commits m)
       then Ret (take (Z.to_nat (currentCommitIndex m + 1)) (commits m))
       else Panic "index out of range".

(** The years of [renderDeveloperStats]: the keys of [yearSet], sorted by
    [sort.Sort(sort.Reverse(sort.IntSlice(years)))]. The keys are
    distinct, so the sorted slice does not depend on the order in which
    the map is ranged over. *)
Definition stat_years (visited : list commitInfo) : list Z :=
  let yearSet : gset Z := list_to_set ((fun c => Year (Date c)) <$> visited) in
  merge_sort Z.ge (elements yearSet).

(** [commitsToAnalyze] *)
Definition commitsToAnalyze (m : Model) : run (list commitInfo) :=
  if displayedStatsYear m =? 0
  then slice (commits m) 0 (Int.add (currentCommitIndex m) 1)
  else visited ← commits_to_cursor m;
       Ret (filter (fun c => Year (Date c) = displayedStatsYear m) visited).

(** The state effect of [renderDeveloperStats]: it stores the year list
    used by the year-cycle keys. *)
Definition renderDeveloperStats (m : Model) : run Model :=
  visited ← commits_to_cursor m;
  let m := set_availableStatYears (0 :: stat_years visited) m in
  _ ← commitsToAnalyze m;
  Ret m.

(** The state effects of [View] and the panics of the code that has
    them. [View] is a method on the pointer to the model: it clamps the
    cursor and, through [renderDeveloperStats], stores the year list.
    The text it returns is not modelled, nor are the panels that only
    build text ([renderTimeline], [renderBrailleGraph]). *)
Definition View (m : Model) : run Model :=
  match diffState m with
  | inDiffView => _ ← renderDiffView m; Ret m
  | notInDiffView =>
      if len (commits m) =? 0 then Ret m
      else
        let m := if len (commits m) <=? currentCommitIndex m
                 then set_currentCommitIndex (Int.sub (len (commits m)) 1) m
                 else m in
        _ ← index (commits m) (currentCommitIndex m);
        _ ← commits_to_cursor m;
        renderDeveloperStats m
  end.

(** ** The statistics aggregator: top contributors *)

(** [authorChurn[c.Author] += c.Churn] over the analysed commits. *)
Definition authorChurn (cs : list commitInfo) : gmap string Z :=
  foldl (fun acc c => <[Author c := Int.add (default 0 (acc !! Author c)) (Churn c)]> acc)
        ∅ cs.

(** The comparison handed to [sort.Slice]. *)
Definition by_churn (a b : authorStat) : bool := churn b <? churn a.

(** Insertion sort, one sorting procedure that [sort.Slice] may be (Go
    runs it on short slices): each element moves left while it is less
    than its left neighbour. The sorted prefix is kept in reverse, its
    last element first. *)
Fixpoint insert_left {A} (less : A -> A -> bool) (x : A) (rev_sorted : list A) : list A :=
  match rev_sorted with
  | [] => [x]
  | y :: rest => if less x y then y :: insert_left less x rest else x :: y :: rest
  end.

Definition insertion_sort {A} (less : A -> A -> bool) (l : list A) : list A :=
  reverse (foldl (fun acc x => insert_left less x acc) [] l).

Section TopContributors.
(** [sort.Slice]: any sorting procedure; it is not guaranteed to be
    stable. *)
Variable sort_Slice : (authorStat -> authorStat -> bool) -> list authorStat -> list authorStat.

(** [topContributors] after sorting. [order] is the order in which
    [for name, churn := range authorChurn] visits the map, which Go
    leaves unspecified. *)
Definition topContributors (order : list (string * Z)) : list authorStat :=
  sort_Slice by_churn ((fun e => {| name := e.1; churn := e.2 |}) <$> order).

(** The entries printed under "Top 5":
    [for i := 0; i < len(topContributors) && i < 5; i++]. *)
Definition top5 (order : list (string * Z)) : list authorStat :=
  take 5 (topContributors order).
End TopContributors.

(** ** Headless drain: [runNonInteractive] *)

(** The loop [for commit := range model.processedCommitsChan] over the
    records received until the channel is closed: [allCommits]. *)
Definition runNonInteractive_step (allCommits : list commitInfo) (commit : commitInfo)
  : list commitInfo :=
  let commit :=
    match last allCommits with
    | Some lastCommit =>
        set_Cumulative
          (Int.add (CumulativeFiles lastCommit) (Files commit))
          (Int.add (CumulativeAdditions lastCommit) (Additions commit))
          (Int.add (CumulativeDeletions lastCommit) (Deletions commit))
          commit
    | None => set_Cumulative (Files commit) (Additions commit) (Deletions commit) commit
    end in
  allCommits ++ [commit].

Definition runNonInteractive_allCommits (received : list commitInfo) : list commitInfo :=
  foldl runNonInteractive_step [] received.

(** ** The braille canvas *)

(** [for i := lo; i < hi; i += step { s = body(i, s) }], on [fuel]
    iterations at most. *)
Fixpoint for_loop {S : Type} (fuel : nat) (i hi step : Z)
    (body : Z -> S -> run S) (s : S) : run S :=
  match fuel with
  | O => Panic "loop fuel exhausted"
  | S fuel =>
      if i <? hi then s ← body i s; for_loop fuel (Int.add i step) hi step body s
      else Ret s
  end.

Module Braille.

Record BrailleCanvas := mkBrailleCanvas {
  Width : Z;
  Height : Z;
  buffer : list bool
}.


Definition Set_ (c : BrailleCanvas) (x y : Z) : run BrailleCanvas :=
  if (x <? 0) || (Width c <=? x) || (y <? 0) || (Height c <=? y) then Ret c
  else
    let i := Int.add (Int.mul y (Width c)) x in
    _ ← index (buffer c) i;
    Ret {| Width := Width c; Height := Height c;
           buffer := <[Z.to_nat i := true]> (buffer c) |}.

Definition get (c : BrailleCanvas) (x y : Z) : run bool :=
  if (x <? 0) || (Width c <=? x) || (y <? 0) || (Height c <=? y) then Ret false
  else index (buffer c) (Int.add (Int.mul y (Width c)) x).

(** [if c.get(x, y) { r |= bit }] *)
Definition or_dot (c : BrailleCanvas) (x y bit : Z) (r : Z) : run Z :=
  b ← get c x y;
  Ret (if b : bool then Z.lor r bit else r).

(** The rune written for the character cell whose block of sub-pixels
    starts at [(x, y)]: the body of the inner loop of [String]. *)
Definition cell_rune (c : BrailleCanvas) (x y : Z) : run Z :=
  let r := 0x2800 in
  r ← or_dot c x y 1 r;
  r ← or_dot c x (Int.add y 1) 2 r;
  r ← or_dot c x (Int.add y 2) 4 r;
  r ← or_dot c (Int.add x 1) y 8 r;
  r ← or_dot c (Int.add x 1) (Int.add y 1) 16 r;
  r ← or_dot c (Int.add x 1) (Int.add y 2) 32 r;
  r ← or_dot c x (Int.add y 3) 64 r;
  r ← or_dot c (Int.add x 1) (Int.add y 3) 128 r;
  Ret r.

(** One line of the frame: the runes of the cells of the row of blocks
    starting at [y], then a newline. *)
Definition String_row (c : BrailleCanvas) (y : Z) (buf : list Z) : run (list Z) :=
  buf ← for_loop (S (Z.to_nat (Width c))) 0 (Width c) 2
        (fun x buf => r ← cell_rune c x y; Ret (buf ++ [r])) buf;
  Ret (buf ++ [10]).

(** [String]: the runes written to the buffer, in order. The Go string
    is the UTF-8 encoding of this sequence. *)
Definition String_ (c : BrailleCanvas) : run (list Z) :=
  for_loop (S (Z.to_nat (Height c))) 0 (Height c) 4 (String_row c) [].

(** *** Specification vocabulary for the canvas *)

(** A canvas as [NewBrailleCanvas] builds it and [Set] keeps it: the
    buffer has one entry per sub-pixel. The two margins keep the loop
    counters of [String] from overflowing. *)
Definition canvas_ok (c : BrailleCanvas) : Prop :=
  0 <= Width c /\ 0 <= Height c /\
  Width c + 2 <= Int.max_int /\ Height c + 4 <= Int.max_int /\
  Width c * Height c <= Int.max_int /\
  len (buffer c) = Width c * Height c.

(** The sub-pixel at [(x, y)]; outside the canvas it is unset. *)
Definition dot (c : BrailleCanvas) (x y : Z) : bool :=
  if (x <? 0) || (Width c <=? x) || (y <? 0) || (Height c <=? y) then false
  else default false (buffer c !! Z.to_nat (y * Width c + x)).

(** The dot-to-bit mapping of the specification: the bit of the glyph
    that stands for the sub-pixel at offset [(dx, dy)] of its block. *)
Definition dot_index (dx dy : Z) : Z :=
  if dy =? 3 then 6 + dx else 3 * dx + dy.

(** The glyph of the specification for the block starting at [(x, y)]. *)
Definition glyph (c : BrailleCanvas) (x y : Z) : Z :=
  0x2800
  + 1 * Z.b2z (dot c x y)
  + 2 * Z.b2z (dot c x (y + 1))
  + 4 * Z.b2z (dot c x (y + 2))
  + 8 * Z.b2z (dot c (x + 1) y)
  + 16 * Z.b2z (dot c (x + 1) (y + 1))
  + 32 * Z.b2z (dot c (x + 1) (y + 2))
  + 64 * Z.b2z (dot c x (y + 3))
  + 128 * Z.b2z (dot c (x + 1) (y + 3)).

(** The values [i, i + step, i + 2 step, ...] below [hi]; from 0 they
    are the block origins along one axis. *)
Definition stride (i hi step : Z) : list Z :=
  (fun k => i + step * Z.of_nat k) <$> seq 0 (Z.to_nat ((hi - i + step - 1) / step)).

Definition origins (hi step : Z) : list Z := stride 0 hi step.

(** The frame of the specification: one line per row of blocks. *)
Definition frame (c : BrailleCanvas) : list Z :=
  concat ((fun y => ((fun x => glyph c x y) <$> origins (Width c) 2) ++ [10])
            <$> origins (Height c) 4).

(** A canvas of 4 by 8 sub-pixels, that is 2 by 2 character cells,
    with the sub-pixels [(1, 2)] and [(2, 7)] set. *)
Definition sample : BrailleCanvas :=
  {| Width := 4; Height := 8;
     buffer := <[30%nat := true]> (<[9%nat := true]> (replicate 32 false)) |}.

End Braille.

(** ** Rendering helpers: message truncation, the timeline and the bar charts *)

(** [len(s)] on a string: its number of bytes. *)
Definition slen (s : string) : Z := Z.of_nat (String.length s).

(** [s[:hi]] on a string: panics out of range. *)
Definition string_slice_to (s : string) (hi : Z) : run string :=
  if (hi <? 0) || (slen s <? hi) then Panic "slice bounds out of range"
  else Ret (substring 0 (Z.to_nat hi) s).

Definition truncateMessage (msg : string) (maxLen : Z) : run string :=
  let lines := split_lines msg in
  result ← index lines 0;
  if maxLen <? slen result then
    head ← string_slice_to result (Int.sub maxLen 3);
    Ret (head ++ "...")%string
  else Ret result.

(** One line of the timeline, before styling: the label [c.Hash[:7]],
    the additions and deletions handed to [formatStat], the truncated
    message, and whether the line is the highlighted one. *)
Record timelineRow := mkTimelineRow {
  row_label : string;
  row_additions : Z;
  row_deletions : Z;
  row_msg : string;
  row_current : bool
}.

(** What [renderTimeline] returns: one of its two notices, or lines. *)
Inductive timeline :=
  | NoCommits                       (* "No commits" *)
  | NotEnoughSpace                  (* "Not enough space" *)
  | TimelineRows (rows : list timelineRow).

(** [(visibleStart, visibleEnd)] of [renderTimeline]. *)
Definition timeline_window (m : Model) (timelineHeight : Z) : Z * Z :=
  let visibleStart := Int.sub (currentCommitIndex m) (Int.div timelineHeight 2) in
  let visibleStart := if visibleStart <? 0 then 0 else visibleStart in
  let visibleStart :=
    if len (commits m) <? Int.add visibleStart timelineHeight then
      let visibleStart := Int.sub (len (commits m)) timelineHeight in
      if visibleStart <? 0 then 0 else visibleStart
    else visibleStart in
  let visibleEnd := Int.add visibleStart timelineHeight in
  let visibleEnd := if len (commits m) <? visibleEnd then len (commits m) else visibleEnd in
  (visibleStart, visibleEnd).

(** [msgWidth] of [renderTimeline]. *)
Definition msgWidth (m : Model) : Z :=
  let labelWidth := 8 in
  let statsWidth := 15 in
  let padding := 2 in
  let availableWidth := Int.sub (Int.div (width m) 2) 6 in
  let msgWidth := Int.sub (Int.sub (Int.sub availableWidth labelWidth) statsWidth) padding in
  if msgWidth <? 20 then 20 else msgWidth.

(** The body of the loop of [renderTimeline] for index [i]. *)
Definition timeline_row (m : Model) (i : Z) : run timelineRow :=
  c ← index (commits m) i;
  label ← string_slice_to (Hash c) 7;
  msg ← truncateMessage (Message c) (msgWidth m);
  Ret {| row_label := label;
         row_additions := Additions c;
         row_deletions := Deletions c;
         row_msg := msg;
         row_current := i =? currentCommitIndex m |}.

Definition renderTimeline (m : Model) (timelineHeight : Z) : run timeline :=
  if len (commits m) =? 0 then Ret NoCommits
  else if timelineHeight <=? 0 then Ret NotEnoughSpace
  else
    let '(visibleStart, visibleEnd) := timeline_window m timelineHeight in
    rows ← for_loop (S (Z.to_nat (len (commits m)))) visibleStart visibleEnd 1
           (fun i rows => row ← timeline_row m i; Ret (rows ++ [row])) [];
    Ret (TimelineRows rows).

(** The heights [(statsPanelHeight, changesPanelHeight,
    timelinePanelHeight)] of the three panels of the left column, as
    [View] computes them. *)
Definition panel_heights (m : Model) : Z * Z * Z :=
  let statsPanelHeight := 8 in
  let changesPanelHeight := Int.sub (Int.div (Int.mul (height m) 2) 3) 10 in
  let timelinePanelHeight :=
    Int.sub (Int.sub (height m) statsPanelHeight) changesPanelHeight in
  if timelinePanelHeight <? 8 then
    let timelinePanelHeight := 8 in
    let changesPanelHeight :=
      Int.sub (Int.sub (height m) statsPanelHeight) timelinePanelHeight in
    (statsPanelHeight, changesPanelHeight, timelinePanelHeight)
  else (statsPanelHeight, changesPanelHeight, timelinePanelHeight).

(** [m.renderTimeline(timelinePanelHeight - 3)] in [View]. *)
Definition View_timeline (m : Model) : run timeline :=
  let '(_, _, timelinePanelHeight) := panel_heights m in
  renderTimeline m (Int.sub timelinePanelHeight 3).

(** The three histograms of [renderDeveloperStats]: the loop
    [for _, c := range commitsToAnalyze { counts[key(c)]++ }], where
    [key] is [c.Date.Weekday()], [c.Date.Month()] or
    [c.Date.Local().Hour()]. A missing key reads as 0. *)
Definition bucketCounts (key : commitInfo -> Z) (cs : list commitInfo) : gmap Z Z :=
  foldl (fun acc c => <[key c := Int.add (default 0 (acc !! key c)) 1]> acc) ∅ cs.

Definition weekdayCounts : list commitInfo -> gmap Z Z :=
  bucketCounts (fun c => Weekday (Date c)).
Definition monthCounts : list commitInfo -> gmap Z Z :=
  bucketCounts (fun c => Month (Date c)).

(** The buckets of the three charts, in the order they are drawn:
    January to December, Monday to Sunday ([time.Sunday] is 0), and the
    hours 0 to 23. *)
Definition months : list Z := [1; 2; 3; 4; 5; 6; 7; 8; 9; 10; 11; 12].
Definition weekdays : list Z := [1; 2; 3; 4; 5; 6; 0].









(** ** The running program: UI loop and fetcher *)

(** The program is the model owned by the UI loop together with the
    records the fetcher has still to send. *)
Record System := mkSystem {
  model : Model;
  pending : list commitInfo
}.

Inductive Event :=
  | FetcherSend       (* the fetcher sends its next record, if the buffer has room *)
  | FetcherClose      (* the fetcher returns: the deferred close *)
  | Deliver (msg : Msg)   (* the runtime calls [Update] *)
  | Render.           (* the runtime calls [View] *)

Section Program.
Context {Commit Tree Patch : Type}.
Variable r : Repository Commit Tree Patch.

(** The fetcher's [m.processedCommitsChan <- &commitInfo{...}]: the next
    record enters the buffer when there is room; otherwise the fetcher
    stays blocked. *)
Definition fetcher_send (s : System) : System :=
  let ch := processedCommitsChan (model s) in
  match pending s with
  | c :: rest =>
      if (len (chan_buf ch) <? chan_capacity) && negb (chan_closed ch) then
        {| model := set_processedCommitsChan
                      {| chan_buf := chan_buf ch ++ [c]; chan_closed := chan_closed ch |}
                      (model s);
           pending := rest |}
      else s
  | [] => s
  end.

(** The fetcher's [defer close(m.processedCommitsChan)], once it has
    nothing left to send. *)
Definition fetcher_close (s : System) : System :=
  let ch := processedCommitsChan (model s) in
  match pending s with
  | [] => {| model := set_processedCommitsChan
                        {| chan_buf := chan_buf ch; chan_closed := true |} (model s);
             pending := [] |}
  | _ :: _ => s
  end.

(** One event; a panic of [Update] or [View] ends the run. *)
Definition exec_event (s : System) (e : Event) : run System :=
  match e with
  | FetcherSend => Ret (fetcher_send s)
  | FetcherClose => Ret (fetcher_close s)
  | Deliver msg =>
      '(m, _) ← Update r (model s) msg;
      Ret {| model := m; pending := pending s |}
  | Render =>
      m ← View (model s);
      Ret {| model := m; pending := pending s |}
  end.

Fixpoint exec (s : System) (events : list Event) : run System :=
  match events with
  | [] => Ret s
  | e :: events => s ← exec_event s e; exec s events
  end.

(** The program started with configuration [cfg] when the fetcher is
    going to send [records]. *)
Definition start (cfg : Config) (records : list commitInfo) : System :=
  {| model := InitialModel cfg; pending := records |}.

(** The states the program can be in: those reached by some sequence of
    events. Ticks and frames may come at any time and events are still
    handled after a quit command, so this set contains every state of a
    real run. *)
Definition reachable (cfg : Config) (records : list commitInfo) (s : System) : Prop :=
  exists events, exec (start cfg records) events = Ret s.

End Program.

(** ** A small repository, used to run the definitions

    Three commits on the main line, oldest first: [c1] is a root commit,
    [c2] changes one file by +10/-2 against [c1], and [c3] changes one
    file by +0/-5 against [c2]. A fourth commit [c4], on a side branch,
    is an empty commit on top of [c3]: it has the tree of its parent.
    Commits and trees are numbered; a patch is the pair of trees it
    compares, and the empty tree is number 0. *)

Module Demo.

Definition h1 : string := "c1aaaaaaaa".
Definition h2 : string := "c2bbbbbbbb".
Definition h3 : string := "c3cccccccc".
Definition h4 : string := "c4dddddddd".

Definition repo : Repository Z Z (Z * Z) :=
  {| CommitObject := fun hash =>
       if String.eqb hash h1 then Ok 1
       else if String.eqb hash h2 then Ok 2
       else if String.eqb hash h3 then Ok 3
       else if String.eqb hash h4 then Ok 4
       else Err "object not found";
     commit_Hash := fun c =>
       if c =? 1 then h1 else if c =? 2 then h2 else if c =? 3 then h3 else h4;
     commit_Message := fun c => if c =? 1 then "init" else if c =? 2 then "feature" else "cleanup";
     commit_AuthorName := fun c => if c =? 2 then "bob" else "alice";
     commit_AuthorWhen := fun c => {| Year := 2022 + c; Month := 1; Weekday := 1; Hour := 9 |};
     NumParents := fun c => if c =? 1 then 0 else 1;
     Parent := fun c i =>
       if (i =? 0) && (c =? 2) then Ok 1
       else if (i =? 0) && (c =? 3) then Ok 2
       else if (i =? 0) && (c =? 4) then Ok 3
       else Err "parent not found";
     commit_Tree := fun c => if c =? 4 then Ok 3 else Ok c;
     emptyTree := 0;
     tree_Patch := fun from to => Ok (from, to);
     patch_Stats := fun p =>
       if (p.1 =? 1) && (p.2 =? 2) then [ {| Name := "main.go"; Addition := 10; Deletion := 2 |} ]
       else if (p.1 =? 2) && (p.2 =? 3) then [ {| Name := "main.go"; Addition := 0; Deletion := 5 |} ]
       else if (p.1 =? 0) && (p.2 =? 1) then [ {| Name := "README"; Addition := 3; Deletion := 0 |} ]
       else [];
     patch_String := fun p =>
       if (p.1 =? 0) && (p.2 =? 1) then "+readme"
       else if (p.1 =? 1) && (p.2 =? 2) then "+feature"
       else if (p.1 =? 2) && (p.2 =? 3) then "-dead code"
       else "" |}.

(** The records the fetcher sends for the main line. *)
Definition records : list commitInfo := fetcher repo (-1) [h1; h2; h3].

(** The records of [c2] and of [c4], as the fetcher builds them. *)
Definition record2 : commitInfo := new_record repo 2 (patch_numbers repo (1, 2)).
Definition record4 : commitInfo := new_record repo 4 (patch_numbers repo (3, 3)).

Definition cfg (auto : bool) : Config :=
  {| CommitLimit := -1; RepoPath := "."; AutoProgress := auto; ProgressIntervalMs := 25 |}.

(** A replay with auto-advance on: each record is sent, integrated by
    the next tick and a frame is rendered; then the channel is closed. *)
Definition replay_events : list Event :=
  [FetcherSend; Deliver progressTickMsg; Render;
   FetcherSend; Deliver progressTickMsg; Render;
   FetcherSend; Deliver progressTickMsg; Render;
   FetcherClose; Deliver progressTickMsg; Render].

(** An integrated record of which only the author and the churn matter. *)
Definition commit_by (author : string) (additions deletions : Z) : commitInfo :=
  {| Hash := "0000000"; Message := ""; Author := author;
     Date := {| Year := 2024; Month := 1; Weekday := 1; Hour := 9 |};
     DiffLoaded := true; DiffContent := "";
     Files := 1; Additions := additions; Deletions := deletions;
     Churn := additions + deletions;
     CumulativeFiles := 0; CumulativeAdditions := 0; CumulativeDeletions := 0 |}.

(** The state after the events, or the initial state if they panic. *)
Definition after (s : System) (events : list Event) : System :=
  match exec repo s events with
  | Ret s' => s'
  | Panic _ => s
  end.

Definition replayed : System :=
  Eval vm_compute in after (start (cfg true) records) replay_events.

(** The same replay, then paused with the toggle key. *)
Definition paused : System :=
  Eval vm_compute in after replayed [Deliver (KeyMsg "p"); Render].

(** The diff view opened on the last commit. *)
Definition opened : System :=
  Eval vm_compute in after paused [Deliver (KeyMsg "enter")].

(** After the replay, the year pointer is moved up from "all-time" to
    the last entry of the year list, and the cursor is moved back to the
    first commit; a frame is rendered after every key. *)
Definition rewind_events : list Event :=
  [Deliver (KeyMsg "up"); Render;
   Deliver (KeyMsg "left"); Render;
   Deliver (KeyMsg "left"); Render].

Definition rewound : System :=
  Eval vm_compute in after replayed rewind_events.

End Demo.

(** * Specification vocabulary *)

(** The sum of a list of integers. *)
Definition sumZ (l : list Z) : Z := foldr Z.add 0 l.

(** The per-commit deltas of a record. *)
Definition deltas (c : commitInfo) : Z * Z * Z := (Files c, Additions c, Deletions c).

(** The deltas and the cumulative fields of a record. *)
Definition numbers (c : commitInfo) : Z * Z * Z * (Z * Z * Z) :=
  (deltas c, (CumulativeFiles c, CumulativeAdditions c, CumulativeDeletions c)).

(** The cumulative fields of the record at every index are the sums of
    the deltas of the records up to and including that index. *)
Definition prefix_sums_hold (cs : list commitInfo) : Prop :=
  forall (i : nat) c, cs !! i = Some c ->
    CumulativeFiles c = sumZ (Files <$> take (S i) cs) /\
    CumulativeAdditions c = sumZ (Additions <$> take (S i) cs) /\
    CumulativeDeletions c = sumZ (Deletions <$> take (S i) cs).

(** The cumulative fields never decrease along the list. *)
Definition cumulative_monotone (cs : list commitInfo) : Prop :=
  forall (i j : nat) ci cj, (i <= j)%nat -> cs !! i = Some ci -> cs !! j = Some cj ->
    CumulativeFiles ci <= CumulativeFiles cj /\
    CumulativeAdditions ci <= CumulativeAdditions cj /\
    CumulativeDeletions ci <= CumulativeDeletions cj.

(** The largest value of a list of counts, 0 for the empty list. *)
Definition max0 (l : list Z) : Z := foldr Z.max 0 l.

(** The deltas of a record are counts. *)
Definition counts (c : commitInfo) : Prop :=
  0 <= Files c /\ 0 <= Additions c /\ 0 <= Deletions c.

(** The repository reports line counts: the additions and deletions of
    the entries of a patch are not negative, and their sums over one
    patch are representable. The records of the fetcher then have
    counts as deltas. *)
Definition stats_are_counts {Commit Tree Patch} (r : Repository Commit Tree Patch) : Prop :=
  forall patch,
    Forall (fun s => 0 <= Addition s /\ 0 <= Deletion s) (patch_Stats r patch) /\
    sumZ (Addition <$> patch_Stats r patch) <= Int.max_int /\
    sumZ (Deletion <$> patch_Stats r patch) <= Int.max_int.

(** What is assumed of the records the fetcher sends: their deltas are
    counts, and the totals over the whole history, like the number of
    records, are representable. *)
Definition records_ok (records : list commitInfo) : Prop :=
  Forall counts records /\
  len records <= Int.max_int /\
  sumZ (Files <$> records) <= Int.max_int /\
  sumZ (Additions <$> records) <= Int.max_int /\
  sumZ (Deletions <$> records) <= Int.max_int.

(** The cursor is an index of the commit list, or 0 while the list is
    empty. *)
Definition cursor_ok (m : Model) : Prop :=
  0 <= currentCommitIndex m /\
  (currentCommitIndex m < len (commits m) \/ currentCommitIndex m = 0).

(** The part of the model that only ingestion changes. *)
Definition ingested (m : Model) :=
  (numbers <$> commits m, maxAdditions m, maxDeletions m, processedCommitsChan m).

(** The record appended by [integrate]. *)
Definition integrated (cs : list commitInfo) (newCommit : commitInfo) : commitInfo :=
  let newCommit := set_DiffLoaded true newCommit in
  match last cs with
  | Some lastCommit =>
      set_Cumulative
        (Int.add (CumulativeFiles lastCommit) (Files newCommit))
        (Int.add (CumulativeAdditions lastCommit) (Additions newCommit))
        (Int.add (CumulativeDeletions lastCommit) (Deletions newCommit))
        newCommit
  | None =>
      set_Cumulative (Files newCommit) (Additions newCommit) (Deletions newCommit)
        newCommit
  end.

(** The invariant of ingestion: the records integrated, waiting in the
    channel and still to be sent are, in this order, the records of the
    fetcher; the cumulative fields are the prefix sums; the running
    maxima are the maxima of the integrated records; the cursor is in
    range. *)
Definition ingest_inv (records : list commitInfo) (s : System) : Prop :=
  deltas <$> (commits (model s) ++ chan_buf (processedCommitsChan (model s)) ++ pending s)
    = deltas <$> records /\
  prefix_sums_hold (commits (model s)) /\
  maxAdditions (model s) = max0 (Additions <$> commits (model s)) /\
  maxDeletions (model s) = max0 (Deletions <$> commits (model s)) /\
  cursor_ok (model s).

(** The keys that close the diff view, and the keys that move the
    cursor. *)
Definition leave_key (k : string) : bool := key_in k ["q"; "ctrl+c"; "esc"; "enter"].
Definition nav_key (k : string) : bool := key_in k ["left"; "h"; "right"; "l"].

(** Events that do not close the diff view, and events that do not move
    the cursor in it. *)
Definition keeps_diff_view (e : Event) : Prop :=
  match e with
  | Deliver (KeyMsg k) => leave_key k = false
  | _ => True
  end.

Definition no_navigation (e : Event) : Prop :=
  match e with
  | Deliver (KeyMsg k) => nav_key k = false
  | _ => True
  end.

(** A visit of the diff view: it is opened by Enter in state [s0], the
    events [inside] are handled while it is open, and the key [k] closes
    it, leaving the program in state [s3]. *)
Definition diff_view_visit {Commit Tree Patch} (r : Repository Commit Tree Patch)
    (s0 : System) (inside : list Event) (k : string) (s3 : System) : Prop :=
  diffState (model s0) = notInDiffView /\
  exists s1 s2,
    exec_event r s0 (Deliver (KeyMsg "enter")) = Ret s1 /\
    diffState (model s1) = inDiffView /\
    Forall keeps_diff_view inside /\
    exec r s1 inside = Ret s2 /\
    leave_key k = true /\
    exec_event r s2 (Deliver (KeyMsg k)) = Ret s3.

(** The scroll keys of the diff view. *)
Definition scroll_key (k : string) : bool :=
  key_in k ["up"; "k"; "down"; "j"; "pgup"; "pgdown"; " "].

Definition key_events (keys : list string) : list Event :=
  (fun k => Deliver (KeyMsg k)) <$> keys.

(** [len(lines)] in [renderDiffView] *)
Definition line_count (m : Model) : Z := len (split_lines (currentDiff m)).

(** Descending order of churn. *)
Definition churn_descending (a b : authorStat) : Prop := churn b <= churn a.

(** What [sort.Slice] guarantees for the comparison [by_churn]: the
    result is a rearrangement of the slice in which no element is less
    than the one before it. Nothing is said of elements that compare
    equal. *)
Definition sort_Slice_contract
    (sort_Slice : (authorStat -> authorStat -> bool) -> list authorStat -> list authorStat)
  : Prop :=
  forall l, sort_Slice by_churn l ≡ₚ l /\
            Sorted (fun a b => by_churn b a = false) (sort_Slice by_churn l).

(** The index of the first commit of the author in the analysed range. *)
Fixpoint first_seen (a : string) (authors : list string) : nat :=
  match authors with
  | [] => 0
  | x :: rest => if String.eqb x a then 0 else S (first_seen a rest)
  end.

(** Authors with equal total churn appear in first-seen order. *)
Definition ties_in_first_seen_order (cs : list commitInfo) (shown : list authorStat) : Prop :=
  forall (i j : nat) a b, (i < j)%nat ->
    shown !! i = Some a -> shown !! j = Some b -> churn a = churn b ->
    (first_seen (name a) (Author <$> cs) < first_seen (name b) (Author <$> cs))%nat.

(** The total churn of an author over the analysed range. *)
Definition total_churn (cs : list commitInfo) (a : string) : Z :=
  sumZ (Churn <$> filter (fun c => Author c = a) cs).

Definition to_authorStat (e : string * Z) : authorStat := {| name := e.1; churn := e.2 |}.

(** The fields of a record that the fetcher sets and nothing changes
    afterwards. *)
Definition identity (c : commitInfo) : string * string * string * Time * (Z * Z * Z * Z) :=
  (Hash c, Message c, Author c, Date c, (Files c, Additions c, Deletions c, Churn c)).

(** [text] is what the diff view shows for the record: its cached diff
    text, or the error message of a fetch that cached nothing. *)
Definition diff_of_record (text : string) (c : commitInfo) : Prop :=
  text = DiffContent c \/
  (DiffContent c = "" /\ exists e, text = ("Error getting diff: " ++ e)%string).

(** The diff text on display belongs to the commit under the cursor. *)
Definition shows_cursor_diff (m : Model) : Prop :=
  exists c, 0 <= currentCommitIndex m /\
    commits m !! Z.to_nat (currentCommitIndex m) = Some c /\
    diff_of_record (currentDiff m) c.

(** The invariant of the hand-off between the fetcher and the UI loop. *)
Definition pipeline_inv (records : list commitInfo) (s : System) : Prop :=
  identity <$> (commits (model s) ++ chan_buf (processedCommitsChan (model s)) ++ pending s)
    = identity <$> records /\
  len (chan_buf (processedCommitsChan (model s))) <= chan_capacity /\
  (chan_closed (processedCommitsChan (model s)) = true -> pending s = []) /\
  (loadingComplete (model s) = true ->
     chan_closed (processedCommitsChan (model s)) = true /\
     chan_buf (processedCommitsChan (model s)) = []) /\
  (diffState (model s) = inDiffView ->
     autoProgress (model s) = false /\ shows_cursor_diff (model s)).






(** The bytes of a string, and the strings without a line break. *)
Definition chars (s : string) : list ascii := list_ascii_of_string s.

Definition newline : ascii := "010"%char.

Definition single_line (s : string) : Prop := newline ∉ chars s.

(** [first] is the first line of [msg]: the text before the first line
    break, or all of it when there is none. *)
Definition first_line_of (msg first : string) : Prop :=
  single_line first /\
  (msg = first \/ exists tail, msg = (first ++ String newline tail)%string).

(** The events that are not key presses: what happens to a replay that
    is left alone. *)
Definition is_key_event (e : Event) : bool :=
  match e with
  | Deliver (KeyMsg _) => true
  | _ => false
  end.

(** The state of a replay that is left alone: the overview is shown,
    auto-advance is as configured, the statistics are those of all
    years, and the cursor is on the newest commit. *)
Definition follows_head (cfg : Config) (m : Model) : Prop :=
  diffState m = notInDiffView /\
  autoProgress m = AutoProgress cfg /\
  displayedStatsYear m = 0 /\
  currentStatYearIndex m = 0 /\
  currentCommitIndex m = Z.max 0 (len (commits m) - 1).

(** * Properties *)

(** ** Facts about Go's [int] *)

Lemma Int_wrap_fits z : Int.fits z -> Int.wrap z = z.
Proof.
  unfold Int.fits, Int.min_int, Int.max_int, Int.wrap. intros H.
  rewrite Z.mod_small; lia.
Qed.

Lemma Int_wrap_range z : Int.fits (Int.wrap z).
Proof.
  unfold Int.fits, Int.min_int, Int.max_int, Int.wrap.
  pose proof (Z.mod_pos_bound (z + 2 ^ 63) (2 ^ 64)). lia.
Qed.

Lemma Int_wrap_add_l a b : Int.wrap (Int.wrap a + b) = Int.wrap (a + b).
Proof.
  unfold Int.wrap. f_equal.
  replace ((a + 2 ^ 63) mod 2 ^ 64 - 2 ^ 63 + b + 2 ^ 63)
    with ((a + 2 ^ 63) mod 2 ^ 64 + b) by lia.
  rewrite Zplus_mod_idemp_l. f_equal. lia.
Qed.

Lemma Int_add_fits a b : Int.fits (a + b) -> Int.add a b = a + b.
Proof. apply Int_wrap_fits. Qed.

Lemma Int_sub_fits a b : Int.fits (a - b) -> Int.sub a b = a - b.
Proof. apply Int_wrap_fits. Qed.

Lemma Int_mul_fits a b : Int.fits (a * b) -> Int.mul a b = a * b.
Proof. apply Int_wrap_fits. Qed.

Lemma sumZ_app l1 l2 : sumZ (l1 ++ l2) = sumZ l1 + sumZ l2.
Proof. unfold sumZ. induction l1 as [|x l1 IH]; simpl; lia. Qed.

Lemma sumZ_nonneg l : Forall (fun x => 0 <= x) l -> 0 <= sumZ l.
Proof. unfold sumZ. induction 1; simpl; lia. Qed.

(** ** The ingestor *)

Section FetcherFacts.
Context {Commit Tree Patch : Type}.
Variable r : Repository Commit Tree Patch.

Lemma sum_stats_from (stats : list FileStat) (a d : Z) :
  foldl (fun acc s => (Int.add acc.1 (Addition s), Int.add acc.2 (Deletion s)))
        (Int.wrap a, Int.wrap d) stats
  = (Int.wrap (a + sumZ (Addition <$> stats)),
     Int.wrap (d + sumZ (Deletion <$> stats))).
Proof.
  revert a d. induction stats as [|s stats IH]; intros a d.
  - cbn. now rewrite !Z.add_0_r.
  - cbn [foldl fst snd fmap list_fmap]. unfold Int.add.
    rewrite !Int_wrap_add_l, IH.
    unfold sumZ. cbn [foldr]. f_equal; f_equal; lia.
Qed.

Lemma sum_stats_wrap (stats : list FileStat) :
  sum_stats stats
  = (Int.wrap (sumZ (Addition <$> stats)), Int.wrap (sumZ (Deletion <$> stats))).
Proof. unfold sum_stats. apply (sum_stats_from stats 0 0). Qed.

(** C3. A commit without parent is sent with files, additions,
    deletions and churn all zero. A commit with a parent is sent
    exactly when its first parent, the two trees and their patch can
    be read, and then its statistics are those of the patch from the
    first parent's tree to its own tree: the number of file entries,
    the sums of their additions and deletions, and their total as
    churn. No other parent is consulted. *)
Theorem fetcher_root_zero_first_parent_only (hashStr : string) (commit : Commit) :
  CommitObject r hashStr = Ok commit ->
  (NumParents r commit = 0 ->
     exists c, fetch_one r hashStr = Some c /\
       Files c = 0 /\ Additions c = 0 /\ Deletions c = 0 /\ Churn c = 0)
  /\
  (0 < NumParents r commit ->
     forall c, fetch_one r hashStr = Some c <->
       exists parent cTree pTree patch,
         Parent r commit 0 = Ok parent /\
         commit_Tree r commit = Ok cTree /\
         commit_Tree r parent = Ok pTree /\
         tree_Patch r pTree cTree = Ok patch /\
         c = new_record r commit (patch_numbers r patch) /\
         Files c = len (patch_Stats r patch) /\
         Additions c = Int.wrap (sumZ (Addition <$> patch_Stats r patch)) /\
         Deletions c = Int.wrap (sumZ (Deletion <$> patch_Stats r patch)) /\
         Churn c = Int.add (Additions c) (Deletions c)).
Proof.
  intros Hobj. unfold fetch_one, commit_numbers. rewrite Hobj. split.
  - intros Hroot. rewrite Hroot. simpl. eexists. split; [reflexivity|]. now simpl.
  - intros Hpar. apply Z.ltb_lt in Hpar. rewrite Hpar. intros c. split.
    + destruct (Parent r commit 0) as [parent|] eqn:E1; [|discriminate].
      destruct (commit_Tree r commit) as [cTree|] eqn:E2; [|discriminate].
      destruct (commit_Tree r parent) as [pTree|] eqn:E3; [|discriminate].
      destruct (tree_Patch r pTree cTree) as [patch|] eqn:E4; [|discriminate].
      intros [= <-]. exists parent, cTree, pTree, patch.
      repeat split; try assumption; try reflexivity.
      all: unfold new_record, patch_numbers; rewrite sum_stats_wrap; reflexivity.
    + intros (parent & cTree & pTree & patch & -> & -> & -> & -> & -> & _).
      reflexivity.
Qed.

(** The deltas of the records the fetcher sends are counts. *)
Lemma fetch_one_counts (hashStr : string) (c : commitInfo) :
  stats_are_counts r -> fetch_one r hashStr = Some c -> counts c.
Proof.
  intros Hstats. unfold fetch_one, commit_numbers.
  destruct (CommitObject r hashStr) as [commit|]; [|discriminate].
  destruct (0 <? NumParents r commit).
  - destruct (Parent r commit 0) as [parent|]; [|discriminate].
    destruct (commit_Tree r commit) as [cTree|]; [|discriminate].
    destruct (commit_Tree r parent) as [pTree|]; [|discriminate].
    destruct (tree_Patch r pTree cTree) as [patch|]; [|discriminate].
    intros [= <-]. destruct (Hstats patch) as (Hall & HA & HD).
    unfold counts, new_record, patch_numbers. rewrite sum_stats_wrap.
    cbn [Files Additions Deletions].
    assert (0 <= sumZ (Addition <$> patch_Stats r patch)).
    { apply sumZ_nonneg, Forall_fmap. eapply Forall_impl; [exact Hall|]. cbn. tauto. }
    assert (0 <= sumZ (Deletion <$> patch_Stats r patch)).
    { apply sumZ_nonneg, Forall_fmap. eapply Forall_impl; [exact Hall|]. cbn. tauto. }
    rewrite !Int_wrap_fits by (unfold Int.fits, Int.min_int; lia).
    unfold len. lia.
  - intros [= <-]. unfold counts. cbn. lia.
Qed.

Lemma fetcher_counts (CommitLimit : Z) (hashes : list string) :
  stats_are_counts r -> Forall counts (fetcher r CommitLimit hashes).
Proof.
  intros Hstats. unfold fetcher. generalize 0 as commitCount.
  induction hashes as [|hashStr rest IH]; intros commitCount; cbn [fetcher_loop].
  - constructor.
  - destruct (fetch_one r hashStr) as [c|] eqn:Hc; [|apply IH].
    pose proof (fetch_one_counts _ _ Hstats Hc) as Hcounts.
    destruct (_ && _); constructor; auto.
Qed.

End FetcherFacts.

Lemma fetcher_root_zero_first_parent_only_witness :
  (exists c, fetch_one Demo.repo Demo.h1 = Some c /\
     Files c = 0 /\ Additions c = 0 /\ Deletions c = 0 /\ Churn c = 0)
  /\
  (exists c, fetch_one Demo.repo Demo.h2 = Some c /\ Files c = 1 /\ Additions c = 10).
Proof.
  split.
  - apply (fetcher_root_zero_first_parent_only Demo.repo Demo.h1 1); reflexivity.
  - exists (new_record Demo.repo 2 (patch_numbers Demo.repo (1, 2))).
    split; [|split; reflexivity].
    apply (fetcher_root_zero_first_parent_only Demo.repo Demo.h2 2);
      [reflexivity | reflexivity |].
    exists 1, 2, 1, (1, 2). repeat split; reflexivity.
Defined.

(** ** The braille canvas *)

Module BrailleFacts.
Import Braille.

Lemma index_lookup {A} (l : list A) (i : Z) (a : A) :
  0 <= i -> l !! Z.to_nat i = Some a -> index l i = Ret a.
Proof.
  intros Hi Hl. unfold index.
  pose proof (lookup_lt_Some _ _ _ Hl) as Hlt.
  destruct (i <? 0) eqn:E1; [apply Z.ltb_lt in E1; lia|].
  destruct (Z.of_nat (length l) <=? i) eqn:E2; [apply Z.leb_le in E2; lia|].
  simpl. now rewrite Hl.
Qed.

Lemma cell_offset_fits (c : BrailleCanvas) (x y : Z) :
  canvas_ok c -> 0 <= x < Width c -> 0 <= y < Height c ->
  0 <= y * Width c + x < Width c * Height c.
Proof. intros (HW & HH & _) Hx Hy. nia. Qed.

Lemma cell_offset (c : BrailleCanvas) (x y : Z) :
  canvas_ok c -> 0 <= x < Width c -> 0 <= y < Height c ->
  Int.add (Int.mul y (Width c)) x = y * Width c + x.
Proof.
  intros Hok Hx Hy. pose proof (cell_offset_fits c x y Hok Hx Hy) as Hoff.
  destruct Hok as (HW & HH & _ & _ & Hmax & _).
  unfold Int.add. rewrite Int_mul_fits.
  - apply Int_wrap_fits. unfold Int.fits, Int.min_int. lia.
  - unfold Int.fits, Int.min_int. nia.
Qed.

Lemma get_dot (c : BrailleCanvas) (x y : Z) :
  canvas_ok c -> get c x y = Ret (dot c x y).
Proof.
  intros Hok. unfold get, dot.
  destruct ((x <? 0) || (Width c <=? x) || (y <? 0) || (Height c <=? y)) eqn:E;
    [reflexivity|].
  rewrite !orb_false_iff in E. destruct E as [[[E1 E2] E3] E4].
  apply Z.ltb_ge in E1, E3. apply Z.leb_gt in E2, E4.
  rewrite cell_offset by (auto; lia).
  pose proof (cell_offset_fits c x y Hok ltac:(lia) ltac:(lia)) as Hoff.
  destruct Hok as (_ & _ & _ & _ & _ & Hlen). unfold len in Hlen.
  destruct (buffer c !! Z.to_nat (y * Width c + x)) as [b|] eqn:Hb.
  - simpl. apply index_lookup; [lia | exact Hb].
  - apply lookup_ge_None in Hb. lia.
Qed.

Lemma glyph_cell_rune (c : BrailleCanvas) (x y : Z) :
  canvas_ok c -> 0 <= x < Width c -> 0 <= y < Height c ->
  cell_rune c x y = Ret (glyph c x y).
Proof.
  intros Hok Hx Hy.
  assert (Hfit : forall a k, 0 <= a -> 0 <= k -> a + k <= Int.max_int ->
                             Int.add a k = a + k).
  { intros a k Ha Hk Hmax. apply Int_add_fits.
    unfold Int.fits, Int.min_int. lia. }
  destruct Hok as (HW & HH & HWm & HHm & Hmax & Hlen).
  assert (Hok : canvas_ok c) by (repeat split; assumption).
  unfold cell_rune, or_dot.
  rewrite !Hfit by lia. rewrite !get_dot by assumption.
  unfold glyph.
  destruct (dot c x y), (dot c x (y + 1)), (dot c x (y + 2)), (dot c (x + 1) y),
    (dot c (x + 1) (y + 1)), (dot c (x + 1) (y + 2)), (dot c x (y + 3)),
    (dot c (x + 1) (y + 3)); reflexivity.
Qed.

Lemma stride_nil (i hi step : Z) : 0 < step -> hi <= i -> stride i hi step = [].
Proof.
  intros Hs Hi. unfold stride.
  assert ((hi - i + step - 1) / step < 1) by (apply Z.div_lt_upper_bound; lia).
  replace (Z.to_nat ((hi - i + step - 1) / step)) with 0%nat by lia. reflexivity.
Qed.

Lemma stride_cons (i hi step : Z) :
  0 < step -> i < hi -> stride i hi step = i :: stride (i + step) hi step.
Proof.
  intros Hs Hi. unfold stride.
  replace (hi - i + step - 1) with ((hi - (i + step) + step - 1) + 1 * step) by lia.
  rewrite Z.div_add by lia.
  assert (0 <= (hi - (i + step) + step - 1) / step) by (apply Z.div_pos; lia).
  rewrite Z2Nat.inj_add by lia.
  replace (Z.to_nat 1) with 1%nat by reflexivity.
  rewrite Nat.add_comm. cbn [Nat.add seq fmap list_fmap].
  f_equal; [lia|].
  rewrite <- fmap_S_seq, <- list_fmap_compose.
  apply list_fmap_ext. intros _ k _. cbn. lia.
Qed.

Lemma for_loop_collect {A} (f : Z -> list A) (body : Z -> list A -> run (list A))
    (hi step : Z) :
  0 < step -> hi + step <= Int.max_int ->
  (forall j buf, 0 <= j < hi -> body j buf = Ret (buf ++ f j)) ->
  forall fuel i buf, 0 <= i -> (Z.to_nat (hi - i) < fuel)%nat ->
    for_loop fuel i hi step body buf = Ret (buf ++ concat (f <$> stride i hi step)).
Proof.
  intros Hs Hmax Hbody. induction fuel as [|fuel IH]; intros i buf Hi Hfuel; [lia|].
  cbn [for_loop]. destruct (i <? hi) eqn:E.
  - apply Z.ltb_lt in E. rewrite Hbody by lia. cbn.
    rewrite Int_add_fits by (unfold Int.fits, Int.min_int; lia).
    rewrite IH by lia. rewrite (stride_cons i hi step) by lia.
    cbn. now rewrite <- app_assoc.
  - apply Z.ltb_ge in E. rewrite stride_nil by lia. cbn. now rewrite app_nil_r.
Qed.

Lemma concat_fmap_singleton {A B} (g : A -> B) (l : list A) :
  concat ((fun a => [g a]) <$> l) = g <$> l.
Proof. induction l as [|a l IH]; cbn; [reflexivity | now rewrite IH]. Qed.

Lemma String_row_frame (c : BrailleCanvas) (y : Z) (buf : list Z) :
  canvas_ok c -> 0 <= y < Height c ->
  String_row c y buf
  = Ret (buf ++ ((fun x => glyph c x y) <$> origins (Width c) 2) ++ [10]).
Proof.
  intros Hok Hy. unfold String_row.
  rewrite (for_loop_collect (fun x => [glyph c x y])).
  - cbn. rewrite concat_fmap_singleton. now rewrite <- app_assoc.
  - lia.
  - destruct Hok as (_ & _ & HWm & _). lia.
  - intros x b Hx. now rewrite glyph_cell_rune.
  - lia.
  - lia.
Qed.

Lemma String_frame (c : BrailleCanvas) : canvas_ok c -> String_ c = Ret (frame c).
Proof.
  intros Hok. unfold String_, frame.
  rewrite (for_loop_collect
             (fun y => ((fun x => glyph c x y) <$> origins (Width c) 2) ++ [10])).
  - reflexivity.
  - lia.
  - destruct Hok as (_ & _ & _ & HHm & _). lia.
  - intros y b Hy. now apply String_row_frame.
  - lia.
  - lia.
Qed.

Lemma glyph_testbit (c : BrailleCanvas) (x y dx dy : Z) :
  0 <= dx <= 1 -> 0 <= dy <= 3 ->
  Z.testbit (glyph c x y) (dot_index dx dy) = dot c (x + dx) (y + dy).
Proof.
  intros Hdx Hdy.
  assert (Hc : (dx = 0 \/ dx = 1) /\ (dy = 0 \/ dy = 1 \/ dy = 2 \/ dy = 3)) by lia.
  unfold glyph.
  destruct Hc as [[-> | ->] [-> | [-> | [-> | ->]]]];
    rewrite ?Z.add_0_r;
    destruct (dot c x y), (dot c x (y + 1)), (dot c x (y + 2)), (dot c (x + 1) y),
      (dot c (x + 1) (y + 1)), (dot c (x + 1) (y + 2)), (dot c x (y + 3)),
      (dot c (x + 1) (y + 3)); reflexivity.
Qed.

Lemma Set_dot (c : BrailleCanvas) (px py : Z) :
  canvas_ok c -> 0 <= px < Width c -> 0 <= py < Height c ->
  exists c', Set_ c px py = Ret c' /\ canvas_ok c' /\
    forall x y, dot c' x y = if decide (x = px /\ y = py) then true else dot c x y.
Proof.
  intros Hok Hx Hy.
  pose proof (cell_offset_fits c px py Hok Hx Hy) as Hoff.
  pose proof (get_dot c px py Hok) as Hget.
  unfold Set_. unfold get in Hget.
  destruct ((px <? 0) || (Width c <=? px) || (py <? 0) || (Height c <=? py)) eqn:E.
  { rewrite !orb_true_iff in E. rewrite !Z.ltb_lt, !Z.leb_le in E. lia. }
  rewrite Hget. cbn. rewrite cell_offset by assumption.
  eexists. split; [reflexivity|].
  destruct Hok as (HW & HH & HWm & HHm & Hmax & Hlen). unfold len in Hlen.
  split.
  { repeat split; cbn; try assumption. unfold len. now rewrite length_insert. }
  intros x y. unfold dot. cbn.
  destruct ((x <? 0) || (Width c <=? x) || (y <? 0) || (Height c <=? y)) eqn:E'.
  { rewrite !orb_true_iff in E'. rewrite !Z.ltb_lt, !Z.leb_le in E'.
    destruct (decide (x = px /\ y = py)) as [[-> ->]|]; [lia | reflexivity]. }
  rewrite !orb_false_iff in E'. rewrite !Z.ltb_ge, !Z.leb_gt in E'.
  destruct (decide (x = px /\ y = py)) as [[-> ->]|Hne].
  - rewrite list_lookup_insert_eq by lia. reflexivity.
  - rewrite list_lookup_insert_ne; [reflexivity|].
    intros Heq. apply Z2Nat.inj in Heq; [|nia|nia].
    assert (y = py) by nia. subst y. assert (x = px) by lia. tauto.
Qed.

(** C8. On a canvas, the rune written for the character cell whose
    block starts at [(x, y)] is 0x2800 plus 1 for the sub-pixel
    [(x, y)], 2 for [(x, y+1)], 4 for [(x, y+2)], 8 for [(x+1, y)],
    16 for [(x+1, y+1)], 32 for [(x+1, y+2)], 64 for [(x, y+3)] and 128
    for [(x+1, y+3)]; [String] writes these runes for the aligned
    blocks, row by row, each row ended by a newline; every one of the
    eight bits of a glyph is the state of one sub-pixel of its block;
    and setting a sub-pixel sets that one bit of that one glyph and
    changes no other bit of any glyph. *)
Theorem braille_glyph_packing (c : BrailleCanvas) :
  canvas_ok c ->
  (forall x y, 0 <= x < Width c -> 0 <= y < Height c ->
     cell_rune c x y = Ret (glyph c x y)) /\
  String_ c = Ret (frame c) /\
  (forall x y dx dy, 0 <= dx <= 1 -> 0 <= dy <= 3 ->
     Z.testbit (glyph c x y) (dot_index dx dy) = dot c (x + dx) (y + dy)) /\
  (forall px py, 0 <= px < Width c -> 0 <= py < Height c ->
     exists c', Set_ c px py = Ret c' /\
       forall j i dx dy, 0 <= dx <= 1 -> 0 <= dy <= 3 ->
         Z.testbit (glyph c' (2 * j) (4 * i)) (dot_index dx dy)
         = if decide (2 * j + dx = px /\ 4 * i + dy = py) then true
           else Z.testbit (glyph c (2 * j) (4 * i)) (dot_index dx dy)).
Proof.
  intros Hok. split; [|split; [|split]].
  - intros x y Hx Hy. now apply glyph_cell_rune.
  - now apply String_frame.
  - intros x y dx dy Hdx Hdy. now apply glyph_testbit.
  - intros px py Hx Hy.
    destruct (Set_dot c px py Hok Hx Hy) as (c' & HSet & _ & Hdot).
    exists c'. split; [exact HSet|].
    intros j i dx dy Hdx Hdy. rewrite !glyph_testbit by assumption. apply Hdot.
Qed.

Lemma sample_ok : canvas_ok sample.
Proof. unfold canvas_ok, Int.max_int. cbn. repeat split; lia. Defined.

Lemma braille_glyph_packing_witness :
  canvas_ok sample /\
  String_ sample = Ret [0x2820; 0x2800; 10; 0x2800; 0x2840; 10].
Proof.
  split; [exact sample_ok|].
  exact (proj1 (proj2 (braille_glyph_packing sample sample_ok))).
Defined.

End BrailleFacts.

(** ** The diff cache *)

Section DiffCacheFacts.
Context {Commit Tree Patch : Type}.
Variable r : Repository Commit Tree Patch.

Lemma set_DiffContent_same (c : commitInfo) : set_DiffContent (DiffContent c) c = c.
Proof. now destruct c. Qed.

Lemma getDiff_cached (c : commitInfo) :
  DiffContent c <> "" -> getDiff r c = (Ok (DiffContent c), c, []).
Proof.
  intros Hne. unfold getDiff.
  destruct (String.eqb_spec (DiffContent c) ""); [contradiction | reflexivity].
Qed.

Lemma getDiff_uncached (c : commitInfo) :
  DiffContent c = "" ->
  getDiff r c = match compute_diff r c with
                | (calls, Err e) => (Err e, c, calls)
                | (calls, Ok text) => (Ok text, set_DiffContent text c, calls)
                end.
Proof. intros He. unfold getDiff. now rewrite He. Qed.

(** C4, as the code has it. The diff text is cached on the record when
    it is not empty: a second call on the record then returns the
    identical text, makes no call on the repository and leaves the
    record as it is. An empty diff text or a failed fetch caches
    nothing: the record is unchanged and a second call repeats the same
    repository calls and returns the same result. *)
Theorem getDiff_caches_nonempty_text (c c1 : commitInfo)
    (res1 : errorable string) (calls1 : list RepoCall) :
  getDiff r c = (res1, c1, calls1) ->
  (forall text, res1 = Ok text -> text <> "" ->
     DiffContent c1 = text /\ getDiff r c1 = (Ok text, c1, [])) /\
  (res1 = Ok "" \/ (exists e, res1 = Err e) ->
     c1 = c /\ getDiff r c1 = (res1, c1, calls1)).
Proof.
  intros H1.
  destruct (String.eqb_spec (DiffContent c) "") as [Hempty|Hcached].
  - rewrite getDiff_uncached in H1 by assumption.
    destruct (compute_diff r c) as [calls [text|e]] eqn:Hcomp;
      injection H1 as <- <- <-.
    + split.
      * intros text' [= <-] Hne. split; [now destruct c|].
        rewrite getDiff_cached; now destruct c.
      * intros [[= ->] | [e [=]]].
        assert (Hsame : set_DiffContent "" c = c)
          by (rewrite <- Hempty; apply set_DiffContent_same).
        rewrite Hsame. split; [reflexivity|].
        rewrite getDiff_uncached, Hcomp by assumption. now rewrite Hsame.
    + split.
      * intros text [=].
      * intros _. split; [reflexivity|].
        now rewrite getDiff_uncached, Hcomp by assumption.
  - rewrite getDiff_cached in H1 by assumption. injection H1 as <- <- <-.
    split.
    + intros text [= <-] _. split; [reflexivity|]. now apply getDiff_cached.
    + intros [[= Heq] | [e [=]]]. contradiction.
Qed.

End DiffCacheFacts.

(** The record of the commit [c2] of the small repository: its diff is
    computed by the first call and served from the record by the second. *)
Lemma getDiff_caches_nonempty_text_witness :
  let c1 := set_DiffContent "+feature" Demo.record2 in
  (getDiff Demo.repo Demo.record2).1 = (Ok "+feature", c1) /\
  (getDiff Demo.repo Demo.record2).2 <> [] /\
  getDiff Demo.repo c1 = (Ok "+feature", c1, []).
Proof.
  split; [reflexivity|]. split; [discriminate|].
  refine (proj2 (proj1 (getDiff_caches_nonempty_text Demo.repo Demo.record2 _ _ _ eq_refl)
                   "+feature" eq_refl _)).
  discriminate.
Defined.

(** The claim of C4 fails on the record of the empty commit [c4], whose
    diff text is empty: the second call repeats the six repository calls
    of the first. *)
Lemma getDiff_empty_text_recomputed :
  let '(res1, c1, calls1) := getDiff Demo.repo Demo.record4 in
  let '(res2, c2, calls2) := getDiff Demo.repo c1 in
  res1 = Ok "" /\ res2 = Ok "" /\ calls2 = calls1 /\ length calls2 = 6%nat /\
  ~ (calls2 = []).
Proof. cbn. repeat split. discriminate. Qed.

(** ** The replay engine *)

Lemma max0_app l a : max0 (l ++ [a]) = Z.max (max0 l) (Z.max a 0).
Proof. unfold max0. induction l as [|x l IH]; cbn; [lia | rewrite IH; lia]. Qed.

Lemma max0_nonneg l : 0 <= max0 l.
Proof. unfold max0. induction l; cbn; lia. Qed.

Lemma max0_upper l x : x ∈ l -> x <= max0 l.
Proof. unfold max0. induction 1; cbn; lia. Qed.

Lemma max0_attained l : l <> [] -> Forall (fun x => 0 <= x) l -> max0 l ∈ l.
Proof.
  unfold max0. induction l as [|x l IH]; [congruence|]. intros _ Hall.
  apply Forall_cons in Hall as [Hx Hl]. cbn.
  destruct l as [|y l].
  - cbn. replace (Z.max x 0) with x by lia. left.
  - destruct (Z.max_spec x (foldr Z.max 0 (y :: l))) as [[_ ->] | [_ ->]].
    + right. now apply IH.
    + left.
Qed.

Lemma sumZ_fmap_app {A} (f : A -> Z) (l1 l2 : list A) :
  sumZ (f <$> (l1 ++ l2)) = sumZ (f <$> l1) + sumZ (f <$> l2).
Proof. now rewrite fmap_app, sumZ_app. Qed.

Lemma sumZ_fmap_middle {A} (f : A -> Z) (l1 l2 : list A) (a : A) :
  sumZ (f <$> (l1 ++ a :: l2)) = sumZ (f <$> l1) + f a + sumZ (f <$> l2).
Proof. rewrite sumZ_fmap_app. unfold sumZ. cbn. lia. Qed.

Lemma sumZ_fmap_nonneg {A} (f : A -> Z) (P : A -> Prop) (l : list A) :
  (forall a, P a -> 0 <= f a) -> Forall P l -> 0 <= sumZ (f <$> l).
Proof.
  intros Hf Hl. apply sumZ_nonneg. apply Forall_fmap.
  eapply Forall_impl; [exact Hl | exact Hf].
Qed.

Lemma fmap_deltas_Files (l1 l2 : list commitInfo) :
  deltas <$> l1 = deltas <$> l2 -> Files <$> l1 = Files <$> l2.
Proof.
  intros H. apply (f_equal (fmap (fun d : Z * Z * Z => d.1.1))) in H.
  now rewrite <- !list_fmap_compose in H.
Qed.

Lemma fmap_deltas_Additions (l1 l2 : list commitInfo) :
  deltas <$> l1 = deltas <$> l2 -> Additions <$> l1 = Additions <$> l2.
Proof.
  intros H. apply (f_equal (fmap (fun d : Z * Z * Z => d.1.2))) in H.
  now rewrite <- !list_fmap_compose in H.
Qed.

Lemma fmap_deltas_Deletions (l1 l2 : list commitInfo) :
  deltas <$> l1 = deltas <$> l2 -> Deletions <$> l1 = Deletions <$> l2.
Proof.
  intros H. apply (f_equal (fmap (fun d : Z * Z * Z => d.2))) in H.
  now rewrite <- !list_fmap_compose in H.
Qed.

Lemma fmap_numbers_deltas (l1 l2 : list commitInfo) :
  numbers <$> l1 = numbers <$> l2 -> deltas <$> l1 = deltas <$> l2.
Proof.
  intros H. apply (f_equal (fmap (fun n : Z * Z * Z * (Z * Z * Z) => n.1))) in H.
  now rewrite <- !list_fmap_compose in H.
Qed.

Lemma fmap_numbers_lookup (l1 l2 : list commitInfo) (i : nat) c1 :
  numbers <$> l1 = numbers <$> l2 -> l1 !! i = Some c1 ->
  exists c2, l2 !! i = Some c2 /\ numbers c2 = numbers c1.
Proof.
  intros H H1. apply (f_equal (fun l => l !! i)) in H.
  rewrite !list_lookup_fmap, H1 in H.
  destruct (l2 !! i) as [c2|]; [|discriminate].
  exists c2. split; [reflexivity|]. cbn [fmap option_fmap option_map] in H. congruence.
Qed.

Lemma prefix_sums_numbers (cs cs' : list commitInfo) :
  numbers <$> cs' = numbers <$> cs -> prefix_sums_hold cs -> prefix_sums_hold cs'.
Proof.
  intros Hn Hcs i c' Hc'.
  destruct (fmap_numbers_lookup cs' cs i c' Hn Hc') as (c & Hc & Hnum).
  pose proof (fmap_numbers_deltas _ _ Hn) as Hd.
  destruct (Hcs i c Hc) as (HF & HA & HD).
  rewrite !fmap_take.
  rewrite (fmap_deltas_Files _ _ Hd), (fmap_deltas_Additions _ _ Hd),
    (fmap_deltas_Deletions _ _ Hd).
  rewrite <- !fmap_take.
  unfold numbers, deltas in Hnum. injection Hnum as ? ? ? ? ? ?.
  repeat split; congruence.
Qed.

Lemma prefix_sums_snoc (cs : list commitInfo) (c : commitInfo) :
  prefix_sums_hold cs ->
  CumulativeFiles c = sumZ (Files <$> cs) + Files c ->
  CumulativeAdditions c = sumZ (Additions <$> cs) + Additions c ->
  CumulativeDeletions c = sumZ (Deletions <$> cs) + Deletions c ->
  prefix_sums_hold (cs ++ [c]).
Proof.
  intros Hcs HF HA HD i x Hx.
  destruct (decide (i < length cs)%nat) as [Hlt|Hge].
  - rewrite lookup_app_l in Hx by assumption.
    rewrite take_app_le by lia. now apply Hcs.
  - apply lookup_lt_Some in Hx as Hlen. rewrite length_app in Hlen. cbn in Hlen.
    assert (i = length cs) as -> by lia.
    rewrite list_lookup_middle in Hx by reflexivity. injection Hx as <-.
    rewrite take_ge by (rewrite length_app; cbn; lia).
    rewrite !sumZ_fmap_app. unfold sumZ at 2 4 6. cbn. lia.
Qed.

Lemma prefix_sums_last (cs : list commitInfo) (lastCommit : commitInfo) :
  prefix_sums_hold cs -> last cs = Some lastCommit ->
  CumulativeFiles lastCommit = sumZ (Files <$> cs) /\
  CumulativeAdditions lastCommit = sumZ (Additions <$> cs) /\
  CumulativeDeletions lastCommit = sumZ (Deletions <$> cs).
Proof.
  intros Hcs Hlast. rewrite last_lookup in Hlast.
  pose proof (lookup_lt_Some _ _ _ Hlast) as Hlt.
  specialize (Hcs _ _ Hlast).
  rewrite take_ge in Hcs by lia. exact Hcs.
Qed.

Lemma prefix_sums_monotone (cs : list commitInfo) :
  Forall counts cs -> prefix_sums_hold cs -> cumulative_monotone cs.
Proof.
  intros Hcounts Hcs i j ci cj Hij Hi Hj.
  destruct (Hcs i ci Hi) as (-> & -> & ->).
  destruct (Hcs j cj Hj) as (-> & -> & ->).
  replace (S j) with (S i + (j - i))%nat by lia.
  rewrite <- (take_take_drop cs (S i) (j - i)). rewrite !sumZ_fmap_app.
  assert (Hrest : Forall counts (take (j - i) (drop (S i) cs)))
    by (apply Forall_take, Forall_drop, Hcounts).
  pose proof (sumZ_fmap_nonneg Files counts _ ltac:(unfold counts; tauto) Hrest).
  pose proof (sumZ_fmap_nonneg Additions counts _ ltac:(unfold counts; tauto) Hrest).
  pose proof (sumZ_fmap_nonneg Deletions counts _ ltac:(unfold counts; tauto) Hrest).
  lia.
Qed.

Lemma index_Ret {A} (l : list A) (i : Z) (a : A) :
  index l i = Ret a -> 0 <= i < len l /\ l !! Z.to_nat i = Some a.
Proof.
  unfold index, len. intros H.
  destruct (i <? 0) eqn:E1; [discriminate|].
  destruct (Z.of_nat (length l) <=? i) eqn:E2; [discriminate|].
  apply Z.ltb_ge in E1. apply Z.leb_gt in E2. cbn in H.
  destruct (l !! Z.to_nat i); [|discriminate]. injection H as ->. split; [lia | reflexivity].
Qed.

Lemma index_in_range {A} (l : list A) (i : Z) :
  0 <= i < len l -> exists a, index l i = Ret a /\ l !! Z.to_nat i = Some a.
Proof.
  unfold len. intros Hi.
  destruct (lookup_lt_is_Some_2 l (Z.to_nat i) ltac:(lia)) as [a Ha].
  exists a. split; [|exact Ha]. apply BrailleFacts.index_lookup; [lia | exact Ha].
Qed.

Lemma insert_numbers (l : list commitInfo) (i : nat) (c c' : commitInfo) :
  l !! i = Some c -> numbers c' = numbers c ->
  numbers <$> <[i := c']> l = numbers <$> l.
Proof.
  intros Hl Hn. rewrite list_fmap_insert, Hn.
  apply list_insert_id. now rewrite list_lookup_fmap, Hl.
Qed.

(** Tactics that split a run of [Update] or [View] into its branches. *)
Ltac run_step H :=
  match type of H with
  | Panic _ = Ret _ => discriminate H
  | context [if ?b then _ else _] => destruct b eqn:?
  | context [match diffState ?m with _ => _ end] => destruct (diffState m) eqn:?
  | mbind _ ?x = Ret _ => destruct x eqn:?; cbn [mbind run_bind] in H
  end.

Ltac run_cases H := cbv zeta in H; repeat run_step H.

Section ReplayFacts.
Context {Commit Tree Patch : Type}.
Variable r : Repository Commit Tree Patch.

Lemma getDiff_numbers (c : commitInfo) : numbers (getDiff r c).1.2 = numbers c.
Proof.
  unfold getDiff. destruct (negb _); [reflexivity|].
  destruct (compute_diff r c) as [calls [text|e]]; reflexivity.
Qed.

(** What [load_current_diff] does when it does not panic: the cursor is
    an index of the list, the record there keeps its numbers, and only
    the commit list and the current diff text change. *)
Lemma load_current_diff_Ret (m m' : Model) :
  load_current_diff r m = Ret m' ->
  0 <= currentCommitIndex m < len (commits m) /\
  numbers <$> commits m' = numbers <$> commits m /\
  exists cs text, m' = set_currentDiff text (set_commits cs m).
Proof.
  unfold load_current_diff. intros H.
  destruct (index (commits m) (currentCommitIndex m)) as [c|] eqn:Hidx;
    [|discriminate].
  apply index_Ret in Hidx as [Hrange Hc]. cbn [mbind run_bind] in H.
  pose proof (getDiff_numbers c) as Hn.
  destruct (getDiff r c) as [[res c'] calls]. cbn in Hn.
  split; [exact Hrange|].
  destruct res as [diff|e]; injection H as <-; cbn.
  - split; [now apply insert_numbers with c | eauto].
  - split; [now apply insert_numbers with c | eauto].
Qed.

Lemma Update_key_ingested (m m' : Model) (k : string) (cmd : Cmd) :
  Update r m (KeyMsg k) = Ret (m', cmd) -> ingested m' = ingested m.
Proof.
  unfold Update, Update_key_inDiffView, Update_key_normal. intros H.
  run_cases H;
    repeat match goal with
    | H : load_current_diff r _ = Ret _ |- _ =>
        apply load_current_diff_Ret in H as (_ & ? & ? & ? & ->)
    | H : index _ _ = Ret _ |- _ => clear H
    end;
    injection H as <- <-; unfold ingested; cbn in *; congruence.
Qed.

Lemma View_ingested (m m' : Model) :
  View m = Ret m' ->
  ingested m' = ingested m /\ commits m' = commits m /\
  autoProgress m' = autoProgress m /\ diffState m' = diffState m.
Proof.
  unfold View, renderDeveloperStats. intros H.
  run_cases H; injection H as <-; repeat split; cbn; try reflexivity; congruence.
Qed.

Lemma Update_layout_ingested (m m' : Model) (msg : Msg) (cmd : Cmd) :
  (forall k, msg <> KeyMsg k) -> msg <> progressTickMsg ->
  Update r m msg = Ret (m', cmd) ->
  ingested m' = ingested m /\ commits m' = commits m /\
  currentCommitIndex m' = currentCommitIndex m /\
  autoProgress m' = autoProgress m /\ diffState m' = diffState m.
Proof.
  intros Hk Ht H. destruct msg; cbn in H; try congruence;
    injection H as <- <-; repeat split; reflexivity.
Qed.

(** The tick either leaves the ingested part alone or integrates the
    oldest record waiting in the channel. *)
Lemma Update_tick_cases (m : Model) :
  (ingested (Update_tick m) = ingested m /\
   commits (Update_tick m) = commits m /\
   currentCommitIndex (Update_tick m) = currentCommitIndex m) \/
  (exists newCommit rest,
     autoProgress m = true /\
     chan_buf (processedCommitsChan m) = newCommit :: rest /\
     Update_tick m =
       integrate (set_processedCommitsChan
                    {| chan_buf := rest;
                       chan_closed := chan_closed (processedCommitsChan m) |} m)
                 newCommit).
Proof.
  unfold Update_tick. destruct (autoProgress m); [|left; auto].
  destruct (chan_buf (processedCommitsChan m)) as [|newCommit rest] eqn:Hbuf.
  - left. destruct (chan_closed (processedCommitsChan m)); auto.
  - right. eauto.
Qed.

Lemma integrated_deltas cs c : deltas (integrated cs c) = deltas c.
Proof. unfold integrated. destruct (last cs); reflexivity. Qed.

Lemma integrate_fields (m : Model) (c : commitInfo) :
  commits (integrate m c) = commits m ++ [integrated (commits m) c] /\
  maxAdditions (integrate m c) = Z.max (maxAdditions m) (Additions c) /\
  maxDeletions (integrate m c) = Z.max (maxDeletions m) (Deletions c) /\
  currentCommitIndex (integrate m c) = Int.sub (len (commits m ++ [integrated (commits m) c])) 1 /\
  processedCommitsChan (integrate m c) = processedCommitsChan m /\
  autoProgress (integrate m c) = autoProgress m /\
  diffState (integrate m c) = diffState m.
Proof.
  unfold integrate, integrated. cbv zeta.
  destruct (last (commits m)) as [lastCommit|];
    cbn [Additions Deletions set_Cumulative set_DiffLoaded];
    destruct (maxAdditions m <? Additions c) eqn:EA;
    destruct (maxDeletions m <? Deletions c) eqn:ED;
    cbn; rewrite ?EA, ?ED; cbn;
    try apply Z.ltb_lt in EA; try apply Z.ltb_ge in EA;
    try apply Z.ltb_lt in ED; try apply Z.ltb_ge in ED;
    repeat split; try reflexivity; lia.
Qed.

Lemma numbers_len (cs cs' : list commitInfo) :
  numbers <$> cs' = numbers <$> cs -> len cs' = len cs.
Proof.
  intros H. apply (f_equal length) in H. rewrite !length_fmap in H.
  unfold len. now rewrite H.
Qed.

Lemma Update_key_cursor (m m' : Model) (k : string) (cmd : Cmd) :
  len (commits m) <= Int.max_int -> cursor_ok m ->
  Update r m (KeyMsg k) = Ret (m', cmd) -> cursor_ok m'.
Proof.
  unfold cursor_ok.
  intros Hlen [Hlo Hhi] H.
  assert (Hsub : Int.sub (len (commits m)) 1 = len (commits m) - 1).
  { apply Int_sub_fits. unfold Int.fits, Int.min_int, len in *. lia. }
  unfold Update, Update_key_inDiffView, Update_key_normal in H.
  run_cases H;
    repeat match goal with
    | H : load_current_diff r _ = Ret _ |- _ =>
        apply load_current_diff_Ret in H as (? & ?%numbers_len & ? & ? & ->)
    | H : index _ _ = Ret _ |- _ => clear H
    | H : (_ <? _) = true |- _ => apply Z.ltb_lt in H
    | H : (_ <? _) = false |- _ => apply Z.ltb_ge in H
    end;
    injection H as <- <-; cbn in *; rewrite ?Hsub in *;
    try (split; [lia | lia]);
    try (rewrite Int_add_fits in * by (unfold Int.fits, Int.min_int, len in *; lia));
    try (rewrite Int_sub_fits in * by (unfold Int.fits, Int.min_int, Int.max_int, len in *; lia));
    unfold len in *; lia.
Qed.

Lemma counts_deltas (l1 l2 : list commitInfo) :
  deltas <$> l1 = deltas <$> l2 -> Forall counts l2 -> Forall counts l1.
Proof.
  intros Hd H2. apply Forall_lookup. intros i c1 H1.
  apply (f_equal (fun l => l !! i)) in Hd.
  rewrite !list_lookup_fmap, H1 in Hd.
  destruct (l2 !! i) as [c2|] eqn:E2; [|discriminate].
  cbn [fmap option_fmap option_map] in Hd. injection Hd as HF HA HD.
  pose proof (Forall_lookup_1 _ _ _ _ H2 E2) as Hc. unfold counts in *. lia.
Qed.

Lemma ingest_inv_len (records : list commitInfo) (s : System) :
  records_ok records -> ingest_inv records s ->
  len (commits (model s)) <= Int.max_int.
Proof.
  intros (_ & Hlen & _) (Hd & _).
  apply (f_equal length) in Hd. rewrite !length_fmap, !length_app in Hd.
  unfold len in *. lia.
Qed.

Lemma ingest_inv_frame (records : list commitInfo) (s s' : System) :
  ingested (model s') = ingested (model s) -> pending s' = pending s ->
  cursor_ok (model s') -> ingest_inv records s -> ingest_inv records s'.
Proof.
  unfold ingested. intros [= Hn HA HD Hch] Hp Hcur (Hd & Hsum & HmA & HmD & _).
  pose proof (fmap_numbers_deltas _ _ Hn) as Hdel.
  split; [|split; [|split; [|split]]].
  - rewrite fmap_app, Hdel, Hch, Hp, <- fmap_app. exact Hd.
  - now apply (prefix_sums_numbers (commits (model s))).
  - rewrite HA, HmA. now rewrite (fmap_deltas_Additions _ _ Hdel).
  - rewrite HD, HmD. now rewrite (fmap_deltas_Deletions _ _ Hdel).
  - exact Hcur.
Qed.

Lemma ingest_inv_start (cfg : Config) (records : list commitInfo) :
  ingest_inv records (start cfg records).
Proof.
  split; [|split; [|split; [|split]]]; cbn; try reflexivity.
  - intros i c Hc. rewrite lookup_nil in Hc. discriminate.
  - split; cbn; [lia | now right].
Qed.

Lemma ingest_inv_integrate (records : list commitInfo) (m : Model)
    (newCommit : commitInfo) (rest pend : list commitInfo) :
  records_ok records ->
  chan_buf (processedCommitsChan m) = newCommit :: rest ->
  ingest_inv records {| model := m; pending := pend |} ->
  ingest_inv records
    {| model := integrate
                  (set_processedCommitsChan
                     {| chan_buf := rest;
                        chan_closed := chan_closed (processedCommitsChan m) |} m)
                  newCommit;
       pending := pend |}.
Proof.
  intros Hok Hbuf Hinv.
  pose proof (ingest_inv_len _ _ Hok Hinv) as Hlen.
  destruct Hok as (Hcounts & HlenR & HsF & HsA & HsD).
  destruct Hinv as (Hd & Hsum & HmA & HmD & Hcur). cbn [model pending] in *.
  rewrite Hbuf in Hd.
  change ((newCommit :: rest) ++ pend) with (newCommit :: (rest ++ pend)) in Hd.
  set (m0 := set_processedCommitsChan _ m).
  destruct (integrate_fields m0 newCommit) as (Hcs & HA & HD & Hidx & Hch & _).
  assert (Hcs0 : commits m0 = commits m) by reflexivity.
  rewrite Hcs0 in *.
  (* the deltas of the whole history, split at the new record *)
  pose proof (counts_deltas _ _ Hd Hcounts) as Hall.
  apply Forall_app in Hall as [Hall1 Hall2].
  apply Forall_cons in Hall2 as [Hnew Hall2].
  pose proof (fmap_deltas_Files _ _ Hd) as HdF.
  pose proof (fmap_deltas_Additions _ _ Hd) as HdA.
  pose proof (fmap_deltas_Deletions _ _ Hd) as HdD.
  rewrite <- HdF in HsF. rewrite <- HdA in HsA. rewrite <- HdD in HsD.
  rewrite sumZ_fmap_middle in HsF, HsA, HsD.
  pose proof (sumZ_fmap_nonneg Files counts _ ltac:(unfold counts; tauto) Hall1).
  pose proof (sumZ_fmap_nonneg Additions counts _ ltac:(unfold counts; tauto) Hall1).
  pose proof (sumZ_fmap_nonneg Deletions counts _ ltac:(unfold counts; tauto) Hall1).
  pose proof (sumZ_fmap_nonneg Files counts _ ltac:(unfold counts; tauto) Hall2).
  pose proof (sumZ_fmap_nonneg Additions counts _ ltac:(unfold counts; tauto) Hall2).
  pose proof (sumZ_fmap_nonneg Deletions counts _ ltac:(unfold counts; tauto) Hall2).
  destruct Hnew as (HnF & HnA & HnD).
  split; [|split; [|split; [|split; [|split]]]]; cbn [model pending].
  - rewrite Hcs, Hch. cbn [processedCommitsChan set_processedCommitsChan chan_buf].
    rewrite <- Hd. rewrite <- !app_assoc. rewrite !fmap_app. cbn [fmap list_fmap app].
    subst m0. cbn [processedCommitsChan set_processedCommitsChan chan_buf].
    now rewrite integrated_deltas, ?fmap_app.
  - rewrite Hcs. apply prefix_sums_snoc; [exact Hsum | | |];
      unfold integrated; destruct (last (commits m)) as [lastCommit|] eqn:Hlast;
      cbn [CumulativeFiles CumulativeAdditions CumulativeDeletions
           Files Additions Deletions set_Cumulative set_DiffLoaded].
    + destruct (prefix_sums_last _ _ Hsum Hlast) as (-> & _ & _).
      apply Int_add_fits. unfold Int.fits, Int.min_int. lia.
    + apply last_None in Hlast. rewrite Hlast. cbn. lia.
    + destruct (prefix_sums_last _ _ Hsum Hlast) as (_ & -> & _).
      apply Int_add_fits. unfold Int.fits, Int.min_int. lia.
    + apply last_None in Hlast. rewrite Hlast. cbn. lia.
    + destruct (prefix_sums_last _ _ Hsum Hlast) as (_ & _ & ->).
      apply Int_add_fits. unfold Int.fits, Int.min_int. lia.
    + apply last_None in Hlast. rewrite Hlast. cbn. lia.
  - rewrite HA, Hcs, fmap_app. cbn [fmap list_fmap]. rewrite max0_app.
    change (maxAdditions m0) with (maxAdditions m). rewrite HmA.
    replace (Additions (integrated (commits m) newCommit)) with (Additions newCommit)
      by (unfold integrated; destruct (last (commits m)); reflexivity).
    pose proof (max0_nonneg (Additions <$> commits m)). lia.
  - rewrite HD, Hcs, fmap_app. cbn [fmap list_fmap]. rewrite max0_app.
    change (maxDeletions m0) with (maxDeletions m). rewrite HmD.
    replace (Deletions (integrated (commits m) newCommit)) with (Deletions newCommit)
      by (unfold integrated; destruct (last (commits m)); reflexivity).
    pose proof (max0_nonneg (Deletions <$> commits m)). lia.
  - rewrite Hidx. unfold len. rewrite length_app. cbn [length].
    rewrite Int_sub_fits; unfold Int.fits, Int.min_int, len in *; lia.
  - rewrite Hidx, Hcs. left. unfold len. rewrite length_app. cbn [length].
    rewrite Int_sub_fits; unfold Int.fits, Int.min_int, len in *; lia.
Qed.

Lemma View_cursor (m m' : Model) :
  len (commits m) <= Int.max_int -> cursor_ok m -> View m = Ret m' -> cursor_ok m'.
Proof.
  unfold cursor_ok. intros Hlen [Hlo Hhi] H.
  assert (Hsub : Int.sub (len (commits m)) 1 = len (commits m) - 1).
  { apply Int_sub_fits. unfold Int.fits, Int.min_int, len in *. lia. }
  unfold View, renderDeveloperStats in H.
  run_cases H;
    repeat match goal with
    | H : index _ _ = Ret _ |- _ => apply index_Ret in H as [? _]
    | H : (_ <=? _) = true |- _ => apply Z.leb_le in H
    | H : (_ <=? _) = false |- _ => apply Z.leb_gt in H
    | H : (_ =? _) = false |- _ => apply Z.eqb_neq in H
    end;
    injection H as <-; cbn in *; rewrite ?Hsub in *; unfold len in *; lia.
Qed.

Lemma exec_event_inv (records : list commitInfo) (s s' : System) (e : Event) :
  records_ok records -> ingest_inv records s ->
  exec_event r s e = Ret s' -> ingest_inv records s'.
Proof.
  intros Hok Hinv H.
  pose proof (ingest_inv_len _ _ Hok Hinv) as Hlen.
  destruct e as [| |msg|]; cbn [exec_event] in H.
  - (* the fetcher sends *)
    injection H as <-. unfold fetcher_send.
    destruct (pending s) as [|c rest] eqn:Hp; [exact Hinv|].
    destruct (_ && _); [|exact Hinv].
    destruct Hinv as (Hd & Hsum & HmA & HmD & Hcur).
    split; [|split; [|split; [|split]]]; cbn; try assumption.
    rewrite <- Hd, Hp. now rewrite <- !app_assoc.
  - (* the fetcher closes the channel *)
    injection H as <-. unfold fetcher_close.
    destruct (pending s) as [|c rest] eqn:Hp; [|exact Hinv].
    destruct Hinv as (Hd & Hsum & HmA & HmD & Hcur).
    split; [|split; [|split; [|split]]]; cbn; try assumption.
    now rewrite <- Hd, Hp.
  - (* a message *)
    destruct (Update r (model s) msg) as [[m' cmd]|] eqn:HU; [|discriminate].
    cbn in H. injection H as <-.
    destruct msg as [k|w h| |err|].
    + apply (ingest_inv_frame records s); [|reflexivity| |exact Hinv].
      * exact (Update_key_ingested _ _ _ _ HU).
      * apply (Update_key_cursor _ _ _ _ Hlen (proj2 (proj2 (proj2 (proj2 Hinv)))) HU).
    + apply (Update_layout_ingested) in HU as (Hi & _ & Hc & _); try congruence.
      apply (ingest_inv_frame records s); [exact Hi|reflexivity| |exact Hinv].
      destruct Hinv as (Hd & _ & _ & _ & Hcur). unfold cursor_ok in *. cbn.
      unfold ingested in Hi. injection Hi as Hn _ _ _. apply numbers_len in Hn.
      rewrite Hc, Hn. exact Hcur.
    + cbn in HU. injection HU as <- <-.
      destruct (Update_tick_cases (model s))
        as [(Hi & Hcs & Hc) | (newCommit & rest & _ & Hbuf & ->)].
      * apply (ingest_inv_frame records s); [exact Hi|reflexivity| |exact Hinv].
        destruct Hinv as (_ & _ & _ & _ & Hcur). unfold cursor_ok in *. cbn.
        rewrite Hc, Hcs. exact Hcur.
      * apply ingest_inv_integrate; [exact Hok|exact Hbuf|]. now destruct s.
    + apply (Update_layout_ingested) in HU as (Hi & _ & Hc & _); try congruence.
      apply (ingest_inv_frame records s); [exact Hi|reflexivity| |exact Hinv].
      destruct Hinv as (Hd & _ & _ & _ & Hcur). unfold cursor_ok in *. cbn.
      unfold ingested in Hi. injection Hi as Hn _ _ _. apply numbers_len in Hn.
      rewrite Hc, Hn. exact Hcur.
    + apply (Update_layout_ingested) in HU as (Hi & _ & Hc & _); try congruence.
      apply (ingest_inv_frame records s); [exact Hi|reflexivity| |exact Hinv].
      destruct Hinv as (Hd & _ & _ & _ & Hcur). unfold cursor_ok in *. cbn.
      unfold ingested in Hi. injection Hi as Hn _ _ _. apply numbers_len in Hn.
      rewrite Hc, Hn. exact Hcur.
  - (* a frame is rendered *)
    destruct (View (model s)) as [m'|] eqn:HV; [|discriminate].
    cbn in H. injection H as <-.
    apply (ingest_inv_frame records s); [|reflexivity| |exact Hinv].
    + exact (proj1 (View_ingested _ _ HV)).
    + apply (View_cursor _ _ Hlen (proj2 (proj2 (proj2 (proj2 Hinv)))) HV).
Qed.

Lemma exec_inv (records : list commitInfo) (events : list Event) (s s' : System) :
  records_ok records -> ingest_inv records s ->
  exec r s events = Ret s' -> ingest_inv records s'.
Proof.
  intros Hok. revert s. induction events as [|e events IH]; intros s Hinv H.
  - cbn in H. now injection H as <-.
  - cbn [exec] in H. destruct (exec_event r s e) as [s1|] eqn:He; [|discriminate].
    cbn in H. apply (IH s1); [|exact H]. exact (exec_event_inv _ _ _ _ Hok Hinv He).
Qed.

Lemma reachable_inv (cfg : Config) (records : list commitInfo) (s : System) :
  records_ok records -> reachable r cfg records s -> ingest_inv records s.
Proof.
  intros Hok [events H]. apply (exec_inv records events _ _ Hok (ingest_inv_start cfg records) H).
Qed.

(** An event either leaves the commit list and the running maxima as
    they are, or integrates the oldest record of the channel: the
    record is appended and each maximum is raised to its value if that
    is larger. *)
Lemma exec_event_maxima (s s' : System) (e : Event) :
  exec_event r s e = Ret s' ->
  (numbers <$> commits (model s') = numbers <$> commits (model s) /\
   maxAdditions (model s') = maxAdditions (model s) /\
   maxDeletions (model s') = maxDeletions (model s)) \/
  (exists c rest,
     e = Deliver progressTickMsg /\
     chan_buf (processedCommitsChan (model s)) = c :: rest /\
     chan_buf (processedCommitsChan (model s')) = rest /\
     commits (model s') = commits (model s) ++ [integrated (commits (model s)) c] /\
     maxAdditions (model s') = Z.max (maxAdditions (model s)) (Additions c) /\
     maxDeletions (model s') = Z.max (maxDeletions (model s)) (Deletions c)).
Proof.
  intros H. destruct e as [| |msg|]; cbn [exec_event] in H.
  - left. injection H as <-. unfold fetcher_send.
    destruct (pending s); [auto|]. destruct (_ && _); auto.
  - left. injection H as <-. unfold fetcher_close. destruct (pending s); auto.
  - destruct (Update r (model s) msg) as [[m' cmd]|] eqn:HU; [|discriminate].
    cbn in H. injection H as <-. cbn [model].
    destruct msg as [k|w h| |err|].
    + left. apply Update_key_ingested in HU. unfold ingested in HU.
      injection HU as -> -> -> _. auto.
    + left. cbn in HU. injection HU as <- <-. auto.
    + cbn in HU. injection HU as <- <-.
      destruct (Update_tick_cases (model s))
        as [(Hi & _) | (newCommit & rest & _ & Hbuf & ->)].
      * left. unfold ingested in Hi. injection Hi as -> -> -> _. auto.
      * right. exists newCommit, rest.
        destruct (integrate_fields
                    (set_processedCommitsChan
                       {| chan_buf := rest;
                          chan_closed := chan_closed (processedCommitsChan (model s)) |}
                       (model s)) newCommit) as (Hcs & HA & HD & _ & Hch & _).
        rewrite Hcs, HA, HD, Hch. cbn. auto 10.
    + left. cbn in HU. injection HU as <- <-. auto.
    + left. cbn in HU. injection HU as <- <-. auto.
  - left. destruct (View (model s)) as [m'|] eqn:HV; [|discriminate].
    cbn in H. injection H as <-. cbn [model].
    apply View_ingested in HV as (Hi & _). unfold ingested in Hi.
    injection Hi as -> -> -> _. auto.
Qed.

Lemma prefix_sums_first (cs : list commitInfo) (c : commitInfo) :
  prefix_sums_hold cs -> cs !! 0%nat = Some c ->
  CumulativeFiles c = Files c /\
  CumulativeAdditions c = Additions c /\
  CumulativeDeletions c = Deletions c.
Proof.
  intros Hcs Hc. destruct (Hcs _ _ Hc) as (-> & -> & ->).
  destruct cs as [|c0 cs]; [discriminate|]. injection Hc as ->.
  unfold sumZ. cbn [take fmap list_fmap foldr]. rewrite take_0. cbn. lia.
Qed.

(** The headless drain computes the same cumulative fields. *)
Lemma runNonInteractive_inv (records : list commitInfo) :
  records_ok records ->
  forall (rest acc : list commitInfo),
    deltas <$> (acc ++ rest) = deltas <$> records ->
    prefix_sums_hold acc ->
    prefix_sums_hold (foldl runNonInteractive_step acc rest) /\
    deltas <$> foldl runNonInteractive_step acc rest = deltas <$> records.
Proof.
  intros (Hcounts & HlenR & HsF & HsA & HsD).
  induction rest as [|c rest IH]; intros acc Hd Hsum.
  - cbn. rewrite app_nil_r in Hd. auto.
  - cbn [foldl].
    pose proof (counts_deltas _ _ Hd Hcounts) as Hall.
    apply Forall_app in Hall as [Hall1 Hall2].
    apply Forall_cons in Hall2 as [(HnF & HnA & HnD) Hall2].
    pose proof (fmap_deltas_Files _ _ Hd) as HdF.
    pose proof (fmap_deltas_Additions _ _ Hd) as HdA.
    pose proof (fmap_deltas_Deletions _ _ Hd) as HdD.
    rewrite <- HdF in HsF. rewrite <- HdA in HsA. rewrite <- HdD in HsD.
    rewrite sumZ_fmap_middle in HsF, HsA, HsD.
    pose proof (sumZ_fmap_nonneg Files counts _ ltac:(unfold counts; tauto) Hall1).
    pose proof (sumZ_fmap_nonneg Additions counts _ ltac:(unfold counts; tauto) Hall1).
    pose proof (sumZ_fmap_nonneg Deletions counts _ ltac:(unfold counts; tauto) Hall1).
    pose proof (sumZ_fmap_nonneg Files counts _ ltac:(unfold counts; tauto) Hall2).
    pose proof (sumZ_fmap_nonneg Additions counts _ ltac:(unfold counts; tauto) Hall2).
    pose proof (sumZ_fmap_nonneg Deletions counts _ ltac:(unfold counts; tauto) Hall2).
    apply IH.
    + unfold runNonInteractive_step. rewrite <- Hd, <- !app_assoc, !fmap_app.
      cbn [fmap list_fmap app]. destruct (last acc); reflexivity.
    + unfold runNonInteractive_step.
      apply prefix_sums_snoc; [exact Hsum | | |];
        destruct (last acc) as [lastCommit|] eqn:Hlast;
        cbn [CumulativeFiles CumulativeAdditions CumulativeDeletions
             Files Additions Deletions set_Cumulative].
      * destruct (prefix_sums_last _ _ Hsum Hlast) as (-> & _ & _).
        apply Int_add_fits. unfold Int.fits, Int.min_int. lia.
      * apply last_None in Hlast. rewrite Hlast. cbn. lia.
      * destruct (prefix_sums_last _ _ Hsum Hlast) as (_ & -> & _).
        apply Int_add_fits. unfold Int.fits, Int.min_int. lia.
      * apply last_None in Hlast. rewrite Hlast. cbn. lia.
      * destruct (prefix_sums_last _ _ Hsum Hlast) as (_ & _ & ->).
        apply Int_add_fits. unfold Int.fits, Int.min_int. lia.
      * apply last_None in Hlast. rewrite Hlast. cbn. lia.
Qed.

(** C1. In every state of the program, the records integrated so far
    carry the deltas of the first records sent by the fetcher, in
    order; the cumulative files, additions and deletions stored on the
    record at index [i] are the exact sums of the deltas of the records
    up to and including [i], those of the first record being its own
    deltas; and the cumulative fields never decrease along the list.
    The list built by the headless drain has the same properties. It is
    assumed of the records sent that their deltas are counts and that
    the totals over the whole history fit in an [int]. *)
Theorem cumulative_fields_are_prefix_sums
    (cfg : Config) (records : list commitInfo) (s : System) :
  records_ok records ->
  reachable r cfg records s ->
  (deltas <$> commits (model s)) `prefix_of` (deltas <$> records) /\
  prefix_sums_hold (commits (model s)) /\
  (forall c, commits (model s) !! 0%nat = Some c ->
     CumulativeFiles c = Files c /\
     CumulativeAdditions c = Additions c /\
     CumulativeDeletions c = Deletions c) /\
  cumulative_monotone (commits (model s)) /\
  deltas <$> runNonInteractive_allCommits records = deltas <$> records /\
  prefix_sums_hold (runNonInteractive_allCommits records) /\
  cumulative_monotone (runNonInteractive_allCommits records).
Proof.
  intros Hok Hreach.
  destruct (reachable_inv cfg records s Hok Hreach) as (Hd & Hsum & _).
  destruct (runNonInteractive_inv records Hok records [] eq_refl) as (HsumN & HdN).
  { intros i c Hc. rewrite lookup_nil in Hc. discriminate. }
  pose proof Hok as (Hcounts & _).
  split; [|split; [|split; [|split; [|split; [|split]]]]].
  - rewrite <- Hd, fmap_app. now eexists.
  - exact Hsum.
  - intros c Hc. now apply (prefix_sums_first (commits (model s))).
  - apply prefix_sums_monotone; [|exact Hsum].
    pose proof (counts_deltas _ _ Hd Hcounts) as Hall.
    now apply Forall_app in Hall as [Hall _].
  - exact HdN.
  - exact HsumN.
  - apply prefix_sums_monotone; [|exact HsumN].
    now apply (counts_deltas _ _ HdN).
Qed.

(** C2. In every state of the program, whatever the cursor, the running
    maxima bound the additions and the deletions of every integrated
    record and, once a record is integrated, each is the value of some
    integrated record; when every record sent has been integrated they
    are the maxima over the whole history. An event never lowers them:
    it either leaves them and the commit list as they are, or it is a
    tick that integrates exactly one record and raises each maximum to
    that record's value when it is larger. *)
Theorem running_maxima_are_true_maxima
    (cfg : Config) (records : list commitInfo) (s : System) :
  records_ok records ->
  reachable r cfg records s ->
  (forall c, c ∈ commits (model s) ->
     Additions c <= maxAdditions (model s) /\ Deletions c <= maxDeletions (model s)) /\
  (commits (model s) <> [] ->
     (exists c, c ∈ commits (model s) /\ Additions c = maxAdditions (model s)) /\
     (exists c, c ∈ commits (model s) /\ Deletions c = maxDeletions (model s))) /\
  (chan_buf (processedCommitsChan (model s)) = [] -> pending s = [] ->
     maxAdditions (model s) = max0 (Additions <$> records) /\
     maxDeletions (model s) = max0 (Deletions <$> records)) /\
  (forall e s', exec_event r s e = Ret s' ->
     maxAdditions (model s) <= maxAdditions (model s') /\
     maxDeletions (model s) <= maxDeletions (model s') /\
     ((length (commits (model s')) = length (commits (model s)) /\
       maxAdditions (model s') = maxAdditions (model s) /\
       maxDeletions (model s') = maxDeletions (model s)) \/
      (exists c, commits (model s') = commits (model s) ++ [c] /\
         maxAdditions (model s') = Z.max (maxAdditions (model s)) (Additions c) /\
         maxDeletions (model s') = Z.max (maxDeletions (model s)) (Deletions c)))).
Proof.
  intros Hok Hreach.
  destruct (reachable_inv cfg records s Hok Hreach) as (Hd & _ & HmA & HmD & _).
  pose proof Hok as (Hcounts & _).
  pose proof (counts_deltas _ _ Hd Hcounts) as Hall.
  apply Forall_app in Hall as [Hall _].
  split; [|split; [|split]].
  - intros c Hc. rewrite HmA, HmD. split; apply max0_upper.
    + now apply (list_elem_of_fmap_2 Additions).
    + now apply (list_elem_of_fmap_2 Deletions).
  - intros Hne. rewrite HmA, HmD. split.
    + assert (Hin : max0 (Additions <$> commits (model s)) ∈ Additions <$> commits (model s)).
      { apply max0_attained.
        - intros Hnil. apply fmap_nil_inv in Hnil. contradiction.
        - apply Forall_fmap. eapply Forall_impl; [exact Hall|]. unfold counts. cbn. tauto. }
      apply list_elem_of_fmap in Hin as (c & Heq & Hc). eauto.
    + assert (Hin : max0 (Deletions <$> commits (model s)) ∈ Deletions <$> commits (model s)).
      { apply max0_attained.
        - intros Hnil. apply fmap_nil_inv in Hnil. contradiction.
        - apply Forall_fmap. eapply Forall_impl; [exact Hall|]. unfold counts. cbn. tauto. }
      apply list_elem_of_fmap in Hin as (c & Heq & Hc). eauto.
  - intros Hbuf Hp. rewrite Hbuf, Hp, !app_nil_r in Hd.
    now rewrite HmA, HmD, (fmap_deltas_Additions _ _ Hd), (fmap_deltas_Deletions _ _ Hd).
  - intros e s' He.
    destruct (exec_event_maxima s s' e He)
      as [(Hn & -> & ->) | (c & rest & _ & _ & _ & Hcs & -> & ->)].
    + split; [lia|]. split; [lia|]. left. split; [|auto].
      apply (f_equal length) in Hn. now rewrite !length_fmap in Hn.
    + split; [lia|]. split; [lia|]. right.
      exists (integrated (commits (model s)) c). split; [exact Hcs|].
      replace (Additions (integrated (commits (model s)) c)) with (Additions c)
        by (unfold integrated; destruct (last _); reflexivity).
      replace (Deletions (integrated (commits (model s)) c)) with (Deletions c)
        by (unfold integrated; destruct (last _); reflexivity).
      auto.
Qed.

End ReplayFacts.

(** *** The replay of the small repository *)

Lemma Demo_records_ok : records_ok Demo.records.
Proof.
  unfold records_ok. split.
  - vm_compute. repeat constructor; intro; discriminate.
  - vm_compute. repeat split; intro; discriminate.
Defined.

Lemma Demo_replayed_reachable :
  reachable Demo.repo (Demo.cfg true) Demo.records Demo.replayed.
Proof. exists Demo.replay_events. vm_compute. reflexivity. Defined.

(** The scenario of the specification: the cumulative additions and
    deletions are (0, 0), (10, 2) and (10, 7), and the running maxima
    are 10 and 5. *)
Example Demo_replayed_series :
  (fun c => (CumulativeAdditions c, CumulativeDeletions c))
    <$> commits (model Demo.replayed) = [(0, 0); (10, 2); (10, 7)] /\
  maxAdditions (model Demo.replayed) = 10 /\
  maxDeletions (model Demo.replayed) = 5 /\
  loadingComplete (model Demo.replayed) = true.
Proof. vm_compute. auto. Qed.

Lemma cumulative_fields_are_prefix_sums_witness :
  prefix_sums_hold (commits (model Demo.replayed)) /\
  cumulative_monotone (commits (model Demo.replayed)) /\
  prefix_sums_hold (runNonInteractive_allCommits Demo.records).
Proof.
  pose proof (cumulative_fields_are_prefix_sums Demo.repo (Demo.cfg true)
                Demo.records Demo.replayed Demo_records_ok Demo_replayed_reachable)
    as (_ & H1 & _ & H2 & _ & H3 & _).
  exact (conj H1 (conj H2 H3)).
Defined.

Lemma running_maxima_are_true_maxima_witness :
  maxAdditions (model Demo.replayed) = max0 (Additions <$> Demo.records) /\
  maxDeletions (model Demo.replayed) = max0 (Deletions <$> Demo.records).
Proof.
  pose proof (running_maxima_are_true_maxima Demo.repo (Demo.cfg true)
                Demo.records Demo.replayed Demo_records_ok Demo_replayed_reachable)
    as (_ & _ & H & _).
  apply H; reflexivity.
Defined.

(** ** The diff view as a nested mode *)

Section DiffViewFacts.
Context {Commit Tree Patch : Type}.
Variable r : Repository Commit Tree Patch.

Lemma enter_diff_view (s0 s1 : System) :
  diffState (model s0) = notInDiffView ->
  exec_event r s0 (Deliver (KeyMsg "enter")) = Ret s1 ->
  diffState (model s1) = inDiffView ->
  autoProgress (model s0) = false /\
  autoProgress (model s1) = false /\
  currentCommitIndex (model s1) = currentCommitIndex (model s0).
Proof.
  intros Hnormal H Hdiff. cbn [exec_event] in H.
  destruct (Update r (model s0) (KeyMsg "enter")) as [[m' cmd]|] eqn:HU; [|discriminate].
  cbn in H. injection H as <-. cbn [model] in *.
  unfold Update in HU. rewrite Hnormal in HU.
  unfold Update_key_normal in HU. cbn [key_in existsb String.eqb Ascii.eqb Bool.eqb orb] in HU.
  destruct (autoProgress (model s0)) eqn:Hauto; cbn [negb] in HU.
  - injection HU as <- <-. congruence.
  - cbv zeta in HU.
    destruct (load_current_diff r _) as [m1|] eqn:Hload; [|discriminate].
    cbn in HU. injection HU as <- <-.
    apply load_current_diff_Ret in Hload as (_ & _ & cs & text & ->).
    cbn. rewrite Hauto. auto.
Qed.

Lemma diff_view_step (s s' : System) (e : Event) :
  diffState (model s) = inDiffView ->
  autoProgress (model s) = false ->
  keeps_diff_view e ->
  exec_event r s e = Ret s' ->
  diffState (model s') = inDiffView /\
  autoProgress (model s') = false /\
  (no_navigation e -> currentCommitIndex (model s') = currentCommitIndex (model s)).
Proof.
  intros Hdiff Hauto Hkeep H.
  destruct e as [| |msg|]; cbn [exec_event] in H.
  - injection H as <-. unfold fetcher_send.
    destruct (pending s); [auto|]. destruct (_ && _); auto.
  - injection H as <-. unfold fetcher_close. destruct (pending s); auto.
  - destruct (Update r (model s) msg) as [[m' cmd]|] eqn:HU; [|discriminate].
    cbn in H. injection H as <-. cbn [model].
    destruct msg as [k|w h| |err|].
    + change (leave_key k = false) in Hkeep. unfold leave_key in Hkeep.
      unfold Update in HU. rewrite Hdiff in HU.
      unfold Update_key_inDiffView in HU. rewrite Hkeep in HU.
      unfold no_navigation, nav_key. cbn [key_in existsb].
      run_cases HU;
        repeat match goal with
        | H : load_current_diff r _ = Ret _ |- _ =>
            apply load_current_diff_Ret in H as (_ & _ & ? & ? & ->)
        end;
        injection HU as <- <-; cbn;
        repeat split; try assumption; try reflexivity;
        cbn [key_in existsb] in *; intros Hnav;
        try congruence;
        exfalso;
        destruct (String.eqb k "left"), (String.eqb k "h"),
          (String.eqb k "right"), (String.eqb k "l");
        cbn in *; congruence.
    + cbn in HU. injection HU as <- <-. auto.
    + cbn in HU. injection HU as <- <-. unfold Update_tick. rewrite Hauto. auto.
    + cbn in HU. injection HU as <- <-. auto.
    + cbn in HU. injection HU as <- <-. auto.
  - destruct (View (model s)) as [m'|] eqn:HV; [|discriminate].
    cbn in H. injection H as <-. cbn [model].
    unfold View in HV. rewrite Hdiff in HV.
    destruct (renderDiffView (model s)); [|discriminate].
    cbn in HV. injection HV as <-. auto.
Qed.

Lemma diff_view_steps (events : list Event) (s s' : System) :
  diffState (model s) = inDiffView ->
  autoProgress (model s) = false ->
  Forall keeps_diff_view events ->
  exec r s events = Ret s' ->
  diffState (model s') = inDiffView /\
  autoProgress (model s') = false /\
  (Forall no_navigation events ->
   currentCommitIndex (model s') = currentCommitIndex (model s)).
Proof.
  revert s. induction events as [|e events IH]; intros s Hdiff Hauto Hkeep H.
  - cbn in H. injection H as <-. auto.
  - cbn [exec] in H. destruct (exec_event r s e) as [s1|] eqn:He; [|discriminate].
    cbn in H. apply Forall_cons in Hkeep as [Hk Hkeep].
    destruct (diff_view_step _ _ _ Hdiff Hauto Hk He) as (Hd1 & Ha1 & Hc1).
    destruct (IH s1 Hd1 Ha1 Hkeep H) as (Hd2 & Ha2 & Hc2).
    split; [exact Hd2|]. split; [exact Ha2|].
    intros Hnav. apply Forall_cons in Hnav as [Hn Hnav].
    rewrite (Hc2 Hnav). now apply Hc1.
Qed.

Lemma leave_diff_view (s2 s3 : System) (k : string) :
  diffState (model s2) = inDiffView ->
  leave_key k = true ->
  exec_event r s2 (Deliver (KeyMsg k)) = Ret s3 ->
  s3 = {| model := set_diffState notInDiffView (model s2); pending := pending s2 |}.
Proof.
  intros Hdiff Hleave H. cbn [exec_event] in H. unfold Update in H.
  rewrite Hdiff in H. unfold Update_key_inDiffView in H.
  unfold leave_key in Hleave. rewrite Hleave in H. cbn in H. now injection H as <-.
Qed.

(** C5, as the code has it. Leaving the diff view changes nothing but
    the mode: the program is back in the normal mode, paused, with the
    cursor and the auto-advance flag it had just before the closing key.
    The auto-advance flag is off, as it was when the diff view was
    opened. The cursor is the one of the moment the diff view was opened
    provided no left or right key was handled while it was open. *)
Theorem leaving_diff_view_restores_paused_mode
    (s0 s3 : System) (inside : list Event) (k : string) :
  diff_view_visit r s0 inside k s3 ->
  diffState (model s3) = notInDiffView /\
  autoProgress (model s3) = false /\
  autoProgress (model s3) = autoProgress (model s0) /\
  (exists s2, exec r s0 (Deliver (KeyMsg "enter") :: inside) = Ret s2 /\
     s3 = {| model := set_diffState notInDiffView (model s2); pending := pending s2 |}) /\
  (Forall no_navigation inside ->
   currentCommitIndex (model s3) = currentCommitIndex (model s0)).
Proof.
  intros (Hnormal & s1 & s2 & Henter & Hdiff1 & Hkeep & Hexec & Hleave & Hexit).
  destruct (enter_diff_view _ _ Hnormal Henter Hdiff1) as (Ha0 & Ha1 & Hc1).
  destruct (diff_view_steps _ _ _ Hdiff1 Ha1 Hkeep Hexec) as (Hd2 & Ha2 & Hc2).
  pose proof (leave_diff_view _ _ _ Hd2 Hleave Hexit) as ->. cbn.
  split; [reflexivity|]. split; [exact Ha2|]. split; [congruence|]. split.
  - exists s2. split; [|reflexivity].
    change (exec_event r s0 (Deliver (KeyMsg "enter")) ≫= (fun s => exec r s inside) = Ret s2).
    rewrite Henter. exact Hexec.
  - intros Hnav. rewrite (Hc2 Hnav). exact Hc1.
Qed.

End DiffViewFacts.

(** The claim of C5 fails when the cursor is moved inside the diff view:
    the diff view is opened on the third commit, the left key selects
    the second one, and after Escape the cursor is 1, not 2. *)
Lemma leaving_diff_view_after_navigation :
  let s3 := Demo.after Demo.opened [Deliver (KeyMsg "left"); Deliver (KeyMsg "esc")] in
  diff_view_visit Demo.repo Demo.paused [Deliver (KeyMsg "left")] "esc" s3 /\
  currentCommitIndex (model Demo.paused) = 2 /\
  currentCommitIndex (model s3) = 1 /\
  ~ (currentCommitIndex (model s3) = currentCommitIndex (model Demo.paused)).
Proof.
  split.
  - split; [reflexivity|].
    exists Demo.opened, (Demo.after Demo.opened [Deliver (KeyMsg "left")]).
    split; [vm_compute; reflexivity|]. split; [reflexivity|].
    split; [repeat constructor|]. split; [vm_compute; reflexivity|].
    split; vm_compute; reflexivity.
  - vm_compute. repeat split; discriminate.
Qed.

Lemma leaving_diff_view_restores_paused_mode_witness :
  let inside :=
    [Deliver (KeyMsg "down"); Deliver (KeyMsg "pgdown"); Render; Deliver progressTickMsg] in
  let s3 := Demo.after Demo.opened (inside ++ [Deliver (KeyMsg "q")]) in
  diff_view_visit Demo.repo Demo.paused inside "q" s3 /\
  diffState (model s3) = notInDiffView /\
  autoProgress (model s3) = false /\
  currentCommitIndex (model s3) = currentCommitIndex (model Demo.paused).
Proof.
  intros inside s3. refine ((fun Hvisit => conj Hvisit _) _).
  - pose proof (leaving_diff_view_restores_paused_mode Demo.repo _ _ _ _ Hvisit)
      as (H1 & H2 & _ & _ & H3).
    split; [exact H1|]. split; [exact H2|]. apply H3. repeat constructor.
  - split; [reflexivity|].
    exists Demo.opened, (Demo.after Demo.opened inside).
    split; [vm_compute; reflexivity|]. split; [reflexivity|].
    split; [repeat constructor|]. split; [vm_compute; reflexivity|].
    split; vm_compute; reflexivity.
Defined.

(** ** Scrolling the diff view *)

Section ScrollFacts.
Context {Commit Tree Patch : Type}.
Variable r : Repository Commit Tree Patch.

Lemma key_in_elem (k : string) (keys : list string) :
  key_in k keys = true -> k ∈ keys.
Proof.
  unfold key_in. induction keys as [|k' keys IH]; cbn; [discriminate|].
  destruct (String.eqb_spec k k') as [->|_]; cbn.
  - intros _. left.
  - intros H. right. now apply IH.
Qed.

Lemma scroll_step (m : Model) (k : string) :
  diffState m = inDiffView ->
  0 <= diffScroll m -> 0 <= height m ->
  diffScroll m + Z.max 1 (height m) <= Int.max_int ->
  scroll_key k = true ->
  exists m', Update r m (KeyMsg k) = Ret (m', CmdNil) /\
    diffState m' = inDiffView /\ currentDiff m' = currentDiff m /\
    height m' = height m /\
    0 <= diffScroll m' <= diffScroll m + Z.max 1 (height m).
Proof.
  intros Hdiff Hs Hh Hmax Hk.
  assert (Hsub1 : Int.sub (diffScroll m) 1 = diffScroll m - 1)
    by (apply Int_sub_fits; unfold Int.fits, Int.min_int; lia).
  assert (Hadd1 : Int.add (diffScroll m) 1 = diffScroll m + 1)
    by (apply Int_add_fits; unfold Int.fits, Int.min_int; lia).
  assert (Hsubh : Int.sub (diffScroll m) (height m) = diffScroll m - height m)
    by (apply Int_sub_fits; unfold Int.fits, Int.min_int, Int.max_int in *; lia).
  assert (Haddh : Int.add (diffScroll m) (height m) = diffScroll m + height m)
    by (apply Int_add_fits; unfold Int.fits, Int.min_int; lia).
  unfold Update. rewrite Hdiff. unfold Update_key_inDiffView.
  apply key_in_elem in Hk.
  repeat (apply elem_of_cons in Hk as [->|Hk]);
    [..|apply elem_of_nil in Hk; contradiction];
    cbn [key_in existsb String.eqb Ascii.eqb Bool.eqb orb andb];
    cbv zeta; cbn [diffScroll set_diffScroll height];
    rewrite ?Hsub1, ?Hadd1, ?Hsubh, ?Haddh;
    try (destruct (_ <? 0) eqn:E;
         [apply Z.ltb_lt in E | apply Z.ltb_ge in E]);
    eexists; (split; [reflexivity|]); cbn; repeat split; try assumption; lia.
Qed.

Lemma scroll_steps (keys : list string) (m : Model) (pend : list commitInfo) :
  diffState m = inDiffView ->
  0 <= diffScroll m -> 0 <= height m ->
  diffScroll m + len keys * Z.max 1 (height m) <= Int.max_int ->
  Forall (fun k => scroll_key k = true) keys ->
  exists m', exec r {| model := m; pending := pend |} (key_events keys)
             = Ret {| model := m'; pending := pend |} /\
    diffState m' = inDiffView /\ currentDiff m' = currentDiff m /\
    height m' = height m /\
    0 <= diffScroll m' <= diffScroll m + len keys * Z.max 1 (height m).
Proof.
  revert m. induction keys as [|k keys IH]; intros m Hdiff Hs Hh Hmax Hkeys.
  - exists m. change (len (@nil string)) with 0.
    split; [reflexivity|]. repeat split; try reflexivity; try assumption; lia.
  - apply Forall_cons in Hkeys as [Hk Hkeys].
    assert (Hlen : len (k :: keys) = len keys + 1) by (unfold len; cbn [length]; lia).
    rewrite Hlen in *.
    assert (0 <= len keys) by (unfold len; lia).
    destruct (scroll_step m k Hdiff Hs Hh ltac:(nia) Hk) as (m1 & HU & Hd1 & Hc1 & Hh1 & Hs1).
    destruct (IH m1 Hd1 ltac:(lia) ltac:(lia) ltac:(rewrite Hh1; nia) Hkeys)
      as (m' & He & Hd' & Hc' & Hh' & Hs').
    exists m'. split.
    + cbn [key_events fmap list_fmap exec exec_event]. cbn [model pending].
      rewrite HU. cbn [mbind run_bind]. exact He.
    + rewrite Hh1 in Hs'. repeat split; try congruence; nia.
Qed.

Lemma diff_window_clamped (m : Model) :
  0 <= diffScroll m -> 0 <= height m ->
  diffScroll m + height m <= Int.max_int ->
  0 <= (diff_window m).1 <= (diff_window m).2 /\
  (diff_window m).2 <= line_count m /\
  (diff_window m).1 <= diffScroll m /\
  renderDiffView m
  = Ret (take (Z.to_nat ((diff_window m).2 - (diff_window m).1))
           (drop (Z.to_nat (diff_window m).1) (split_lines (currentDiff m)))).
Proof.
  intros Hs Hh Hmax. unfold renderDiffView, line_count.
  assert (Hwin : 0 <= (diff_window m).1 <= (diff_window m).2 /\
                 (diff_window m).2 <= len (split_lines (currentDiff m)) /\
                 (diff_window m).1 <= diffScroll m).
  { unfold diff_window. cbv zeta.
    rewrite Int_add_fits by (unfold Int.fits, Int.min_int; lia).
    assert (0 <= len (split_lines (currentDiff m))) by (unfold len; lia).
    destruct (diffScroll m <? 0) eqn:E1;
      [apply Z.ltb_lt in E1; lia | apply Z.ltb_ge in E1].
    destruct (len (split_lines (currentDiff m)) <? diffScroll m + height m) eqn:E2;
      [apply Z.ltb_lt in E2 | apply Z.ltb_ge in E2];
      match goal with |- context [if ?b then _ else _] => destruct b eqn:E3 end;
      [apply Z.ltb_lt in E3 | apply Z.ltb_ge in E3
      |apply Z.ltb_lt in E3 | apply Z.ltb_ge in E3];
      cbn [fst snd]; lia. }
  destruct (diff_window m) as [start end_]. cbn [fst snd] in *.
  split; [tauto|]. split; [tauto|]. split; [tauto|].
  unfold slice, len in *.
  destruct (start <? 0) eqn:E1; [apply Z.ltb_lt in E1; lia|].
  destruct (end_ <? start) eqn:E2; [apply Z.ltb_lt in E2; lia|].
  destruct (Z.of_nat (length (split_lines (currentDiff m))) <? end_) eqn:E3;
    [apply Z.ltb_lt in E3; lia|].
  reflexivity.
Qed.

(** C7, as the code has it. For every sequence of scroll keys handled
    in the diff view, the stored scroll offset never goes below 0: up
    and page-up clamp it at 0. Down and page-down add one, or one
    viewport height, without an upper bound, so the stored offset is at
    most its initial value plus what the keys add. The clamp to the
    number of lines is made when the frame is rendered: the first
    visible line is an index between 0 and the line count, and the
    rendering does not fail. (The viewport height is assumed not to be
    negative, and the offsets to fit in an [int].) *)
Theorem scroll_offset_clamped_at_zero_and_window_clamped
    (m : Model) (pend : list commitInfo) (keys : list string) :
  diffState m = inDiffView ->
  0 <= diffScroll m -> 0 <= height m ->
  diffScroll m + (len keys + 1) * Z.max 1 (height m) <= Int.max_int ->
  Forall (fun k => scroll_key k = true) keys ->
  exists m', exec r {| model := m; pending := pend |} (key_events keys)
             = Ret {| model := m'; pending := pend |} /\
    diffState m' = inDiffView /\
    line_count m' = line_count m /\
    0 <= diffScroll m' <= diffScroll m + len keys * Z.max 1 (height m) /\
    0 <= (diff_window m').1 <= line_count m' /\
    (diff_window m').1 <= (diff_window m').2 <= line_count m' /\
    exists visibleLines, renderDiffView m' = Ret visibleLines.
Proof.
  intros Hdiff Hs Hh Hmax Hkeys.
  assert (0 <= len keys) by (unfold len; lia).
  destruct (scroll_steps keys m pend Hdiff Hs Hh ltac:(nia) Hkeys)
    as (m' & He & Hd' & Hc' & Hh' & Hs').
  destruct (diff_window_clamped m' ltac:(lia) ltac:(lia) ltac:(rewrite Hh'; nia))
    as (Hw1 & Hw2 & Hw3 & Hrender).
  exists m'. split; [exact He|]. split; [exact Hd'|].
  split; [unfold line_count; now rewrite Hc'|]. split; [exact Hs'|].
  split; [lia|]. split; [lia|]. eauto.
Qed.

End ScrollFacts.

(** The claim of C7 fails on the diff view opened on the third commit of
    the small repository, whose diff text has one line: two presses of
    the down key leave the scroll offset at 2. *)
Lemma scroll_offset_exceeds_line_count :
  let s := Demo.after Demo.opened (key_events ["down"; "down"]) in
  exec Demo.repo Demo.opened (key_events ["down"; "down"]) = Ret s /\
  diffState (model Demo.opened) = inDiffView /\
  diffState (model s) = inDiffView /\
  line_count (model s) = 1 /\
  diffScroll (model s) = 2 /\
  ~ (0 <= diffScroll (model s) <= line_count (model s)).
Proof.
  vm_compute. repeat split; try reflexivity. intros [_ H]. now apply H.
Qed.

Lemma scroll_offset_clamped_at_zero_and_window_clamped_witness :
  exists m',
    exec Demo.repo Demo.opened (key_events ["down"; "down"; "pgup"; "pgdown"])
    = Ret {| model := m'; pending := [] |} /\
    diffState m' = inDiffView /\
    line_count m' = line_count (model Demo.opened) /\
    0 <= diffScroll m' <= diffScroll (model Demo.opened)
                          + 4 * Z.max 1 (height (model Demo.opened)) /\
    0 <= (diff_window m').1 <= line_count m' /\
    (diff_window m').1 <= (diff_window m').2 <= line_count m' /\
    exists visibleLines, renderDiffView m' = Ret visibleLines.
Proof.
  apply (scroll_offset_clamped_at_zero_and_window_clamped
           Demo.repo (model Demo.opened) [] ["down"; "down"; "pgup"; "pgdown"]).
  - reflexivity.
  - vm_compute. discriminate.
  - vm_compute. discriminate.
  - vm_compute. discriminate.
  - repeat constructor.
Defined.

(** ** Year-cycle navigation *)

Section YearCycleFacts.
Context {Commit Tree Patch : Type}.
Variable r : Repository Commit Tree Patch.


End YearCycleFacts.

(** C9 fails on the code. After the replay of the small repository the
    year list is all-time, 2025, 2024, 2023; the up key moves the year
    pointer from 0 to the last entry, index 3; two presses of the left
    key move the cursor back to the first commit, and the next frame
    shrinks the year list to all-time, 2023 while the pointer stays at 3.
    The up key then decrements the pointer to 2 and indexes the list of
    length 2 with it. *)
Theorem year_cycle_up_panics_on_stale_pointer :
  exec Demo.repo (start (Demo.cfg true) Demo.records)
    (Demo.replay_events ++ Demo.rewind_events) = Ret Demo.rewound /\
  diffState (model Demo.rewound) = notInDiffView /\
  availableStatYears (model Demo.replayed) = [0; 2025; 2024; 2023] /\
  availableStatYears (model Demo.rewound) = [0; 2023] /\
  currentStatYearIndex (model Demo.rewound) = 3 /\
  displayedStatsYear (model Demo.rewound) = 2023 /\
  exec_event Demo.repo Demo.rewound (Deliver (KeyMsg "up")) = Panic "index out of range".
Proof. vm_compute. repeat split; reflexivity. Qed.

(** ** Enter before the first commit *)

(** C10 fails on the code. With auto-advance off and no commit
    integrated yet, in the initial state or after the toggle key, the
    Enter key indexes the empty commit list at the cursor 0. *)
Theorem enter_before_first_commit_panics {Commit Tree Patch : Type}
    (r : Repository Commit Tree Patch)
    (limit interval : Z) (path : string) (records : list commitInfo) :
  commits (InitialModel (mkConfig limit path false interval)) = [] /\
  exec r (start (mkConfig limit path false interval) records)
    [Deliver (KeyMsg "enter")] = Panic "index out of range" /\
  exec r (start (mkConfig limit path true interval) records)
    [Deliver (KeyMsg "p"); Deliver (KeyMsg "enter")] = Panic "index out of range".
Proof. repeat split; reflexivity. Qed.

(** Once a commit is integrated the cursor is an index of the commit
    list, and Enter reads the commit list within its bounds. *)
Lemma enter_within_bounds {Commit Tree Patch : Type}
    (r : Repository Commit Tree Patch)
    (cfg : Config) (records : list commitInfo) (s : System) :
  records_ok records -> reachable r cfg records s ->
  commits (model s) <> [] ->
  exists c, index (commits (model s)) (currentCommitIndex (model s)) = Ret c.
Proof.
  intros Hok Hreach Hne.
  destruct (reachable_inv r cfg records s Hok Hreach) as (_ & _ & _ & _ & Hlo & Hhi).
  assert (0 < len (commits (model s))).
  { unfold len. destruct (commits (model s)); [congruence | cbn; lia]. }
  destruct (index_in_range (commits (model s)) (currentCommitIndex (model s)) ltac:(lia))
    as (c & Hc & _).
  eauto.
Qed.

(** ** Top contributors *)

Lemma authorChurn_snoc (cs : list commitInfo) (c : commitInfo) :
  authorChurn (cs ++ [c])
  = <[Author c := Int.add (default 0 (authorChurn cs !! Author c)) (Churn c)]>
      (authorChurn cs).
Proof. unfold authorChurn. now rewrite foldl_snoc. Qed.

Lemma filter_author_nil (cs : list commitInfo) (a : string) :
  a ∉ Author <$> cs -> filter (fun c => Author c = a) cs = [].
Proof.
  induction cs as [|c cs IH]; intros Hnin; [reflexivity|].
  cbn [fmap list_fmap] in Hnin. apply not_elem_of_cons in Hnin as [Hne Hnin].
  rewrite filter_cons_False by congruence. now apply IH.
Qed.

Lemma authorChurn_lookup (cs : list commitInfo) (a : string) :
  authorChurn cs !! a
  = if decide (a ∈ Author <$> cs) then Some (Int.wrap (total_churn cs a)) else None.
Proof.
  unfold total_churn.
  induction cs as [|c cs IH] using rev_ind.
  - cbn. rewrite decide_False by (intros H; inversion H). apply lookup_empty.
  - rewrite authorChurn_snoc, fmap_app, filter_app. cbn [fmap list_fmap].
    destruct (decide (Author c = a)) as [<-|Hne].
    + rewrite lookup_insert_eq, IH.
      destruct (decide (Author c ∈ (Author <$> cs) ++ [Author c])) as [_|Hn];
        [|exfalso; apply Hn, elem_of_app; right; left].
      rewrite filter_cons_True, filter_nil by reflexivity.
      rewrite fmap_app, sumZ_app.
      replace (sumZ (Churn <$> [c])) with (Churn c)
        by (unfold sumZ; cbn [fmap list_fmap foldr]; lia).
      f_equal.
      destruct (decide (Author c ∈ Author <$> cs)) as [Hin|Hnin];
        cbn [default from_option]; unfold id.
      * unfold Int.add. now rewrite Int_wrap_add_l.
      * rewrite (filter_author_nil cs (Author c) Hnin). reflexivity.
    + rewrite lookup_insert_ne, IH by assumption.
      rewrite filter_cons_False, filter_nil, app_nil_r by assumption.
      destruct (decide (a ∈ Author <$> cs)) as [Hin|Hnin];
        destruct (decide (a ∈ (Author <$> cs) ++ [Author c])) as [Hin'|Hnin'];
        try reflexivity; exfalso.
      * apply Hnin', elem_of_app. now left.
      * apply elem_of_app in Hin' as [Hin' | Hin']; [contradiction|].
        apply list_elem_of_singleton in Hin'. congruence.
Qed.

Lemma Sorted_weaken {A} (R R' : A -> A -> Prop) (l : list A) :
  (forall a b, R a b -> R' a b) -> Sorted R l -> Sorted R' l.
Proof.
  intros HR. induction 1 as [|x l Hl IH Hhd]; constructor; [exact IH|].
  destruct Hhd; constructor. now apply HR.
Qed.

(** Insertion sort satisfies the contract. *)
Lemma insert_left_perm {A} (less : A -> A -> bool) (x : A) (acc : list A) :
  insert_left less x acc ≡ₚ x :: acc.
Proof.
  induction acc as [|y acc IH]; cbn; [reflexivity|].
  destruct (less x y); [|reflexivity].
  rewrite IH. apply Permutation_swap.
Qed.

Lemma insert_left_sorted (x : authorStat) (acc : list authorStat) :
  StronglySorted (fun a b => by_churn a b = false) acc ->
  StronglySorted (fun a b => by_churn a b = false) (insert_left by_churn x acc).
Proof.
  unfold by_churn. induction acc as [|y acc IH]; intros Hs; cbn.
  - repeat constructor.
  - apply StronglySorted_inv in Hs as [Hacc Hy].
    destruct (churn y <? churn x) eqn:E.
    + apply Z.ltb_lt in E. constructor; [now apply IH|].
      rewrite insert_left_perm. constructor; [apply Z.ltb_ge; lia | exact Hy].
    + apply Z.ltb_ge in E. constructor; [now constructor|].
      constructor; [apply Z.ltb_ge; lia|].
      eapply Forall_impl; [exact Hy|]. cbn. intros z Hz.
      apply Z.ltb_ge in Hz. apply Z.ltb_ge. lia.
Qed.

Lemma insertion_sort_contract : sort_Slice_contract (@insertion_sort authorStat).
Proof.
  intros l. unfold insertion_sort.
  assert (H : foldl (fun acc x => insert_left by_churn x acc) [] l ≡ₚ l /\
              StronglySorted (fun a b => by_churn a b = false)
                (foldl (fun acc x => insert_left by_churn x acc) [] l)).
  { induction l as [|x l IH] using rev_ind.
    - split; [reflexivity | constructor].
    - rewrite foldl_snoc. destruct IH as [IHp IHs]. split.
      + rewrite insert_left_perm, IHp. apply Permutation_cons_append.
      + now apply insert_left_sorted. }
  destruct H as [Hp Hs]. split.
  - now rewrite reverse_Permutation.
  - apply StronglySorted_Sorted in Hs. apply Sorted_reverse in Hs. exact Hs.
Qed.

Section TopContributorsFacts.
Variable sort_Slice : (authorStat -> authorStat -> bool) -> list authorStat -> list authorStat.
Hypothesis sort_Slice_ok : sort_Slice_contract sort_Slice.

Instance churn_descending_trans : Transitive churn_descending.
Proof. unfold churn_descending. intros a b c. lia. Qed.

Lemma topContributors_sorted (order : list (string * Z)) :
  StronglySorted churn_descending (topContributors sort_Slice order).
Proof.
  unfold topContributors. destruct (sort_Slice_ok (to_authorStat <$> order)) as [_ Hs].
  apply Sorted_StronglySorted; [apply _|].
  eapply Sorted_weaken; [|exact Hs].
  unfold by_churn, churn_descending. intros a b Hab.
  apply Z.ltb_ge in Hab. exact Hab.
Qed.

(** C6, as the code has it. The entries shown under "Top 5" are at most
    five; they are the first entries of an arrangement of all the
    authors of the analysed range, each with its total churn, in
    descending order of churn, so that every author left out has at most
    the churn of every author shown; no author is shown twice. The order
    of authors with equal churn is whatever the map iteration and the
    sort make it. *)
Theorem top_contributors_ranked_by_churn
    (cs : list commitInfo) (order : list (string * Z)) :
  order ≡ₚ map_to_list (authorChurn cs) ->
  let shown := top5 sort_Slice order in
  (length shown <= 5)%nat /\
  (exists rest,
     shown ++ rest ≡ₚ to_authorStat <$> map_to_list (authorChurn cs) /\
     StronglySorted churn_descending (shown ++ rest) /\
     (rest <> [] -> length shown = 5%nat)) /\
  NoDup (name <$> shown) /\
  (forall a, a ∈ shown ->
     name a ∈ Author <$> cs /\ churn a = Int.wrap (total_churn cs (name a))).
Proof.
  intros Horder shown. subst shown. unfold top5.
  set (all := topContributors sort_Slice order).
  assert (Hperm : all ≡ₚ to_authorStat <$> map_to_list (authorChurn cs)).
  { subst all. unfold topContributors.
    destruct (sort_Slice_ok (to_authorStat <$> order)) as [Hp _].
    unfold to_authorStat in *. rewrite Hp. now rewrite Horder. }
  pose proof (topContributors_sorted order) as Hsorted. fold all in Hsorted.
  assert (Hin : forall a, a ∈ all -> authorChurn cs !! name a = Some (churn a)).
  { intros a Ha. rewrite Hperm in Ha.
    apply list_elem_of_fmap in Ha as ([n c] & -> & He).
    now apply elem_of_map_to_list in He. }
  split; [rewrite length_take; lia|]. split; [|split].
  - exists (drop 5 all). rewrite take_drop. split; [exact Hperm|]. split; [exact Hsorted|].
    intros Hrest. rewrite length_take.
    destruct (decide (length all <= 5)%nat) as [Hle|Hgt]; [|lia].
    rewrite drop_ge in Hrest by assumption. congruence.
  - apply (sublist_NoDup _ (name <$> all)).
    + rewrite Hperm, <- list_fmap_compose.
      apply (NoDup_fst_map_to_list (authorChurn cs)).
    + rewrite fmap_take. apply sublist_take.
  - intros a Ha. apply elem_of_take in Ha as (i & Hi & _).
    apply list_elem_of_lookup_2 in Hi. specialize (Hin a Hi).
    rewrite authorChurn_lookup in Hin.
    destruct (decide (name a ∈ Author <$> cs)); [|discriminate].
    split; [assumption | congruence].
Qed.

End TopContributorsFacts.

(** The claim of C6 fails on two authors with the same total churn:
    alice is seen first, but when the map is ranged over with bob first,
    the insertion sort leaves bob before alice. *)
Lemma top_contributors_ties_not_first_seen :
  let cs := [Demo.commit_by "alice" 5 0; Demo.commit_by "bob" 3 2] in
  let order := [("bob", 5); ("alice", 5)] in
  sort_Slice_contract (@insertion_sort authorStat) /\
  order ≡ₚ map_to_list (authorChurn cs) /\
  top5 (@insertion_sort authorStat) order
  = [ {| name := "bob"; churn := 5 |}; {| name := "alice"; churn := 5 |} ] /\
  ~ ties_in_first_seen_order cs (top5 (@insertion_sort authorStat) order).
Proof.
  intros cs order. split; [exact insertion_sort_contract|].
  assert (Hlist : map_to_list (authorChurn cs) = [("alice", 5); ("bob", 5)])
    by (vm_compute; reflexivity).
  split; [rewrite Hlist; apply Permutation_swap|].
  split; [vm_compute; reflexivity|].
  intros Hties.
  specialize (Hties 0%nat 1%nat {| name := "bob"; churn := 5 |}
                {| name := "alice"; churn := 5 |} ltac:(lia) eq_refl eq_refl eq_refl).
  vm_compute in Hties. lia.
Qed.

Lemma top_contributors_ranked_by_churn_witness :
  let cs := commits (model Demo.replayed) in
  let shown := top5 (@insertion_sort authorStat) (map_to_list (authorChurn cs)) in
  shown = [ {| name := "bob"; churn := 12 |}; {| name := "alice"; churn := 5 |} ] /\
  StronglySorted churn_descending shown /\
  NoDup (name <$> shown).
Proof.
  intros cs shown. split; [vm_compute; reflexivity|].
  pose proof (top_contributors_ranked_by_churn (@insertion_sort authorStat)
                insertion_sort_contract cs (map_to_list (authorChurn cs))
                (Permutation_refl _)) as (_ & (rest & _ & Hsorted & _) & Hnodup & _).
  split; [|exact Hnodup].
  now apply StronglySorted_app_1_l in Hsorted.
Defined.

(** ** The hand-off between the fetcher and the UI loop *)

Section PipelineFacts.
Context {Commit Tree Patch : Type}.
Variable r : Repository Commit Tree Patch.

Lemma getDiff_spec (c : commitInfo) :
  match getDiff r c with
  | (Ok diff, c', _) => identity c' = identity c /\ diff = DiffContent c'
  | (Err e, c', _) => c' = c /\ DiffContent c = ""
  end.
Proof.
  unfold getDiff. destruct (String.eqb_spec (DiffContent c) "") as [He|Hne]; cbn [negb].
  - destruct (compute_diff r c) as [calls [text|e]]; auto.
  - auto.
Qed.

Lemma load_current_diff_spec (m m' : Model) :
  load_current_diff r m = Ret m' ->
  exists c c' text,
    0 <= currentCommitIndex m /\
    commits m !! Z.to_nat (currentCommitIndex m) = Some c /\
    identity c' = identity c /\
    diff_of_record text c' /\
    m' = set_currentDiff text
           (set_commits (<[Z.to_nat (currentCommitIndex m) := c']> (commits m)) m).
Proof.
  unfold load_current_diff. intros H.
  destruct (index (commits m) (currentCommitIndex m)) as [c|] eqn:Hidx;
    [|discriminate].
  apply index_Ret in Hidx as [Hrange Hc]. cbn [mbind run_bind] in H.
  pose proof (getDiff_spec c) as Hspec.
  destruct (getDiff r c) as [[res c'] calls].
  destruct res as [diff|e]; injection H as <-.
  - destruct Hspec as [Hid ->]. exists c, c', (DiffContent c').
    repeat split; try assumption; try lia. now left.
  - destruct Hspec as [-> He]. exists c, c, ("Error getting diff: " ++ e)%string.
    repeat split; try assumption; try lia. right. eauto.
Qed.

Lemma insert_identity (l : list commitInfo) (i : nat) (c c' : commitInfo) :
  l !! i = Some c -> identity c' = identity c ->
  identity <$> <[i := c']> l = identity <$> l.
Proof.
  intros Hl Hn. rewrite list_fmap_insert, Hn.
  apply list_insert_id. now rewrite list_lookup_fmap, Hl.
Qed.

Lemma shows_after_load (m : Model) (c c' : commitInfo) (text : string) :
  0 <= currentCommitIndex m ->
  commits m !! Z.to_nat (currentCommitIndex m) = Some c ->
  diff_of_record text c' ->
  shows_cursor_diff
    (set_currentDiff text
       (set_commits (<[Z.to_nat (currentCommitIndex m) := c']> (commits m)) m)).
Proof.
  intros Hlo Hc Hd. exists c'. cbn. split; [exact Hlo|]. split; [|exact Hd].
  apply list_lookup_insert_eq. now apply lookup_lt_Some in Hc.
Qed.

Lemma shows_ext (m1 m2 : Model) :
  commits m2 = commits m1 -> currentCommitIndex m2 = currentCommitIndex m1 ->
  currentDiff m2 = currentDiff m1 ->
  shows_cursor_diff m1 -> shows_cursor_diff m2.
Proof.
  intros Hc Hi Hd (c & ? & ? & ?). exists c. rewrite Hc, Hi, Hd. auto.
Qed.

Lemma Update_key_pipeline (m m' : Model) (k : string) (cmd : Cmd) :
  Update r m (KeyMsg k) = Ret (m', cmd) ->
  identity <$> commits m' = identity <$> commits m /\
  processedCommitsChan m' = processedCommitsChan m /\
  loadingComplete m' = loadingComplete m /\
  ((diffState m = inDiffView -> autoProgress m = false /\ shows_cursor_diff m) ->
   diffState m' = inDiffView -> autoProgress m' = false /\ shows_cursor_diff m').
Proof.
  unfold Update, Update_key_inDiffView, Update_key_normal. intros H.
  run_cases H;
    repeat match goal with
    | H : load_current_diff r _ = Ret _ |- _ =>
        apply load_current_diff_spec in H as (? & ? & ? & ? & ? & ? & ? & ->)
    | H : index _ _ = Ret _ |- _ => clear H
    end;
    injection H as <- <-;
    (split; [cbn; first [reflexivity | eapply insert_identity; eassumption] |]);
    (split; [reflexivity|]); (split; [reflexivity|]);
    intros Hinv Hd;
    first
      [ exfalso; cbn in Hd; congruence
      | split;
        [ cbn; first [reflexivity | destruct (autoProgress m); [discriminate | reflexivity]]
        | eapply shows_ext; [..| eapply shows_after_load; eassumption]; reflexivity ]
      | destruct (Hinv ltac:(first [reflexivity | assumption])) as [Ha Hs];
        split; [cbn; first [reflexivity | assumption]
               | eapply shows_ext; [..| exact Hs]; reflexivity] ].
Qed.

Lemma integrate_loadingComplete (m : Model) (c : commitInfo) :
  loadingComplete (integrate m c) = loadingComplete m.
Proof.
  unfold integrate. cbv zeta.
  destruct (last (commits m)); destruct (maxAdditions m <? _) eqn:EA;
    cbn; rewrite ?EA; cbn;
    match goal with |- context [if ?b then _ else _] => destruct b end; reflexivity.
Qed.

Lemma integrated_identity (cs : list commitInfo) (c : commitInfo) :
  identity (integrated cs c) = identity c.
Proof. unfold integrated. destruct (last cs); reflexivity. Qed.

Lemma pipeline_inv_start (cfg : Config) (records : list commitInfo) :
  pipeline_inv records (start cfg records).
Proof.
  unfold pipeline_inv, chan_capacity. cbn.
  split; [reflexivity|]. split; [unfold len; cbn; lia|].
  repeat split; discriminate.
Qed.

Lemma exec_event_pipeline (records : list commitInfo) (s s' : System) (e : Event) :
  pipeline_inv records s -> exec_event r s e = Ret s' -> pipeline_inv records s'.
Proof.
  intros Hinv H. pose proof Hinv as (Hid & Hcap & Hclosed & Hload & Hdiff).
  destruct e as [| |msg|]; cbn [exec_event] in H.
  - (* the fetcher sends *)
    injection H as <-. unfold fetcher_send.
    destruct (pending s) as [|c rest] eqn:Hp; [exact Hinv|].
    destruct (len _ <? chan_capacity) eqn:Hroom; cbn [andb];
      [|exact Hinv].
    destruct (chan_closed (processedCommitsChan (model s))) eqn:Hcl; cbn [negb];
      [exact Hinv|].
    apply Z.ltb_lt in Hroom.
    split; [|split; [|split; [|split]]]; cbn.
    + rewrite <- Hid. now rewrite <- !app_assoc.
    + unfold len in *. rewrite length_app. cbn. lia.
    + discriminate.
    + intros Hl. destruct (Hload Hl) as [? _]. congruence.
    + exact Hdiff.
  - (* the fetcher closes the channel *)
    injection H as <-. unfold fetcher_close.
    destruct (pending s) as [|c rest] eqn:Hp; [|exact Hinv].
    split; [|split; [|split; [|split]]]; cbn.
    + now rewrite <- Hid.
    + exact Hcap.
    + reflexivity.
    + intros Hl. destruct (Hload Hl) as [_ ?]. auto.
    + exact Hdiff.
  - (* a message *)
    destruct (Update r (model s) msg) as [[m' cmd]|] eqn:HU; [|discriminate].
    cbn in H. injection H as <-.
    destruct msg as [k|w h| |err|].
    + apply Update_key_pipeline in HU as (Hi & Hch & Hlc & Hd).
      split; [|split; [|split; [|split]]]; cbn [model pending].
      * rewrite fmap_app, Hi, Hch, <- fmap_app. exact Hid.
      * now rewrite Hch.
      * now rewrite Hch.
      * now rewrite Hch, Hlc.
      * now apply Hd.
    + cbn in HU. injection HU as <- <-. exact Hinv.
    + cbn in HU. injection HU as <- <-. cbn [model pending].
      unfold Update_tick.
      destruct (autoProgress (model s)) eqn:Hauto; [|exact Hinv].
      destruct (chan_buf (processedCommitsChan (model s))) as [|c rest] eqn:Hbuf.
      * destruct (chan_closed (processedCommitsChan (model s))) eqn:Hcl;
          [|exact Hinv].
        split; [|split; [|split; [|split]]]; cbn.
        -- now rewrite Hbuf.
        -- now rewrite Hbuf.
        -- rewrite Hcl. exact Hclosed.
        -- now rewrite Hbuf, Hcl.
        -- intros Hd. destruct (Hdiff Hd) as [? _]. discriminate.
      * match goal with |- pipeline_inv _ {| model := integrate ?m0 c; pending := _ |} =>
          set (m0' := m0);
          destruct (integrate_fields m0' c) as (Hcs & _ & _ & _ & Hch & Ha & Hds);
          pose proof (integrate_loadingComplete m0' c) as Hlc
        end.
        split; [|split; [|split; [|split]]]; cbn [model pending].
        -- rewrite Hcs, Hch. subst m0'. cbn.
           rewrite <- Hid. rewrite <- !app_assoc, !fmap_app. cbn [fmap list_fmap app].
           now rewrite integrated_identity.
        -- rewrite Hch. subst m0'. cbn. unfold len in *. cbn [length] in Hcap. lia.
        -- rewrite Hch. subst m0'. cbn. exact Hclosed.
        -- rewrite Hlc, Hch. subst m0'. cbn. intros Hl.
           destruct (Hload Hl) as [_ ?]. discriminate.
        -- rewrite Hds, Ha. subst m0'. cbn. intros Hd.
           destruct (Hdiff Hd) as [? _]. congruence.
    + cbn in HU. injection HU as <- <-. exact Hinv.
    + cbn in HU. injection HU as <- <-. exact Hinv.
  - (* a frame is rendered *)
    destruct (View (model s)) as [m'|] eqn:HV; [|discriminate].
    cbn in H. injection H as <-. cbn [model pending].
    unfold View, renderDeveloperStats in HV.
    run_cases HV; injection HV as <-; unfold pipeline_inv; cbn;
      (split; [|split; [|split; [|split]]]); try assumption;
      intros Hd; first [congruence | apply Hdiff; reflexivity].
Qed.

Lemma reachable_pipeline (cfg : Config) (records : list commitInfo) (s : System) :
  reachable r cfg records s -> pipeline_inv records s.
Proof.
  intros [events H].
  pose proof (pipeline_inv_start cfg records) as Hinv.
  revert H Hinv. generalize (start cfg records).
  induction events as [|e events IH]; intros s0 H Hinv.
  - cbn in H. now injection H as <-.
  - cbn [exec] in H. destruct (exec_event r s0 e) as [s1|] eqn:He; [|discriminate].
    cbn in H. apply (IH s1 H). exact (exec_event_pipeline _ _ _ _ Hinv He).
Qed.

End PipelineFacts.

Section PipelineTheorems.
Context {Commit Tree Patch : Type}.
Variable r : Repository Commit Tree Patch.

(** X1. Whatever the events, no record is lost, duplicated, reordered
    or altered on its way from the fetcher to the commit list: the
    records integrated, those waiting in the channel and those still to
    be sent are, in this order and with their hash, message, author,
    date and per-commit statistics, the records of the fetcher; and the
    channel never holds more than 100 records. *)
Theorem records_handed_over_in_order
    (cfg : Config) (records : list commitInfo) (s : System) :
  reachable r cfg records s ->
  identity <$> (commits (model s) ++ chan_buf (processedCommitsChan (model s)) ++ pending s)
    = identity <$> records /\
  len (chan_buf (processedCommitsChan (model s))) <= 100.
Proof.
  intros Hreach. destruct (reachable_pipeline r cfg records s Hreach) as (Hid & Hcap & _).
  split; [exact Hid | exact Hcap].
Qed.

(** X2. Loading is reported complete only after the fetcher has closed
    the channel and the channel has been drained: every record of the
    fetcher is then in the commit list, in order. *)
Theorem loading_complete_means_all_integrated
    (cfg : Config) (records : list commitInfo) (s : System) :
  reachable r cfg records s ->
  loadingComplete (model s) = true ->
  pending s = [] /\
  chan_buf (processedCommitsChan (model s)) = [] /\
  identity <$> commits (model s) = identity <$> records.
Proof.
  intros Hreach Hdone.
  destruct (reachable_pipeline r cfg records s Hreach) as (Hid & _ & Hclosed & Hload & _).
  destruct (Hload Hdone) as [Hcl Hbuf]. specialize (Hclosed Hcl).
  rewrite Hbuf, Hclosed, !app_nil_r in Hid. auto.
Qed.

(** X3. The diff view is only ever open while the replay is paused, so
    a tick that arrives while it is open integrates nothing and leaves
    the model as it is. *)
Theorem diff_view_only_while_paused
    (cfg : Config) (records : list commitInfo) (s : System) :
  reachable r cfg records s ->
  diffState (model s) = inDiffView ->
  autoProgress (model s) = false /\
  Update r (model s) progressTickMsg = Ret (model s, CmdTick).
Proof.
  intros Hreach Hd.
  destruct (reachable_pipeline r cfg records s Hreach) as (_ & _ & _ & _ & Hdiff).
  destruct (Hdiff Hd) as [Hauto _]. split; [exact Hauto|].
  cbn. unfold Update_tick. now rewrite Hauto.
Qed.

(** X4. While the diff view is open, the text on display belongs to
    the commit under the cursor: the cursor is an index of the commit
    list and the text is the diff cached on that record, or the error
    message of a fetch that cached nothing. *)
Theorem diff_view_shows_the_cursor_commit
    (cfg : Config) (records : list commitInfo) (s : System) :
  reachable r cfg records s ->
  diffState (model s) = inDiffView ->
  exists c,
    0 <= currentCommitIndex (model s) < len (commits (model s)) /\
    commits (model s) !! Z.to_nat (currentCommitIndex (model s)) = Some c /\
    (currentDiff (model s) = DiffContent c \/
     (DiffContent c = "" /\
      exists e, currentDiff (model s) = ("Error getting diff: " ++ e)%string)).
Proof.
  intros Hreach Hd.
  destruct (reachable_pipeline r cfg records s Hreach) as (_ & _ & _ & _ & Hdiff).
  destruct (Hdiff Hd) as [_ (c & Hlo & Hc & Hshow)].
  exists c. split; [|split; [exact Hc | exact Hshow]].
  apply lookup_lt_Some in Hc. unfold len. lia.
Qed.

End PipelineTheorems.

Lemma records_handed_over_in_order_witness :
  identity <$> commits (model Demo.replayed) = identity <$> Demo.records /\
  len (chan_buf (processedCommitsChan (model Demo.replayed))) <= 100.
Proof.
  pose proof (records_handed_over_in_order Demo.repo (Demo.cfg true) Demo.records
                Demo.replayed Demo_replayed_reachable) as [H1 H2].
  split; [|exact H2]. rewrite <- H1. vm_compute. reflexivity.
Defined.

Lemma loading_complete_means_all_integrated_witness :
  pending Demo.replayed = [] /\
  chan_buf (processedCommitsChan (model Demo.replayed)) = [] /\
  identity <$> commits (model Demo.replayed) = identity <$> Demo.records.
Proof.
  apply (loading_complete_means_all_integrated Demo.repo (Demo.cfg true) Demo.records
           Demo.replayed Demo_replayed_reachable).
  reflexivity.
Defined.

Lemma Demo_opened_reachable :
  reachable Demo.repo (Demo.cfg true) Demo.records Demo.opened.
Proof.
  exists (Demo.replay_events ++ [Deliver (KeyMsg "p"); Render; Deliver (KeyMsg "enter")]).
  vm_compute. reflexivity.
Defined.

Lemma diff_view_only_while_paused_witness :
  autoProgress (model Demo.opened) = false /\
  Update Demo.repo (model Demo.opened) progressTickMsg = Ret (model Demo.opened, CmdTick).
Proof.
  apply (diff_view_only_while_paused Demo.repo (Demo.cfg true) Demo.records
           Demo.opened Demo_opened_reachable).
  reflexivity.
Defined.

Lemma diff_view_shows_the_cursor_commit_witness :
  exists c,
    0 <= currentCommitIndex (model Demo.opened) < len (commits (model Demo.opened)) /\
    commits (model Demo.opened) !! Z.to_nat (currentCommitIndex (model Demo.opened)) = Some c /\
    (currentDiff (model Demo.opened) = DiffContent c \/
     (DiffContent c = "" /\
      exists e, currentDiff (model Demo.opened) = ("Error getting diff: " ++ e)%string)).
Proof.
  apply (diff_view_shows_the_cursor_commit Demo.repo (Demo.cfg true) Demo.records
           Demo.opened Demo_opened_reachable).
  reflexivity.
Defined.

Section CursorAndDrainFacts.
Context {Commit Tree Patch : Type}.
Variable r : Repository Commit Tree Patch.

Lemma pipeline_inv_len (records : list commitInfo) (s : System) :
  pipeline_inv records s ->
  len (commits (model s)) + len (chan_buf (processedCommitsChan (model s))) <= len records.
Proof.
  intros (Hid & _). apply (f_equal length) in Hid.
  rewrite !length_fmap, !length_app in Hid. unfold len. lia.
Qed.

Lemma exec_event_cursor (records : list commitInfo) (s s' : System) (e : Event) :
  len records <= Int.max_int ->
  pipeline_inv records s -> cursor_ok (model s) ->
  exec_event r s e = Ret s' -> cursor_ok (model s').
Proof.
  intros Hmax Hinv Hcur H.
  pose proof (pipeline_inv_len _ _ Hinv) as Hlen.
  assert (Hlen' : len (commits (model s)) <= Int.max_int).
  { unfold len in *. lia. }
  destruct e as [| |msg|]; cbn [exec_event] in H.
  - injection H as <-. unfold fetcher_send.
    destruct (pending s); [exact Hcur|]. destruct (_ && _); exact Hcur.
  - injection H as <-. unfold fetcher_close. destruct (pending s); exact Hcur.
  - destruct (Update r (model s) msg) as [[m' cmd]|] eqn:HU; [|discriminate].
    cbn in H. injection H as <-. cbn [model].
    destruct msg as [k|w h| |err|].
    + exact (Update_key_cursor r _ _ _ _ Hlen' Hcur HU).
    + cbn in HU. injection HU as <- <-. exact Hcur.
    + cbn in HU. injection HU as <- <-.
      destruct (Update_tick_cases (model s))
        as [(_ & Hcs & Hc) | (newCommit & rest & _ & Hbuf & ->)].
      * unfold cursor_ok. rewrite Hc, Hcs. exact Hcur.
      * rewrite Hbuf in Hlen.
        match goal with |- cursor_ok (integrate ?m0 _) =>
          destruct (integrate_fields m0 newCommit) as (Hcs & _ & _ & Hidx & _)
        end.
        unfold cursor_ok. rewrite Hidx, Hcs. cbn [commits set_processedCommitsChan].
        unfold len in *. rewrite !length_app. cbn [length] in *.
        rewrite Int_sub_fits by (unfold Int.fits, Int.min_int; lia). lia.
    + cbn in HU. injection HU as <- <-. exact Hcur.
    + cbn in HU. injection HU as <- <-. exact Hcur.
  - destruct (View (model s)) as [m'|] eqn:HV; [|discriminate].
    cbn in H. injection H as <-. cbn [model].
    exact (View_cursor _ _ Hlen' Hcur HV).
Qed.


Lemma runNonInteractive_snoc (l : list commitInfo) (x : commitInfo) :
  runNonInteractive_allCommits (l ++ [x])
  = runNonInteractive_step (runNonInteractive_allCommits l) x.
Proof. unfold runNonInteractive_allCommits. now rewrite foldl_snoc. Qed.

Lemma runNonInteractive_length (l : list commitInfo) :
  length (runNonInteractive_allCommits l) = length l.
Proof.
  induction l as [|x l IH] using rev_ind; [reflexivity|].
  rewrite runNonInteractive_snoc. unfold runNonInteractive_step.
  rewrite !length_app, IH. reflexivity.
Qed.




(** X5. The cursor never leaves the commit list: in every state it is
    0 while the list is empty and an index of the list otherwise, so
    the commit under the cursor can be read whenever there is one. (The
    number of records is assumed to fit in an [int].) *)
Theorem cursor_always_in_bounds
    (cfg : Config) (records : list commitInfo) (s : System) :
  len records <= Int.max_int ->
  reachable r cfg records s ->
  (commits (model s) = [] -> currentCommitIndex (model s) = 0) /\
  (commits (model s) <> [] ->
     0 <= currentCommitIndex (model s) < len (commits (model s)) /\
     exists c, index (commits (model s)) (currentCommitIndex (model s)) = Ret c).
Proof.
  intros Hmax [events H].
  assert (Hstart : pipeline_inv records (start cfg records) /\
                   cursor_ok (model (start cfg records))).
  { split; [apply pipeline_inv_start|]. split; cbn; [lia | now right]. }
  assert (Hcur : cursor_ok (model s)).
  { revert H Hstart. generalize (start cfg records).
    induction events as [|e events IH]; intros s0 H [Hp Hc].
    - cbn in H. now injection H as <-.
    - cbn [exec] in H. destruct (exec_event r s0 e) as [s1|] eqn:He; [|discriminate].
      cbn in H. apply (IH s1 H). split.
      + exact (exec_event_pipeline r _ _ _ _ Hp He).
      + exact (exec_event_cursor _ _ _ _ Hmax Hp Hc He). }
  destruct Hcur as [Hlo Hhi]. split.
  - intros Hnil. rewrite Hnil in Hhi. unfold len in Hhi. cbn in Hhi. lia.
  - intros Hne.
    assert (0 < len (commits (model s))).
    { unfold len. destruct (commits (model s)); [congruence | cbn; lia]. }
    assert (Hin : 0 <= currentCommitIndex (model s) < len (commits (model s))) by lia.
    split; [exact Hin|].
    destruct (index_in_range _ _ Hin) as (c & Hc & _). eauto.
Qed.


End CursorAndDrainFacts.

Lemma cursor_always_in_bounds_witness :
  0 <= currentCommitIndex (model Demo.rewound) < len (commits (model Demo.rewound)).
Proof.
  assert (Hreach : reachable Demo.repo (Demo.cfg true) Demo.records Demo.rewound).
  { exists (Demo.replay_events ++ Demo.rewind_events). vm_compute. reflexivity. }
  apply (cursor_always_in_bounds Demo.repo (Demo.cfg true) Demo.records Demo.rewound).
  - vm_compute. discriminate.
  - exact Hreach.
  - discriminate.
Defined.


(** ** Manual navigation *)

Section NavigationFacts.
Context {Commit Tree Patch : Type}.
Variable r : Repository Commit Tree Patch.

Lemma set_currentCommitIndex_same (m : Model) :
  set_currentCommitIndex (currentCommitIndex m) m = m.
Proof. now destruct m. Qed.

Lemma nav_right_step (m : Model) :
  diffState m = notInDiffView -> cursor_ok m -> len (commits m) <= Int.max_int ->
  Update r m (KeyMsg "right")
  = Ret (set_currentCommitIndex
           (Z.max (currentCommitIndex m)
                  (Z.min (currentCommitIndex m + 1) (len (commits m) - 1)))
           (set_autoProgress false m), CmdNil).
Proof.
  intros Hnormal [Hlo Hhi] Hmax.
  assert (0 <= len (commits m)) by (unfold len; lia).
  unfold Update. rewrite Hnormal. unfold Update_key_normal.
  cbn [key_in existsb String.eqb Ascii.eqb Bool.eqb orb andb]. cbv zeta.
  cbn [currentCommitIndex commits set_autoProgress].
  rewrite Int_sub_fits by (unfold Int.fits, Int.min_int; lia).
  destruct (currentCommitIndex m <? len (commits m) - 1) eqn:E;
    [apply Z.ltb_lt in E | apply Z.ltb_ge in E].
  - rewrite Int_add_fits by (unfold Int.fits, Int.min_int; lia).
    do 3 f_equal. lia.
  - replace (Z.max _ _) with (currentCommitIndex m) by lia.
    now rewrite <- (set_currentCommitIndex_same (set_autoProgress false m)) at 1.
Qed.

Lemma nav_left_step (m : Model) :
  diffState m = notInDiffView -> cursor_ok m -> len (commits m) <= Int.max_int ->
  Update r m (KeyMsg "left")
  = Ret (set_currentCommitIndex (Z.max 0 (currentCommitIndex m - 1))
           (set_autoProgress false m), CmdNil).
Proof.
  intros Hnormal [Hlo Hhi] Hmax.
  unfold Update. rewrite Hnormal. unfold Update_key_normal.
  cbn [key_in existsb String.eqb Ascii.eqb Bool.eqb orb andb]. cbv zeta.
  cbn [currentCommitIndex commits set_autoProgress].
  destruct (0 <? currentCommitIndex m) eqn:E;
    [apply Z.ltb_lt in E | apply Z.ltb_ge in E].
  - rewrite Int_sub_fits by (unfold Int.fits, Int.min_int; lia).
    do 3 f_equal. lia.
  - replace (Z.max _ _) with (currentCommitIndex m) by lia.
    now rewrite <- (set_currentCommitIndex_same (set_autoProgress false m)) at 1.
Qed.

(** X7. Manual navigation saturates at the ends of the commit list and
    always pauses the replay. Outside the diff view, [k] presses of the
    right key (at least one) move the cursor forward by [k] but not past
    the last index, [k] presses of the left key move it back by [k] but
    not below 0; at the last index right is a no-op on the cursor, and so
    is left at index 0. Auto-advance is off afterwards and nothing else
    in the model changes. *)
Theorem navigation_saturates_at_the_ends
    (m : Model) (pend : list commitInfo) (k : nat) :
  diffState m = notInDiffView -> cursor_ok m -> len (commits m) <= Int.max_int ->
  (0 < k)%nat ->
  exec r {| model := m; pending := pend |} (key_events (replicate k "right"))
  = Ret {| model :=
             set_currentCommitIndex
               (Z.max (currentCommitIndex m)
                      (Z.min (currentCommitIndex m + Z.of_nat k) (len (commits m) - 1)))
               (set_autoProgress false m);
           pending := pend |} /\
  exec r {| model := m; pending := pend |} (key_events (replicate k "left"))
  = Ret {| model :=
             set_currentCommitIndex (Z.max 0 (currentCommitIndex m - Z.of_nat k))
               (set_autoProgress false m);
           pending := pend |}.
Proof.
  intros Hnormal Hcur Hmax Hk. destruct k as [|k]; [lia|]. clear Hk.
  revert m Hnormal Hcur Hmax. induction k as [|k IH]; intros m Hnormal Hcur Hmax.
  - cbn [replicate key_events fmap list_fmap exec exec_event model pending].
    rewrite nav_right_step, nav_left_step by assumption. cbn [mbind run_bind].
    split; reflexivity.
  - pose proof Hcur as [Hlo Hhi].
    assert (0 <= len (commits m)) by (unfold len; lia).
    change (replicate (S (S k)) "right") with ("right" :: replicate (S k) "right").
    change (replicate (S (S k)) "left") with ("left" :: replicate (S k) "left").
    cbn [key_events fmap list_fmap exec exec_event model pending].
    rewrite nav_right_step, nav_left_step by assumption. cbn [mbind run_bind].
    set (mr := set_currentCommitIndex _ (set_autoProgress false m)).
    set (ml := set_currentCommitIndex (Z.max 0 _) (set_autoProgress false m)).
    assert (Hr : cursor_ok mr) by (unfold cursor_ok; subst mr; cbn; lia).
    assert (Hl : cursor_ok ml) by (unfold cursor_ok; subst ml; cbn; lia).
    destruct (IH mr Hnormal Hr Hmax) as [IHr _].
    destruct (IH ml Hnormal Hl Hmax) as [_ IHl].
    fold (key_events (replicate (S k) "right")). fold (key_events (replicate (S k) "left")).
    rewrite IHr, IHl. subst mr ml.
    cbn [currentCommitIndex commits set_currentCommitIndex set_autoProgress].
    split; do 2 f_equal; unfold set_currentCommitIndex, set_autoProgress; cbn;
      f_equal; lia.
Qed.

End NavigationFacts.

Lemma navigation_saturates_at_the_ends_witness :
  currentCommitIndex
    (model (Demo.after Demo.rewound (key_events (replicate 5 "right")))) = 2 /\
  currentCommitIndex
    (model (Demo.after Demo.replayed (key_events (replicate 5 "left")))) = 0.
Proof.
  assert (Hc : forall s, model s = model Demo.rewound \/ model s = model Demo.replayed ->
                         cursor_ok (model s)).
  { intros s [-> | ->]; unfold cursor_ok; vm_compute; split;
      try (intro; discriminate); left; reflexivity. }
  split.
  - unfold Demo.after.
    destruct (navigation_saturates_at_the_ends Demo.repo (model Demo.rewound) []
                5 eq_refl (Hc Demo.rewound (or_introl eq_refl))
                ltac:(vm_compute; discriminate) ltac:(lia)) as [Hr _].
    change Demo.rewound with {| model := model Demo.rewound; pending := [] |} at 1.
    rewrite Hr. reflexivity.
  - unfold Demo.after.
    destruct (navigation_saturates_at_the_ends Demo.repo (model Demo.replayed) []
                5 eq_refl (Hc Demo.replayed (or_intror eq_refl))
                ltac:(vm_compute; discriminate) ltac:(lia)) as [_ Hl].
    change Demo.replayed with {| model := model Demo.replayed; pending := [] |} at 1.
    rewrite Hl. reflexivity.
Defined.

(** ** The fetcher's limit and the origin of the displayed commits *)

Section FetcherLimitFacts.
Context {Commit Tree Patch : Type}.
Variable r : Repository Commit Tree Patch.

Lemma fetcher_loop_unlimited (CommitLimit : Z) (hashes : list string) (commitCount : Z) :
  CommitLimit <= 0 ->
  fetcher_loop r CommitLimit hashes commitCount = omap (fetch_one r) hashes.
Proof.
  intros HL. assert (H0 : (0 <? CommitLimit) = false) by now apply Z.ltb_ge.
  revert commitCount.
  induction hashes as [|hashStr rest IH]; intros n; cbn [fetcher_loop omap list_omap];
    [reflexivity|].
  destruct (fetch_one r hashStr) as [c|]; [|apply IH].
  rewrite H0. cbn [andb]. f_equal. apply IH.
Qed.

Lemma fetcher_loop_limited (CommitLimit : Z) (hashes : list string) (commitCount : Z) :
  CommitLimit <= Int.max_int -> 0 <= commitCount < CommitLimit ->
  fetcher_loop r CommitLimit hashes commitCount
  = take (Z.to_nat (CommitLimit - commitCount)) (omap (fetch_one r) hashes).
Proof.
  intros Hmax. revert commitCount.
  induction hashes as [|hashStr rest IH]; intros n Hn; cbn [fetcher_loop omap list_omap].
  - now rewrite take_nil.
  - destruct (fetch_one r hashStr) as [c|]; [|now apply IH].
    assert (H0 : (0 <? CommitLimit) = true) by (apply Z.ltb_lt; lia).
    rewrite H0. cbn [andb].
    rewrite Int_add_fits by (unfold Int.fits, Int.min_int; lia).
    replace (Z.to_nat (CommitLimit - n)) with (S (Z.to_nat (CommitLimit - (n + 1))))
      by lia.
    cbn [take].
    destruct (CommitLimit <=? n + 1) eqn:E;
      [apply Z.leb_le in E | apply Z.leb_gt in E].
    + replace (Z.to_nat (CommitLimit - (n + 1))) with 0%nat by lia.
      now rewrite take_0.
    + now rewrite IH by lia.
Qed.

Lemma fetcher_loop_origin (CommitLimit : Z) (hashes : list string) (commitCount : Z)
    (c : commitInfo) :
  c ∈ fetcher_loop r CommitLimit hashes commitCount ->
  exists hashStr, hashStr ∈ hashes /\ fetch_one r hashStr = Some c.
Proof.
  revert commitCount. induction hashes as [|hashStr rest IH]; intros n; cbn [fetcher_loop].
  - intros H. inversion H.
  - destruct (fetch_one r hashStr) as [c0|] eqn:Hc.
    + destruct (_ && _).
      * intros ->%list_elem_of_singleton. exists hashStr. split; [left | exact Hc].
      * intros [-> | H]%elem_of_cons.
        -- exists hashStr. split; [left | exact Hc].
        -- destruct (IH _ H) as (h & Hin & Hh). exists h. split; [now right | exact Hh].
    + intros H. destruct (IH _ H) as (h & Hin & Hh). exists h. split; [now right | exact Hh].
Qed.

Lemma fetch_one_fields (hashStr : string) (c : commitInfo) :
  fetch_one r hashStr = Some c ->
  exists commit, CommitObject r hashStr = Ok commit /\
    Hash c = commit_Hash r commit /\ Message c = commit_Message r commit /\
    Author c = commit_AuthorName r commit /\ Date c = commit_AuthorWhen r commit /\
    Churn c = Int.add (Additions c) (Deletions c).
Proof.
  unfold fetch_one, commit_numbers.
  destruct (CommitObject r hashStr) as [commit|]; [|discriminate].
  intros H. exists commit. split; [reflexivity|]. revert H.
  destruct (0 <? NumParents r commit).
  - destruct (Parent r commit 0) as [parent|]; [|discriminate].
    destruct (commit_Tree r commit) as [cTree|]; [|discriminate].
    destruct (commit_Tree r parent) as [pTree|]; [|discriminate].
    destruct (tree_Patch r pTree cTree) as [patch|]; [|discriminate].
    intros [= <-]. unfold new_record, patch_numbers.
    destruct (sum_stats (patch_Stats r patch)) as [a d]. cbn. tauto.
  - intros [= <-]. cbn. repeat split; reflexivity.
Qed.

(** X8. The commit limit. With a positive [CommitLimit] the fetcher
    sends the records of the first [CommitLimit] lines of the revision
    list that it can read (unreadable commits and failed diffs are
    skipped and do not count), in order, and then stops; with a limit of
    zero or less it sends the records of all readable lines. *)
Theorem fetcher_honours_commit_limit (CommitLimit : Z) (hashes : list string) :
  CommitLimit <= Int.max_int ->
  fetcher r CommitLimit hashes
  = (if 0 <? CommitLimit
     then take (Z.to_nat CommitLimit) (omap (fetch_one r) hashes)
     else omap (fetch_one r) hashes) /\
  (0 < CommitLimit -> len (fetcher r CommitLimit hashes) <= CommitLimit).
Proof.
  intros Hmax.
  assert (Heq : fetcher r CommitLimit hashes
                = if 0 <? CommitLimit
                  then take (Z.to_nat CommitLimit) (omap (fetch_one r) hashes)
                  else omap (fetch_one r) hashes).
  { unfold fetcher.
    destruct (0 <? CommitLimit) eqn:E; [apply Z.ltb_lt in E | apply Z.ltb_ge in E].
    - rewrite fetcher_loop_limited by lia. now rewrite Z.sub_0_r.
    - now apply fetcher_loop_unlimited. }
  split; [exact Heq|].
  intros Hpos. rewrite Heq.
  assert (H0 : (0 <? CommitLimit) = true) by now apply Z.ltb_lt.
  rewrite H0. unfold len. rewrite length_take. lia.
Qed.

(** X9. Every commit the replay shows comes from the repository. In any
    state reached when the fetcher reads the revision list [hashes],
    each commit of the model's list was read from one of those lines:
    its hash, message, author and date are those of the repository's
    commit object, and its churn is the (machine) sum of its additions
    and deletions. *)
Theorem displayed_commits_come_from_the_repository
    (cfg : Config) (CommitLimit : Z) (hashes : list string) (s : System) (c : commitInfo) :
  reachable r cfg (fetcher r CommitLimit hashes) s ->
  c ∈ commits (model s) ->
  exists hashStr commit,
    hashStr ∈ hashes /\ CommitObject r hashStr = Ok commit /\
    Hash c = commit_Hash r commit /\ Message c = commit_Message r commit /\
    Author c = commit_AuthorName r commit /\ Date c = commit_AuthorWhen r commit /\
    Churn c = Int.add (Additions c) (Deletions c).
Proof.
  intros Hreach Hin.
  destruct (reachable_pipeline r _ _ _ Hreach) as (Hid & _).
  assert (Hc : identity c ∈ identity <$> fetcher r CommitLimit hashes).
  { rewrite <- Hid. apply list_elem_of_fmap. exists c. split; [reflexivity|].
    apply elem_of_app. now left. }
  apply list_elem_of_fmap in Hc as (c0 & Hident & Hc0).
  destruct (fetcher_loop_origin _ _ _ _ Hc0) as (hashStr & Hh & Hone).
  destruct (fetch_one_fields _ _ Hone) as (commit & Hobj & HH & HM & HA & HD & HC).
  exists hashStr, commit. unfold identity in Hident.
  injection Hident as E1 E2 E3 E4 E5 E6 E7 E8.
  rewrite E1, E2, E3, E4, E6, E7, E8. tauto.
Qed.

End FetcherLimitFacts.

Lemma fetcher_honours_commit_limit_witness :
  fetcher Demo.repo 2 [Demo.h1; Demo.h2; Demo.h3]
  = take 2 (omap (fetch_one Demo.repo) [Demo.h1; Demo.h2; Demo.h3]).
Proof.
  exact (proj1 (fetcher_honours_commit_limit Demo.repo 2 [Demo.h1; Demo.h2; Demo.h3]
                  ltac:(vm_compute; discriminate))).
Defined.

Lemma displayed_commits_come_from_the_repository_witness :
  exists hashStr commit,
    hashStr ∈ [Demo.h1; Demo.h2; Demo.h3] /\
    CommitObject Demo.repo hashStr = Ok commit /\
    Hash (default Demo.record2 (commits (model Demo.replayed) !! 1%nat)) = commit_Hash Demo.repo commit /\
    Message (default Demo.record2 (commits (model Demo.replayed) !! 1%nat)) = commit_Message Demo.repo commit /\
    Author (default Demo.record2 (commits (model Demo.replayed) !! 1%nat)) = commit_AuthorName Demo.repo commit /\
    Date (default Demo.record2 (commits (model Demo.replayed) !! 1%nat)) = commit_AuthorWhen Demo.repo commit /\
    Churn (default Demo.record2 (commits (model Demo.replayed) !! 1%nat))
    = Int.add (Additions (default Demo.record2 (commits (model Demo.replayed) !! 1%nat)))
              (Deletions (default Demo.record2 (commits (model Demo.replayed) !! 1%nat))).
Proof.
  apply (displayed_commits_come_from_the_repository Demo.repo (Demo.cfg true) (-1)
           [Demo.h1; Demo.h2; Demo.h3] Demo.replayed (default Demo.record2 (commits (model Demo.replayed) !! 1%nat))).
  - exact Demo_replayed_reachable.
  - vm_compute. right. left.
Defined.

(** ** The diff view's window *)

Section DiffWindowFacts.
Context {Commit Tree Patch : Type}.
Variable r : Repository Commit Tree Patch.

Lemma take_drop_past_end {A} (l : list A) (n k j : nat) :
  (length l <= n + k)%nat -> (length l <= n + j)%nat ->
  take k (drop n l) = take j (drop n l).
Proof.
  intros Hk Hj. rewrite !take_ge by (rewrite length_drop; lia). reflexivity.
Qed.

(** X10. The window of the diff view. [renderDiffView] shows the lines
    of the diff text from the scroll offset (from line 0 when the offset
    is negative) up to, but not including, line [diffScroll + height],
    as far as the text has them. It panics, on [lines[start:end]], exactly
    when [diffScroll + height] (as the machine computes it) is negative;
    in every other case it returns, even when the offset lies past the
    last line, and then shows nothing. *)
Theorem renderDiffView_window (m : Model) :
  (Int.add (diffScroll m) (height m) < 0 ->
   renderDiffView m = Panic "slice bounds out of range") /\
  (0 <= Int.add (diffScroll m) (height m) ->
   renderDiffView m
   = Ret (take (Z.to_nat (Int.add (diffScroll m) (height m) - Z.max 0 (diffScroll m)))
            (drop (Z.to_nat (Z.max 0 (diffScroll m))) (split_lines (currentDiff m))))).
Proof.
  unfold renderDiffView, diff_window, slice. cbv zeta.
  set (lines := split_lines (currentDiff m)).
  set (e := Int.add (diffScroll m) (height m)).
  assert (HL : 0 <= len lines) by (unfold len; lia).
  fold (len lines).
  destruct (diffScroll m <? 0) eqn:E1; [apply Z.ltb_lt in E1 | apply Z.ltb_ge in E1];
    (destruct (len lines <? e) eqn:E2; [apply Z.ltb_lt in E2 | apply Z.ltb_ge in E2]);
    match goal with |- context [if ?a <? ?b then _ else _] =>
      destruct (a <? b) eqn:E3; [apply Z.ltb_lt in E3 | apply Z.ltb_ge in E3] end;
    (split; intros He; try lia);
    repeat match goal with
           | |- context [?a <? ?b] =>
               let E := fresh "E" in
               destruct (a <? b) eqn:E; [apply Z.ltb_lt in E | apply Z.ltb_ge in E]
           end; cbn [orb]; try lia; try reflexivity;
    f_equal; unfold len in *.
  all: try (rewrite Z.max_l by lia).
  all: try (rewrite Z.max_r by lia).
  all: try (apply take_drop_past_end; lia).
  all: try (f_equal; lia).
  all: try (rewrite Z.sub_diag; cbn [Z.to_nat]; rewrite take_0;
            first [ now rewrite take_0
                  | replace (Z.to_nat (e - _)) with 0%nat by lia; now rewrite take_0 ]).
  all: rewrite !drop_ge by lia; now rewrite !take_nil.
Qed.

End DiffWindowFacts.

(** ** Resizing the terminal while the diff view is open *)

Section ResizeFacts.
Context {Commit Tree Patch : Type}.
Variable r : Repository Commit Tree Patch.

Lemma renderDiffView_returns (m : Model) :
  0 <= Int.add (diffScroll m) (height m) ->
  exists visibleLines, renderDiffView m = Ret visibleLines.
Proof.
  intros He. unfold renderDiffView, diff_window, slice. cbv zeta.
  set (lines := split_lines (currentDiff m)).
  assert (HL : 0 <= len lines) by (unfold len; lia).
  fold (len lines).
  repeat match goal with
         | |- context [?a <? ?b] =>
             let E := fresh "E" in
             destruct (a <? b) eqn:E; [apply Z.ltb_lt in E | apply Z.ltb_ge in E]
         end; cbn [orb]; try lia; eauto.
Qed.

Lemma renderDiffView_negative_end (m : Model) :
  Int.add (diffScroll m) (height m) < 0 ->
  renderDiffView m = Panic "slice bounds out of range".
Proof.
  intros He. unfold renderDiffView, diff_window, slice. cbv zeta.
  set (lines := split_lines (currentDiff m)).
  assert (HL : 0 <= len lines) by (unfold len; lia).
  fold (len lines).
  repeat match goal with
         | |- context [?a <? ?b] =>
             let E := fresh "E" in
             destruct (a <? b) eqn:E; [apply Z.ltb_lt in E | apply Z.ltb_ge in E]
         end; cbn [orb]; try lia; reflexivity.
Qed.

(** X11. The diff view needs a terminal of ten rows. When the terminal
    is resized to [H] rows while the diff view is open at scroll offset
    [diffScroll], the next frame panics if [diffScroll + H < 10]: the
    stored height [H - 10] is negative and the window of
    [renderDiffView] ends before line 0. With [diffScroll + H >= 10] the
    frame is rendered, the view stays open on the same text and offset
    and the stored height is [H - 10]. *)
Theorem diff_view_needs_ten_rows (m : Model) (pend : list commitInfo) (W H : Z) :
  diffState m = inDiffView ->
  0 <= diffScroll m -> 0 <= H -> diffScroll m + H <= Int.max_int ->
  (diffScroll m + H < 10 ->
   exec r {| model := m; pending := pend |} [Deliver (WindowSizeMsg W H); Render]
   = Panic "slice bounds out of range") /\
  (10 <= diffScroll m + H ->
   exists m',
     exec r {| model := m; pending := pend |} [Deliver (WindowSizeMsg W H); Render]
     = Ret {| model := m'; pending := pend |} /\
     height m' = H - 10 /\ diffState m' = inDiffView /\
     currentDiff m' = currentDiff m /\ diffScroll m' = diffScroll m).
Proof.
  intros Hdiff Hs HH Hmax.
  set (m1 := set_layout (Int.sub W 10) (Int.sub H 10)
               (Int.sub (Int.div (Int.sub H 10) 3) 10)
               (Int.sub (Int.div (Int.sub W 10) 2) 10) m).
  assert (Hstep : exec r {| model := m; pending := pend |}
                    [Deliver (WindowSizeMsg W H); Render]
                  = (_ ← renderDiffView m1; Ret {| model := m1; pending := pend |})).
  { cbn [exec exec_event Update model pending mbind run_bind]. fold m1.
    unfold View. replace (diffState m1) with inDiffView by (now rewrite <- Hdiff).
    destruct (renderDiffView m1); reflexivity. }
  assert (Hh : height m1 = H - 10).
  { subst m1. cbn [height set_layout].
    apply Int_sub_fits. unfold Int.fits, Int.min_int, Int.max_int in *. lia. }
  assert (He : Int.add (diffScroll m1) (height m1) = diffScroll m + H - 10).
  { rewrite Hh. subst m1. cbn [diffScroll set_layout].
    rewrite Int_add_fits by (unfold Int.fits, Int.min_int, Int.max_int in *; lia). lia. }
  rewrite Hstep. split; intros Hrows.
  - rewrite renderDiffView_negative_end by (rewrite He; lia). reflexivity.
  - destruct (renderDiffView_returns m1 ltac:(rewrite He; lia)) as [v Hv].
    rewrite Hv. exists m1. split; [reflexivity|]. split; [exact Hh|].
    subst m1. cbn. auto.
Qed.

End ResizeFacts.

Lemma diff_view_needs_ten_rows_witness :
  exec Demo.repo Demo.opened [Deliver (WindowSizeMsg 80 5); Render]
  = Panic "slice bounds out of range" /\
  exists m', exec Demo.repo Demo.opened [Deliver (WindowSizeMsg 80 24); Render]
             = Ret {| model := m'; pending := [] |} /\ height m' = 14.
Proof.
  destruct (diff_view_needs_ten_rows Demo.repo (model Demo.opened) [] 80 5
              eq_refl ltac:(vm_compute; discriminate) ltac:(lia)
              ltac:(vm_compute; discriminate)) as [Hsmall _].
  destruct (diff_view_needs_ten_rows Demo.repo (model Demo.opened) [] 80 24
              eq_refl ltac:(vm_compute; discriminate) ltac:(lia)
              ltac:(vm_compute; discriminate)) as [_ Hbig].
  split.
  - apply Hsmall. vm_compute. reflexivity.
  - destruct (Hbig ltac:(vm_compute; discriminate)) as (m' & He & Hh & _).
    exists m'. split; [exact He | exact Hh].
Defined.

(** ** The year list of the developer statistics *)

Section YearListFacts.

#[local] Instance Z_ge_total : Total Z.ge.
Proof. intros x y. lia. Qed.

#[local] Instance Z_ge_trans : Transitive Z.ge.
Proof. intros x y z. lia. Qed.

Lemma StronglySorted_ge_NoDup (l : list Z) :
  StronglySorted Z.ge l -> NoDup l -> StronglySorted Z.gt l.
Proof.
  induction 1 as [|x l Hs IH Hall]; intros Hnd; constructor.
  - apply IH. now apply NoDup_cons_1_2 in Hnd.
  - apply NoDup_cons in Hnd as [Hx _].
    rewrite Forall_forall in *. intros y Hy.
    destruct (decide (x = y)) as [->|Hne]; [contradiction|].
    specialize (Hall y Hy). lia.
Qed.

Lemma stat_years_elem (visited : list commitInfo) (y : Z) :
  y ∈ stat_years visited <-> exists c, c ∈ visited /\ Year (Date c) = y.
Proof.
  unfold stat_years. cbv zeta.
  rewrite merge_sort_Permutation, elem_of_elements, elem_of_list_to_set, list_elem_of_fmap.
  split; intros (c & H1 & H2); exists c; auto.
Qed.

Lemma stat_years_descending (visited : list commitInfo) :
  StronglySorted Z.gt (stat_years visited).
Proof.
  unfold stat_years. cbv zeta. apply StronglySorted_ge_NoDup.
  - apply StronglySorted_merge_sort; apply _.
  - rewrite merge_sort_Permutation. apply NoDup_elements.
Qed.

(** What a frame does to the model outside the diff view. *)
Lemma View_outside_diff_view (m : Model) :
  diffState m = notInDiffView -> commits m <> [] ->
  0 <= currentCommitIndex m -> len (commits m) <= Int.max_int ->
  View m
  = Ret (set_availableStatYears
           (0 :: stat_years
                   (take (Z.to_nat (Z.min (currentCommitIndex m) (len (commits m) - 1) + 1))
                         (commits m)))
           (set_currentCommitIndex
              (Z.min (currentCommitIndex m) (len (commits m) - 1)) m)).
Proof.
  intros Hnormal Hne Hlo Hmax.
  assert (Hpos : 0 < len (commits m)).
  { unfold len. destruct (commits m); [congruence | cbn; lia]. }
  set (j := Z.min (currentCommitIndex m) (len (commits m) - 1)).
  set (m1 := set_currentCommitIndex j m).
  set (visited := take (Z.to_nat (j + 1)) (commits m)).
  unfold View. rewrite Hnormal.
  replace (len (commits m) =? 0) with false by (symmetry; apply Z.eqb_neq; lia).
  rewrite Int_sub_fits by (unfold Int.fits, Int.min_int; lia).
  assert (Hm1 : (if len (commits m) <=? currentCommitIndex m
                 then set_currentCommitIndex (len (commits m) - 1) m else m) = m1).
  { subst m1 j. destruct (len (commits m) <=? currentCommitIndex m) eqn:E;
      [apply Z.leb_le in E | apply Z.leb_gt in E].
    - now rewrite Z.min_r by lia.
    - rewrite Z.min_l by lia. symmetry. apply set_currentCommitIndex_same. }
  cbv zeta. rewrite Hm1.
  assert (Hj : 0 <= j < len (commits m)) by (subst j; lia).
  assert (Hc : currentCommitIndex m1 = j) by reflexivity.
  assert (Hcs : commits m1 = commits m) by reflexivity.
  destruct (index_in_range (commits m1) (currentCommitIndex m1)
              ltac:(rewrite Hc, Hcs; lia)) as (c & Hidx & _).
  rewrite Hidx. cbn [mbind run_bind].
  assert (Hvis : forall m2, commits m2 = commits m -> currentCommitIndex m2 = j ->
                            commits_to_cursor m2 = Ret visited).
  { intros m2 H1 H2. unfold commits_to_cursor. rewrite H1, H2.
    replace (j <? 0) with false by (symmetry; apply Z.ltb_ge; lia).
    replace (j <? len (commits m)) with true by (symmetry; apply Z.ltb_lt; lia).
    reflexivity. }
  rewrite (Hvis m1 Hcs Hc). cbn [mbind run_bind].
  unfold renderDeveloperStats. rewrite (Hvis m1 Hcs Hc). cbn [mbind run_bind]. cbv zeta.
  set (m2 := set_availableStatYears _ m1).
  assert (Hana : exists cs, commitsToAnalyze m2 = Ret cs).
  { unfold commitsToAnalyze. destruct (displayedStatsYear m2 =? 0).
    - unfold slice. change (commits m2) with (commits m).
      change (currentCommitIndex m2) with j.
      rewrite Int_add_fits by (unfold Int.fits, Int.min_int; lia).
      fold (len (commits m)).
      replace (0 <? 0) with false by reflexivity.
      replace (j + 1 <? 0) with false by (symmetry; apply Z.ltb_ge; lia).
      replace (len (commits m) <? j + 1) with false by (symmetry; apply Z.ltb_ge; lia).
      cbn [orb]. eauto.
    - rewrite (Hvis m2 eq_refl eq_refl). cbn [mbind run_bind]. eauto. }
  destruct Hana as [cs ->]. reflexivity.
Qed.

(** X12. The year list stored by a frame. Outside the diff view, with a
    non-empty commit list and a cursor that is not negative, [View]
    returns (as far as it is modelled: the cursor clamp, the reads of
    the commit list and [renderDeveloperStats]); it clamps the cursor to
    the last index and stores the year list: entry 0 is the value 0
    ("All-Time"), followed by the years of the commits up to the cursor,
    each year once, in strictly descending order. Nothing else in the
    model changes. *)
Theorem year_list_is_all_time_then_years_descending (m : Model) :
  diffState m = notInDiffView -> commits m <> [] ->
  0 <= currentCommitIndex m -> len (commits m) <= Int.max_int ->
  exists years,
    View m
    = Ret (set_availableStatYears (0 :: years)
             (set_currentCommitIndex
                (Z.min (currentCommitIndex m) (len (commits m) - 1)) m)) /\
    StronglySorted Z.gt years /\
    forall y, y ∈ years <->
      exists (i : nat) c,
        Z.of_nat i <= Z.min (currentCommitIndex m) (len (commits m) - 1) /\
        commits m !! i = Some c /\ Year (Date c) = y.
Proof.
  intros Hnormal Hne Hlo Hmax.
  assert (Hpos : 0 < len (commits m)).
  { unfold len. destruct (commits m); [congruence | cbn; lia]. }
  set (j := Z.min (currentCommitIndex m) (len (commits m) - 1)).
  set (visited := take (Z.to_nat (j + 1)) (commits m)).
  exists (stat_years visited). split; [|split].
  - now apply View_outside_diff_view.
  - apply stat_years_descending.
  - intros y. rewrite stat_years_elem. subst visited. split.
    + intros (c & Hin & Hy). apply list_elem_of_lookup in Hin as [i Hi].
      apply lookup_take_Some in Hi as [Hi Hlt].
      exists i, c. split; [lia|]. split; assumption.
    + intros (i & c & Hi & Hc & Hy). exists c. split; [|exact Hy].
      apply list_elem_of_lookup. exists i. apply lookup_take_Some. split; [exact Hc | lia].
Qed.

End YearListFacts.

Lemma year_list_is_all_time_then_years_descending_witness :
  exists years,
    View (model Demo.rewound)
    = Ret (set_availableStatYears (0 :: years)
             (set_currentCommitIndex
                (Z.min (currentCommitIndex (model Demo.rewound))
                       (len (commits (model Demo.rewound)) - 1))
                (model Demo.rewound))) /\
    StronglySorted Z.gt years /\
    forall y, y ∈ years <->
      exists (i : nat) c,
        Z.of_nat i <= Z.min (currentCommitIndex (model Demo.rewound))
                            (len (commits (model Demo.rewound)) - 1) /\
        commits (model Demo.rewound) !! i = Some c /\ Year (Date c) = y.
Proof.
  apply (year_list_is_all_time_then_years_descending (model Demo.rewound)).
  - reflexivity.
  - vm_compute. discriminate.
  - vm_compute. discriminate.
  - vm_compute. discriminate.
Defined.

(** ** Cycling through the years *)

Section YearKeysFacts.
Context {Commit Tree Patch : Type}.
Variable r : Repository Commit Tree Patch.





End YearKeysFacts.


(** ** Drawing on a canvas and the shape of its frame *)

Section BrailleDrawingFacts.
Import Braille.





Lemma stride_length (hi step : Z) :
  len (origins hi step) = Z.max 0 ((hi + step - 1) / step).
Proof.
  unfold origins, stride, len. rewrite length_fmap, length_seq.
  replace (hi - 0 + step - 1) with (hi + step - 1) by lia. lia.
Qed.

Lemma glyph_range (c : BrailleCanvas) (x y : Z) : 0x2800 <= glyph c x y <= 0x28FF.
Proof.
  unfold glyph.
  destruct (dot c x y), (dot c x (y + 1)), (dot c x (y + 2)), (dot c (x + 1) y),
    (dot c (x + 1) (y + 1)), (dot c (x + 1) (y + 2)), (dot c x (y + 3)),
    (dot c (x + 1) (y + 3)); cbn; lia.
Qed.

(** X15. The shape of a frame. [String] on a canvas of [Width] by
    [Height] sub-pixels writes one line for every four rows of
    sub-pixels, rounded up, each line holding one rune for every two
    columns, rounded up, and ending in a newline; every rune is a
    Braille pattern, between U+2800 and U+28FF. A canvas with no rows
    gives the empty string. *)
Theorem frame_is_a_grid_of_braille_patterns (c : BrailleCanvas) :
  canvas_ok c ->
  exists rows,
    String_ c = Ret (concat ((fun row => row ++ [10]) <$> rows)) /\
    len rows = (Height c + 3) / 4 /\
    Forall (fun row => len row = (Width c + 1) / 2 /\
                       Forall (fun g => 0x2800 <= g <= 0x28FF) row) rows.
Proof.
  intros Hok.
  exists ((fun y => (fun x => glyph c x y) <$> origins (Width c) 2)
            <$> origins (Height c) 4).
  destruct Hok as (HW & HH & Hrest).
  assert (Hok : canvas_ok c) by (split; [|split]; assumption).
  split; [|split].
  - rewrite BrailleFacts.String_frame by exact Hok. unfold frame.
    now rewrite <- list_fmap_compose.
  - unfold len. rewrite length_fmap. fold (len (origins (Height c) 4)).
    rewrite stride_length.
    replace (Height c + 4 - 1) with (Height c + 3) by lia.
    apply Z.max_r. apply Z.div_pos; lia.
  - apply Forall_fmap, Forall_forall. intros y _. cbn. split.
    + unfold len. rewrite length_fmap. fold (len (origins (Width c) 2)).
      rewrite stride_length.
      replace (Width c + 2 - 1) with (Width c + 1) by lia.
      apply Z.max_r. apply Z.div_pos; lia.
    + apply Forall_fmap, Forall_forall. intros x _. apply glyph_range.
Qed.

End BrailleDrawingFacts.


Lemma frame_is_a_grid_of_braille_patterns_witness :
  exists rows,
    Braille.String_ Braille.sample = Ret (concat ((fun row => row ++ [10]) <$> rows)) /\
    len rows = (Braille.Height Braille.sample + 3) / 4 /\
    Forall (fun row => len row = (Braille.Width Braille.sample + 1) / 2 /\
                       Forall (fun g => 0x2800 <= g <= 0x28FF) row) rows.
Proof.
  exact (frame_is_a_grid_of_braille_patterns Braille.sample BrailleFacts.sample_ok).
Defined.

(** ** Message truncation *)

Section TruncateFacts.

Lemma slen_append (a b : string) : slen (a ++ b) = slen a + slen b.
Proof.
  unfold slen. induction a as [|c a IH].
  - change ("" ++ b)%string with b. cbn [String.length]. lia.
  - change (String c a ++ b)%string with (String c (a ++ b)).
    cbn [String.length]. lia.
Qed.

Lemma slen_substring (n : nat) (s : string) :
  (n <= String.length s)%nat -> slen (substring 0 n s) = Z.of_nat n.
Proof.
  unfold slen. revert n. induction s as [|c s IH]; intros [|n] Hn;
    cbn [substring String.length] in *; try lia.
  specialize (IH n ltac:(lia)). lia.
Qed.

Lemma chars_append (a b : string) : chars (a ++ b) = chars a ++ chars b.
Proof.
  unfold chars. induction a as [|c a IH]; [reflexivity|].
  change (String c a ++ b)%string with (String c (a ++ b)).
  cbn [list_ascii_of_string]. now rewrite IH.
Qed.

Lemma chars_substring (n : nat) (s : string) :
  chars (substring 0 n s) = take n (chars s).
Proof.
  unfold chars. revert n. induction s as [|c s IH]; intros [|n]; cbn; try reflexivity.
  now rewrite IH.
Qed.

Lemma split_lines_first (msg : string) :
  exists first rest, split_lines msg = first :: rest /\ first_line_of msg first.
Proof.
  unfold first_line_of, single_line, chars, newline.
  induction msg as [|c msg (first & rest & Hs & Hno & Hmsg)]; cbn [split_lines].
  - exists "", []. split; [reflexivity|]. split; [|now left].
    cbn. intros H. inversion H.
  - destruct (Ascii.eqb c "010") eqn:E.
    + apply Ascii.eqb_eq in E. subst c.
      exists "", (split_lines msg). split; [reflexivity|]. split.
      * cbn. intros H. inversion H.
      * right. exists msg. reflexivity.
    + apply Ascii.eqb_neq in E. rewrite Hs.
      exists (String c first), rest. split; [reflexivity|]. split.
      * cbn. intros [H | H]%elem_of_cons; [congruence | contradiction].
      * destruct Hmsg as [-> | (tail & ->)]; [now left|].
        right. exists tail. reflexivity.
Qed.

(** X16. Truncating a message. [truncateMessage] works on the first line
    of the message. For a limit of at least 3 it returns: the first line
    itself when that has at most [maxLen] bytes, and otherwise its first
    [maxLen - 3] bytes followed by three dots, [maxLen] bytes in all. The
    result never holds a line break and never has more than [maxLen]
    bytes. With a limit below 3 it panics as soon as the first line is
    longer than the limit. *)
Theorem truncateMessage_fits_the_limit (msg : string) (maxLen : Z) :
  Int.min_int + 3 <= maxLen <= Int.max_int ->
  exists first, first_line_of msg first /\
    (slen first <= maxLen -> truncateMessage msg maxLen = Ret first) /\
    (3 <= maxLen < slen first ->
     exists out, truncateMessage msg maxLen = Ret out /\
       out = (substring 0 (Z.to_nat (maxLen - 3)) first ++ "...")%string /\
       slen out = maxLen /\ single_line out) /\
    (maxLen < 3 -> maxLen < slen first ->
     truncateMessage msg maxLen = Panic "slice bounds out of range").
Proof.
  intros Hmax.
  destruct (split_lines_first msg) as (first & rest & Hs & Hfirst).
  exists first. split; [exact Hfirst|].
  assert (Hrun : truncateMessage msg maxLen
                 = if maxLen <? slen first
                   then head ← string_slice_to first (maxLen - 3);
                        Ret (head ++ "...")%string
                   else Ret first).
  { unfold truncateMessage. cbv zeta. rewrite Hs. cbn [index length]. cbn [orb].
    replace (0 <? 0) with false by reflexivity.
    replace (Z.of_nat (S (length rest)) <=? 0) with false
      by (symmetry; apply Z.leb_gt; lia).
    cbn [orb lookup list_lookup Z.to_nat mbind run_bind].
    rewrite Int_sub_fits by (unfold Int.fits, Int.min_int, Int.max_int in *; lia).
    reflexivity. }
  rewrite Hrun. split; [|split].
  - intros Hle. replace (maxLen <? slen first) with false
      by (symmetry; apply Z.ltb_ge; lia). reflexivity.
  - intros [H3 Hlt]. replace (maxLen <? slen first) with true
      by (symmetry; apply Z.ltb_lt; lia).
    unfold string_slice_to.
    replace (maxLen - 3 <? 0) with false by (symmetry; apply Z.ltb_ge; lia).
    replace (slen first <? maxLen - 3) with false by (symmetry; apply Z.ltb_ge; lia).
    cbn [orb mbind run_bind]. eexists. split; [reflexivity|]. split; [reflexivity|].
    split.
    + rewrite slen_append, slen_substring by (unfold slen in Hlt; lia).
      unfold slen. cbn [String.length]. lia.
    + destruct Hfirst as [Hno _]. unfold single_line in *.
      rewrite chars_append, chars_substring. intros [H | H]%elem_of_app.
      * apply Hno. apply elem_of_take in H as (i & Hi & _).
        apply list_elem_of_lookup. eauto.
      * unfold chars, newline in H. cbn in H.
        repeat (apply elem_of_cons in H as [H | H]; [discriminate|]). inversion H.
  - intros H3 Hlt. replace (maxLen <? slen first) with true
      by (symmetry; apply Z.ltb_lt; lia).
    unfold string_slice_to.
    replace (maxLen - 3 <? 0) with true by (symmetry; apply Z.ltb_lt; lia).
    reflexivity.
Qed.

End TruncateFacts.

Lemma truncateMessage_fits_the_limit_witness :
  truncateMessage "Fix the parser for nested comments" 20 = Ret "Fix the parser fo..." /\
  truncateMessage ("Add tests" ++ String newline "Details follow") 20 = Ret "Add tests" /\
  truncateMessage "abc" 2 = Panic "slice bounds out of range".
Proof.
  destruct (truncateMessage_fits_the_limit "Fix the parser for nested comments" 20
              ltac:(unfold Int.min_int, Int.max_int; lia))
    as (f1 & [_ [E1 | (t1 & E1)]] & _ & Hlong & _).
  2: { exfalso. apply (f_equal chars) in E1. rewrite chars_append in E1.
       assert (H : newline ∈ chars "Fix the parser for nested comments").
       { rewrite E1. apply elem_of_app. right. left. }
       vm_compute in H. repeat (apply elem_of_cons in H as [H | H]; [discriminate|]).
       inversion H. }
  subst f1.
  destruct (Hlong ltac:(vm_compute; split; [discriminate | reflexivity]))
    as (out & -> & -> & _).
  repeat split; reflexivity.
Defined.

(** ** The timeline *)

Section TimelineFacts.

Lemma Int_div_fits (a b : Z) : Int.fits (Z.quot a b) -> Int.div a b = Z.quot a b.
Proof. intros H. unfold Int.div. now apply Int_wrap_fits. Qed.

Lemma stride_one_lookup (i hi : Z) (k : nat) :
  i <= hi ->
  Braille.stride i hi 1 !! k
  = if decide (Z.of_nat k < hi - i) then Some (i + Z.of_nat k) else None.
Proof.
  intros Hi. unfold Braille.stride.
  replace ((hi - i + 1 - 1) / 1) with (hi - i) by (rewrite Z.div_1_r; lia).
  rewrite list_lookup_fmap.
  destruct (decide (Z.of_nat k < hi - i)) as [Hk|Hk].
  - rewrite lookup_seq_lt by lia. cbn. f_equal. lia.
  - rewrite lookup_seq_ge by lia. reflexivity.
Qed.

Lemma stride_one_length (i hi : Z) : i <= hi -> len (Braille.stride i hi 1) = hi - i.
Proof.
  intros Hi. unfold Braille.stride, len. rewrite length_fmap, length_seq.
  rewrite Z.div_1_r. lia.
Qed.

Lemma msgWidth_range (m : Model) : 20 <= msgWidth m <= Int.max_int.
Proof.
  unfold msgWidth. cbv zeta.
  set (w := Int.sub _ 2).
  assert (Hw : Int.min_int <= w <= Int.max_int) by apply Int_wrap_range.
  destruct (w <? 20) eqn:E; [apply Z.ltb_lt in E | apply Z.ltb_ge in E];
    unfold Int.max_int in *; lia.
Qed.

Lemma timeline_row_returns (m : Model) (i : Z) :
  Forall (fun c => 7 <= slen (Hash c)) (commits m) ->
  0 <= i < len (commits m) ->
  exists c msg,
    commits m !! Z.to_nat i = Some c /\
    truncateMessage (Message c) (msgWidth m) = Ret msg /\
    timeline_row m i
    = Ret {| row_label := substring 0 7 (Hash c);
             row_additions := Additions c;
             row_deletions := Deletions c;
             row_msg := msg;
             row_current := i =? currentCommitIndex m |}.
Proof.
  intros Hhash Hi.
  destruct (index_in_range (commits m) i Hi) as (c & Hidx & Hlook).
  pose proof (msgWidth_range m) as Hw.
  assert (Htr : exists msg, truncateMessage (Message c) (msgWidth m) = Ret msg).
  { unfold truncateMessage. cbv zeta.
    destruct (index (split_lines (Message c)) 0) as [result|] eqn:E.
    - cbn [mbind run_bind]. destruct (msgWidth m <? slen result) eqn:E2; [|eauto].
      apply Z.ltb_lt in E2. unfold string_slice_to.
      rewrite Int_sub_fits by (unfold Int.fits, Int.min_int in *; lia).
      replace (msgWidth m - 3 <? 0) with false by (symmetry; apply Z.ltb_ge; lia).
      replace (slen result <? msgWidth m - 3) with false
        by (symmetry; apply Z.ltb_ge; lia).
      cbn [orb mbind run_bind]. eauto.
    - exfalso. destruct (Message c); cbn [split_lines] in E.
      + discriminate.
      + destruct (Ascii.eqb _ _); [discriminate|].
        destruct (split_lines _); discriminate. }
  destruct Htr as [msg Hmsg]. exists c, msg.
  split; [exact Hlook|]. split; [exact Hmsg|].
  unfold timeline_row. rewrite Hidx. cbn [mbind run_bind].
  rewrite Forall_forall in Hhash.
  assert (H7 : 7 <= slen (Hash c)).
  { apply Hhash. apply list_elem_of_lookup. eauto. }
  unfold string_slice_to.
  replace (7 <? 0) with false by reflexivity.
  replace (slen (Hash c) <? 7) with false by (symmetry; apply Z.ltb_ge; lia).
  cbn [orb mbind run_bind]. rewrite Hmsg. reflexivity.
Qed.

Lemma timeline_window_bounds (m : Model) (timelineHeight : Z) :
  0 < timelineHeight ->
  0 <= currentCommitIndex m < len (commits m) ->
  len (commits m) + timelineHeight <= Int.max_int ->
  0 <= (timeline_window m timelineHeight).1 <= currentCommitIndex m /\
  currentCommitIndex m < (timeline_window m timelineHeight).2 /\
  (timeline_window m timelineHeight).2 <= len (commits m) /\
  (timeline_window m timelineHeight).2 - (timeline_window m timelineHeight).1
  = Z.min timelineHeight (len (commits m)).
Proof.
  intros Hh Hcur Hmax. unfold timeline_window. cbv zeta.
  assert (Hq : 0 <= Z.quot timelineHeight 2 < timelineHeight).
  { rewrite Z.quot_div_nonneg by lia. split; [apply Z.div_pos; lia|].
    apply Z.div_lt; lia. }
  rewrite Int_div_fits by (unfold Int.fits, Int.min_int, Int.max_int in *; lia).
  rewrite Int_sub_fits by (unfold Int.fits, Int.min_int, Int.max_int in *; lia).
  set (q := Z.quot timelineHeight 2) in *.
  set (L := len (commits m)) in *. set (c := currentCommitIndex m) in *.
  destruct (c - q <? 0) eqn:E1; [apply Z.ltb_lt in E1 | apply Z.ltb_ge in E1].
  - rewrite (Int_add_fits 0) by (unfold Int.fits, Int.min_int, Int.max_int in *; lia).
    rewrite Z.add_0_l.
    destruct (L <? timelineHeight) eqn:E2; [apply Z.ltb_lt in E2 | apply Z.ltb_ge in E2].
    + rewrite Int_sub_fits by (unfold Int.fits, Int.min_int, Int.max_int in *; lia).
      replace (L - timelineHeight <? 0) with true by (symmetry; apply Z.ltb_lt; lia).
      rewrite Int_add_fits by (unfold Int.fits, Int.min_int, Int.max_int in *; lia).
      rewrite Z.add_0_l.
      replace (L <? timelineHeight) with true by (symmetry; apply Z.ltb_lt; lia).
      cbn [fst snd]. lia.
    + rewrite Int_add_fits by (unfold Int.fits, Int.min_int, Int.max_int in *; lia).
      rewrite Z.add_0_l.
      replace (L <? timelineHeight) with false by (symmetry; apply Z.ltb_ge; lia).
      cbn [fst snd]. lia.
  - rewrite (Int_add_fits (c - q))
      by (unfold Int.fits, Int.min_int, Int.max_int in *; lia).
    destruct (L <? c - q + timelineHeight) eqn:E2;
      [apply Z.ltb_lt in E2 | apply Z.ltb_ge in E2].
    + rewrite Int_sub_fits by (unfold Int.fits, Int.min_int, Int.max_int in *; lia).
      destruct (L - timelineHeight <? 0) eqn:E3;
        [apply Z.ltb_lt in E3 | apply Z.ltb_ge in E3].
      * rewrite Int_add_fits by (unfold Int.fits, Int.min_int, Int.max_int in *; lia).
        rewrite Z.add_0_l.
        replace (L <? timelineHeight) with true by (symmetry; apply Z.ltb_lt; lia).
        cbn [fst snd]. lia.
      * rewrite Int_add_fits by (unfold Int.fits, Int.min_int, Int.max_int in *; lia).
        replace (L <? L - timelineHeight + timelineHeight) with false
          by (symmetry; apply Z.ltb_ge; lia).
        cbn [fst snd]. lia.
    + rewrite Int_add_fits by (unfold Int.fits, Int.min_int, Int.max_int in *; lia).
      replace (L <? c - q + timelineHeight) with false
        by (symmetry; apply Z.ltb_ge; lia).
      cbn [fst snd]. lia.
Qed.

(** X17. The timeline window. With commits, a positive height and the
    cursor on a commit, [renderTimeline] returns lines for a window of
    consecutive commits: as many as the height allows, all commits when
    there are fewer. The window always contains the cursor, and the
    line of the cursor is the only one marked as current. Each line
    carries the first seven bytes of the commit's hash, its additions
    and deletions and its truncated message. (Hashes are assumed to have
    at least seven bytes.) *)
Theorem timeline_window_contains_the_cursor (m : Model) (timelineHeight : Z) :
  0 < timelineHeight ->
  0 <= currentCommitIndex m < len (commits m) ->
  len (commits m) + timelineHeight <= Int.max_int ->
  Forall (fun c => 7 <= slen (Hash c)) (commits m) ->
  exists visibleStart rows,
    renderTimeline m timelineHeight = Ret (TimelineRows rows) /\
    len rows = Z.min timelineHeight (len (commits m)) /\
    0 <= visibleStart <= currentCommitIndex m /\
    currentCommitIndex m < visibleStart + len rows <= len (commits m) /\
    forall (k : nat) row, rows !! k = Some row ->
      exists c, commits m !! (Z.to_nat visibleStart + k)%nat = Some c /\
        row_label row = substring 0 7 (Hash c) /\
        row_additions row = Additions c /\ row_deletions row = Deletions c /\
        truncateMessage (Message c) (msgWidth m) = Ret (row_msg row) /\
        row_current row = bool_decide (visibleStart + Z.of_nat k = currentCommitIndex m).
Proof.
  intros Hh Hcur Hmax Hhash.
  destruct (timeline_window_bounds m timelineHeight Hh Hcur Hmax)
    as (Hs & Hc & He & Hlen).
  unfold renderTimeline.
  replace (len (commits m) =? 0) with false by (symmetry; apply Z.eqb_neq; lia).
  replace (timelineHeight <=? 0) with false by (symmetry; apply Z.leb_gt; lia).
  destruct (timeline_window m timelineHeight) as [visibleStart visibleEnd].
  cbn [fst snd] in *.
  set (f := fun i => match timeline_row m i with Ret row => [row] | Panic _ => [] end).
  rewrite (BrailleFacts.for_loop_collect f); try lia.
  2: { intros j buf Hj.
       destruct (timeline_row_returns m j Hhash ltac:(lia)) as (c & msg & _ & _ & Hrow).
       subst f. cbn beta. rewrite Hrow. reflexivity. }
  cbn [mbind run_bind app].
  set (rows := concat (f <$> Braille.stride visibleStart visibleEnd 1)).
  assert (Hrows : forall k : nat,
            rows !! k
            = if decide (Z.of_nat k < visibleEnd - visibleStart)
              then match timeline_row m (visibleStart + Z.of_nat k) with
                   | Ret row => Some row
                   | Panic _ => None
                   end
              else None).
  { intros k. subst rows.
    assert (Hsingle : forall l : list Z, Forall (fun j => 0 <= j < len (commits m)) l ->
              concat (f <$> l)
              = (fun j => match timeline_row m j with
                          | Ret row => row
                          | Panic _ => mkTimelineRow "" 0 0 "" false
                          end) <$> l).
    { intros l. induction 1 as [|j l Hj Hl IH]; [reflexivity|].
      cbn [fmap list_fmap concat]. fold (f <$> l). rewrite IH. subst f. cbn beta.
      destruct (timeline_row_returns m j Hhash Hj) as (c & msg & _ & _ & ->).
      reflexivity. }
    rewrite Hsingle.
    - rewrite list_lookup_fmap, stride_one_lookup by lia.
      destruct (decide (Z.of_nat k < visibleEnd - visibleStart)) as [Hk|Hk];
        [|reflexivity].
      cbn. destruct (timeline_row_returns m (visibleStart + Z.of_nat k) Hhash ltac:(lia))
        as (c & msg & _ & _ & ->). reflexivity.
    - apply Forall_lookup_2. intros k' j Hj. rewrite stride_one_lookup in Hj by lia.
      destruct (decide _); [|discriminate]. injection Hj as <-. lia. }
  assert (Hrl : len rows = visibleEnd - visibleStart).
  { assert (Hge : (length rows <= Z.to_nat (visibleEnd - visibleStart))%nat).
    { destruct (le_lt_dec (length rows) (Z.to_nat (visibleEnd - visibleStart)))
        as [|Hlt]; [assumption|].
      destruct (lookup_lt_is_Some_2 rows (Z.to_nat (visibleEnd - visibleStart)) Hlt)
        as [row Hrow].
      rewrite Hrows in Hrow. destruct (decide _); [lia | discriminate]. }
    assert (Hle : (Z.to_nat (visibleEnd - visibleStart) <= length rows)%nat).
    { destruct (le_lt_dec (Z.to_nat (visibleEnd - visibleStart)) (length rows))
        as [|Hlt]; [assumption|].
      pose proof (lookup_ge_None_2 rows (length rows) ltac:(lia)) as Hnone.
      rewrite Hrows in Hnone. destruct (decide _) as [_|Hn]; [|lia].
      destruct (timeline_row_returns m (visibleStart + Z.of_nat (length rows)) Hhash
                  ltac:(lia)) as (c & msg & _ & _ & Hrow).
      rewrite Hrow in Hnone. discriminate. }
    unfold len. lia. }
  exists visibleStart, rows. split; [reflexivity|].
  split; [lia|]. split; [lia|]. split; [lia|].
  intros k row Hrow. rewrite Hrows in Hrow.
  destruct (decide (Z.of_nat k < visibleEnd - visibleStart)) as [Hk|]; [|discriminate].
  destruct (timeline_row_returns m (visibleStart + Z.of_nat k) Hhash ltac:(lia))
    as (c & msg & Hlook & Hmsg & Hr).
  rewrite Hr in Hrow. injection Hrow as <-. exists c.
  split; [rewrite <- Hlook; f_equal; lia|].
  cbn [row_label row_additions row_deletions row_msg row_current].
  repeat split; try assumption.
  destruct (visibleStart + Z.of_nat k =? currentCommitIndex m) eqn:E;
    [apply Z.eqb_eq in E | apply Z.eqb_neq in E].
  - now rewrite bool_decide_eq_true_2.
  - now rewrite bool_decide_eq_false_2.
Qed.

(** X18. The panels of the left column. The heights [View] gives the
    three panels, 8 for the statistics, one for the changes graph and
    one for the timeline, always add up to the stored height, and the
    timeline panel is never lower than 8. So the timeline is drawn for
    a height of at least 5 and, once there are commits, [View] never
    gets the "Not enough space" notice from [renderTimeline]. *)
Theorem timeline_panel_always_has_room (m : Model) :
  - 2 ^ 61 <= height m <= 2 ^ 61 ->
  exists changesPanelHeight timelinePanelHeight,
    panel_heights m = (8, changesPanelHeight, timelinePanelHeight) /\
    8 + changesPanelHeight + timelinePanelHeight = height m /\
    8 <= timelinePanelHeight /\
    (timelinePanelHeight = 8 \/
     changesPanelHeight = Z.quot (height m * 2) 3 - 10) /\
    View_timeline m <> Ret NotEnoughSpace /\
    (commits m = [] -> View_timeline m = Ret NoCommits).
Proof.
  intros Hh.
  assert (Hq : - 2 ^ 61 <= Z.quot (height m * 2) 3 <= 2 ^ 61).
  { pose proof (Z.quot_rem' (height m * 2) 3) as Hqr.
    pose proof (Z.rem_bound_abs (height m * 2) 3 ltac:(lia)) as Hr.
    lia. }
  assert (Hc : Int.sub (Int.div (Int.mul (height m) 2) 3) 10
               = Z.quot (height m * 2) 3 - 10).
  { rewrite Int_mul_fits by (unfold Int.fits, Int.min_int, Int.max_int; lia).
    rewrite Int_div_fits by (unfold Int.fits, Int.min_int, Int.max_int; lia).
    apply Int_sub_fits. unfold Int.fits, Int.min_int, Int.max_int. lia. }
  assert (Ht : Int.sub (Int.sub (height m) 8) (Z.quot (height m * 2) 3 - 10)
               = height m - 8 - (Z.quot (height m * 2) 3 - 10)).
  { rewrite (Int_sub_fits (height m))
      by (unfold Int.fits, Int.min_int, Int.max_int; lia).
    apply Int_sub_fits. unfold Int.fits, Int.min_int, Int.max_int. lia. }
  assert (H8 : Int.sub (Int.sub (height m) 8) 8 = height m - 16).
  { rewrite (Int_sub_fits (height m))
      by (unfold Int.fits, Int.min_int, Int.max_int; lia).
    rewrite Int_sub_fits by (unfold Int.fits, Int.min_int, Int.max_int; lia). lia. }
  assert (Hroom : forall t, 8 <= t <= 2 ^ 62 + 2 ^ 61 ->
            renderTimeline m (Int.sub t 3) <> Ret NotEnoughSpace /\
            (commits m = [] -> renderTimeline m (Int.sub t 3) = Ret NoCommits)).
  { intros t Hrange.
    rewrite Int_sub_fits by (unfold Int.fits, Int.min_int, Int.max_int; lia).
    unfold renderTimeline. split.
    - destruct (len (commits m) =? 0); [discriminate|].
      replace (t - 3 <=? 0) with false by (symmetry; apply Z.leb_gt; lia).
      destruct (timeline_window m (t - 3)) as [a b].
      destruct (for_loop _ _ _ _ _ _); cbn; discriminate.
    - intros ->. reflexivity. }
  unfold View_timeline, panel_heights. cbv zeta. rewrite Hc, Ht, H8.
  destruct (height m - 8 - (Z.quot (height m * 2) 3 - 10) <? 8) eqn:E;
    [apply Z.ltb_lt in E | apply Z.ltb_ge in E].
  - exists (height m - 16), 8. split; [reflexivity|]. split; [lia|]. split; [lia|].
    split; [now left|]. apply Hroom. lia.
  - exists (Z.quot (height m * 2) 3 - 10),
           (height m - 8 - (Z.quot (height m * 2) 3 - 10)).
    split; [reflexivity|]. split; [lia|]. split; [lia|].
    split; [now right|]. apply Hroom. lia.
Qed.

End TimelineFacts.

Lemma timeline_window_contains_the_cursor_witness :
  exists visibleStart rows,
    renderTimeline (model Demo.replayed) 2 = Ret (TimelineRows rows) /\
    len rows = Z.min 2 (len (commits (model Demo.replayed))) /\
    0 <= visibleStart <= currentCommitIndex (model Demo.replayed) /\
    currentCommitIndex (model Demo.replayed) < visibleStart + len rows
      <= len (commits (model Demo.replayed)) /\
    forall (k : nat) row, rows !! k = Some row ->
      exists c, commits (model Demo.replayed) !! (Z.to_nat visibleStart + k)%nat = Some c /\
        row_label row = substring 0 7 (Hash c) /\
        row_additions row = Additions c /\ row_deletions row = Deletions c /\
        truncateMessage (Message c) (msgWidth (model Demo.replayed)) = Ret (row_msg row) /\
        row_current row
        = bool_decide (visibleStart + Z.of_nat k = currentCommitIndex (model Demo.replayed)).
Proof.
  apply (timeline_window_contains_the_cursor (model Demo.replayed) 2).
  - lia.
  - split; vm_compute; [discriminate | reflexivity].
  - vm_compute. discriminate.
  - let l := eval vm_compute in (commits (model Demo.replayed)) in
    change (commits (model Demo.replayed)) with l.
    repeat (constructor; [vm_compute; discriminate|]). constructor.
Defined.

Lemma timeline_panel_always_has_room_witness :
  exists changesPanelHeight timelinePanelHeight,
    panel_heights (set_layout 70 30 0 25 (model Demo.replayed))
    = (8, changesPanelHeight, timelinePanelHeight) /\
    8 + changesPanelHeight + timelinePanelHeight = 30 /\
    8 <= timelinePanelHeight.
Proof.
  destruct (timeline_panel_always_has_room (set_layout 70 30 0 25 (model Demo.replayed))
              ltac:(split; vm_compute; discriminate))
    as (ch & tl & Hp & Hsum & Htl & _).
  exists ch, tl. split; [exact Hp|]. split; [exact Hsum | exact Htl].
Defined.

(** ** The histograms and bar charts of the developer statistics *)

Section HistogramFacts.
Variable key : commitInfo -> Z.

Lemma bucketCounts_snoc (cs : list commitInfo) (c : commitInfo) :
  bucketCounts key (cs ++ [c])
  = <[key c := Int.add (default 0 (bucketCounts key cs !! key c)) 1]>
      (bucketCounts key cs).
Proof. unfold bucketCounts. now rewrite foldl_snoc. Qed.

Lemma bucketCounts_lookup (cs : list commitInfo) (k : Z) :
  len cs <= Int.max_int ->
  default 0 (bucketCounts key cs !! k) = len (filter (fun c => key c = k) cs).
Proof.
  induction cs as [|c cs IH] using rev_ind; intros Hmax.
  - unfold bucketCounts. cbn [foldl]. now rewrite lookup_empty.
  - unfold len in Hmax. rewrite length_app in Hmax. cbn [length] in Hmax.
    specialize (IH ltac:(unfold len; lia)).
    rewrite bucketCounts_snoc, filter_app.
    pose proof (length_filter (fun c => key c = k) cs) as Hle.
    destruct (decide (key c = k)) as [<-|Hne].
    + rewrite lookup_insert_eq, IH. cbn [default from_option]. unfold id.
      rewrite filter_cons_True, filter_nil by reflexivity.
      unfold len in *. rewrite length_app. cbn [length].
      rewrite Int_add_fits by (unfold Int.fits, Int.min_int; lia). lia.
    + rewrite lookup_insert_ne by assumption.
      rewrite filter_cons_False, filter_nil, app_nil_r by assumption. exact IH.
Qed.

Lemma sumZ_indicator (keys : list Z) (x : Z) :
  NoDup keys ->
  sumZ ((fun k => if decide (x = k) then 1 else 0) <$> keys)
  = if decide (x ∈ keys) then 1 else 0.
Proof.
  induction 1 as [|k keys Hnin Hnd IH]; [reflexivity|].
  cbn [fmap list_fmap]. unfold sumZ in *. cbn [foldr]. rewrite IH.
  destruct (decide (x = k)) as [->|Hne].
  - rewrite (decide_True (P := k ∈ k :: keys)) by left.
    now rewrite decide_False by assumption.
  - destruct (decide (x ∈ keys)) as [Hin|Hn].
    + now rewrite decide_True by (now right).
    + rewrite decide_False; [reflexivity|].
      intros [H | H]%elem_of_cons; contradiction.
Qed.

(** X19. The histograms count commits. After the aggregation loop the
    count of a bucket is the number of analysed commits that fall into
    it (a bucket that was never hit reads as 0), and the counts of the
    buckets of a chart add up to the number of analysed commits whose
    key is one of those buckets: all of them for the hours 0 to 23. *)
Theorem histogram_counts_commits (cs : list commitInfo) (keys : list Z) :
  len cs <= Int.max_int -> NoDup keys ->
  (forall k, default 0 (bucketCounts key cs !! k)
             = len (filter (fun c => key c = k) cs)) /\
  sumZ ((fun k => default 0 (bucketCounts key cs !! k)) <$> keys)
  = len (filter (fun c => key c ∈ keys) cs) /\
  (Forall (fun c => key c ∈ keys) cs ->
   sumZ ((fun k => default 0 (bucketCounts key cs !! k)) <$> keys) = len cs).
Proof.
  intros Hmax Hnd.
  assert (Hsum : sumZ ((fun k => default 0 (bucketCounts key cs !! k)) <$> keys)
                 = len (filter (fun c => key c ∈ keys) cs)).
  { erewrite list_fmap_ext; [|intros i k _; apply bucketCounts_lookup; exact Hmax].
    clear Hmax. induction cs as [|c cs IH].
    - cbn [filter list_filter]. unfold len. cbn [length].
      induction keys as [|k keys' IHk]; [reflexivity|].
      cbn [fmap list_fmap]. unfold sumZ in *. cbn [foldr].
      rewrite IHk by (now apply NoDup_cons_1_2 in Hnd). reflexivity.
    - assert (Hsplit : sumZ ((fun k => len (filter (fun c0 => key c0 = k) (c :: cs)))
                               <$> keys)
                       = sumZ ((fun k => if decide (key c = k) then 1 else 0) <$> keys)
                         + sumZ ((fun k => len (filter (fun c0 => key c0 = k) cs))
                                   <$> keys)).
      { clear. induction keys as [|k keys IHk]; [reflexivity|].
        cbn [fmap list_fmap]. unfold sumZ in *. cbn [foldr]. rewrite IHk.
        destruct (decide (key c = k)) as [E|E].
        - rewrite filter_cons_True by exact E. unfold len. cbn [length]. lia.
        - rewrite filter_cons_False by exact E. lia. }
      rewrite Hsplit, IH, sumZ_indicator by exact Hnd.
      destruct (decide (key c ∈ keys)) as [Hin|Hn].
      + rewrite filter_cons_True by exact Hin. unfold len. cbn [length]. lia.
      + rewrite filter_cons_False by exact Hn. lia. }
  split; [intros k; now apply bucketCounts_lookup|]. split; [exact Hsum|].
  intros Hall. rewrite Hsum. f_equal.
  clear Hsum Hmax. induction Hall as [|c cs Hc Hall IH]; [reflexivity|].
  rewrite filter_cons_True by exact Hc. now rewrite IH.
Qed.

End HistogramFacts.

Section BarChartFacts.





End BarChartFacts.

Lemma histogram_counts_commits_witness :
  sumZ ((fun k => default 0 (monthCounts (commits (model Demo.replayed)) !! k)) <$> months)
  = len (filter (fun c => Month (Date c) ∈ months) (commits (model Demo.replayed))).
Proof.
  exact (proj1 (proj2 (histogram_counts_commits (fun c => Month (Date c))
                         (commits (model Demo.replayed)) months
                         ltac:(vm_compute; discriminate)
                         ltac:(apply (bool_decide_unpack _); vm_compute; exact I)))).
Defined.


(** ** The diff of a fetched record *)

Section FetchedDiffFacts.
Context {Commit Tree Patch : Type}.
Variable r : Repository Commit Tree Patch.

(** X21. The diff shown for a commit is the one the fetcher counted.
    Take a line of the revision list whose record the fetcher sent, and
    let the hash of the commit object name that object in the
    repository. For a commit with a parent, [getDiff] on the fresh
    record succeeds, makes six repository calls and returns the text of
    the very patch, against the first parent, whose statistics are the
    record's files, additions, deletions and churn; it caches that text
    on the record. For a commit without parent the record's statistics
    are all zero, while [getDiff] works on the patch from the empty
    tree to the tree of the commit, and fails if that cannot be read. *)
Theorem diff_is_of_the_patch_the_fetcher_counted
    (hashStr : string) (commit : Commit) (c : commitInfo) :
  CommitObject r hashStr = Ok commit ->
  CommitObject r (commit_Hash r commit) = Ok commit ->
  fetch_one r hashStr = Some c ->
  (0 < NumParents r commit ->
   exists parent cTree pTree patch,
     Parent r commit 0 = Ok parent /\
     commit_Tree r commit = Ok cTree /\ commit_Tree r parent = Ok pTree /\
     tree_Patch r pTree cTree = Ok patch /\
     (Files c, Additions c, Deletions c, Churn c) = patch_numbers r patch /\
     getDiff r c
     = (Ok (patch_String r patch), set_DiffContent (patch_String r patch) c,
        [CallCommitObject (Hash c); CallParent 0; CallTree; CallTree; CallPatch;
         CallPatchString])) /\
  (NumParents r commit = 0 ->
   (Files c, Additions c, Deletions c, Churn c) = (0, 0, 0, 0) /\
   getDiff r c
   = match commit_Tree r commit with
     | Err e => (Err e, c, [CallCommitObject (Hash c); CallTree])
     | Ok tree =>
         match tree_Patch r (emptyTree r) tree with
         | Err e => (Err e, c, [CallCommitObject (Hash c); CallTree; CallPatch])
         | Ok patch =>
             (Ok (patch_String r patch), set_DiffContent (patch_String r patch) c,
              [CallCommitObject (Hash c); CallTree; CallPatch; CallPatchString])
         end
     end).
Proof.
  intros Hobj Hname Hfetch. unfold fetch_one in Hfetch. rewrite Hobj in Hfetch.
  unfold commit_numbers in Hfetch. split.
  - intros Hpar.
    replace (0 <? NumParents r commit) with true in Hfetch
      by (symmetry; apply Z.ltb_lt; lia).
    destruct (Parent r commit 0) as [parent|] eqn:HP; [|discriminate].
    destruct (commit_Tree r commit) as [cTree|] eqn:HC; [|discriminate].
    destruct (commit_Tree r parent) as [pTree|] eqn:HT; [|discriminate].
    destruct (tree_Patch r pTree cTree) as [patch|] eqn:Hpatch; [|discriminate].
    injection Hfetch as <-. exists parent, cTree, pTree, patch.
    do 4 (split; [first [reflexivity | assumption]|]).
    split.
    { unfold new_record. destruct (patch_numbers r patch) as [[[f a] d] ch]. reflexivity. }
    assert (Hempty : DiffContent (new_record r commit (patch_numbers r patch)) = "").
    { unfold new_record. destruct (patch_numbers r patch) as [[[f a] d] ch]. reflexivity. }
    assert (Hhash : Hash (new_record r commit (patch_numbers r patch))
                    = commit_Hash r commit).
    { unfold new_record. destruct (patch_numbers r patch) as [[[f a] d] ch]. reflexivity. }
    rewrite getDiff_uncached by exact Hempty.
    unfold compute_diff. rewrite Hhash, Hname. cbn [call traced_bind].
    replace (NumParents r commit =? 0) with false by (symmetry; apply Z.eqb_neq; lia).
    rewrite HP. cbn [call traced_bind]. rewrite HC. cbn [call traced_bind].
    rewrite HT. cbn [call traced_bind]. rewrite Hpatch. cbn [call traced_bind app].
    reflexivity.
  - intros Hroot. rewrite Hroot in Hfetch. cbn in Hfetch. injection Hfetch as <-.
    split; [reflexivity|].
    rewrite getDiff_uncached by reflexivity.
    unfold compute_diff. cbn [new_record Hash]. rewrite Hname. cbn [call traced_bind].
    rewrite Hroot. cbn [Z.eqb].
    destruct (commit_Tree r commit) as [tree|e]; cbn [call traced_bind app];
      [|reflexivity].
    destruct (tree_Patch r (emptyTree r) tree) as [patch|e]; cbn [call traced_bind app];
      reflexivity.
Qed.

End FetchedDiffFacts.

Lemma diff_is_of_the_patch_the_fetcher_counted_witness :
  getDiff Demo.repo Demo.record2
  = (Ok "+feature", set_DiffContent "+feature" Demo.record2,
     [CallCommitObject Demo.h2; CallParent 0; CallTree; CallTree; CallPatch;
      CallPatchString]).
Proof.
  destruct (diff_is_of_the_patch_the_fetcher_counted Demo.repo Demo.h2 2 Demo.record2
              eq_refl eq_refl eq_refl) as [Hnonroot _].
  destruct (Hnonroot ltac:(vm_compute; reflexivity))
    as (parent & cTree & pTree & patch & HP & HC & HT & Hpatch & _ & Hdiff).
  injection HP as <-. injection HC as <-. injection HT as <-. injection Hpatch as <-.
  exact Hdiff.
Defined.

(** ** A replay that is left alone *)

Section AutonomousReplayFacts.
Context {Commit Tree Patch : Type}.
Variable r : Repository Commit Tree Patch.

Lemma Update_tick_frame (m : Model) :
  diffState (Update_tick m) = diffState m /\
  autoProgress (Update_tick m) = autoProgress m /\
  displayedStatsYear (Update_tick m) = displayedStatsYear m /\
  currentStatYearIndex (Update_tick m) = currentStatYearIndex m.
Proof.
  unfold Update_tick. destruct (autoProgress m) eqn:Ha; [|now rewrite Ha].
  destruct (chan_buf (processedCommitsChan m)) as [|newCommit rest].
  - destruct (chan_closed (processedCommitsChan m)); cbn; auto.
  - unfold integrate. cbv zeta.
    destruct (last _); repeat match goal with |- context [if ?b then _ else _] =>
                                destruct b end; cbn; auto.
Qed.

Lemma exec_event_follows_head
    (cfg : Config) (records : list commitInfo) (s : System) (e : Event) :
  len records <= Int.max_int ->
  pipeline_inv records s -> follows_head cfg (model s) ->
  is_key_event e = false ->
  exists s', exec_event r s e = Ret s' /\ follows_head cfg (model s').
Proof.
  intros Hmax Hinv (Hd & Ha & Hy & Hi & Hc) Hkey.
  pose proof (pipeline_inv_len _ _ Hinv) as Hlen.
  assert (Hbuf : 0 <= len (chan_buf (processedCommitsChan (model s))))
    by (unfold len; lia).
  assert (Hcs : 0 <= len (commits (model s))) by (unfold len; lia).
  destruct e as [| |msg|]; cbn [exec_event].
  - eexists. split; [reflexivity|]. unfold fetcher_send.
    destruct (pending s); [repeat split; assumption|].
    destruct (_ && _); repeat split; assumption.
  - eexists. split; [reflexivity|]. unfold fetcher_close.
    destruct (pending s); repeat split; assumption.
  - destruct msg as [k|w h| |err|]; [discriminate| | | |]; cbn [Update mbind run_bind];
      eexists; (split; [reflexivity|]); cbn [model]; try (repeat split; assumption).
    destruct (Update_tick_frame (model s)) as (Hd' & Ha' & Hy' & Hi').
    split; [congruence|]. split; [congruence|]. split; [congruence|].
    split; [congruence|].
    destruct (Update_tick_cases (model s))
      as [(_ & Hsame & Hcur) | (newCommit & rest & _ & Hb & ->)].
    + now rewrite Hsame, Hcur.
    + rewrite Hb in Hlen. unfold len in Hlen. cbn [length] in Hlen.
      destruct (integrate_fields
                  (set_processedCommitsChan
                     {| chan_buf := rest;
                        chan_closed := chan_closed (processedCommitsChan (model s)) |}
                     (model s)) newCommit) as (Hcs' & _ & _ & Hcur' & _).
      rewrite Hcur', Hcs'. cbn [commits set_processedCommitsChan].
      unfold len. rewrite length_app. cbn [length].
      rewrite Int_sub_fits by (unfold Int.fits, Int.min_int, len in *; lia). lia.
  - destruct (decide (commits (model s) = [])) as [Hnil|Hne].
    + exists s. split.
      * unfold View. rewrite Hd, Hnil. cbn. now destruct s.
      * repeat split; assumption.
    + assert (Hpos : 0 < len (commits (model s))).
      { unfold len. destruct (commits (model s)); [congruence | cbn; lia]. }
      rewrite View_outside_diff_view by (try assumption; lia).
      cbn [mbind run_bind]. eexists. split; [reflexivity|].
      unfold follows_head.
      cbn [model diffState autoProgress displayedStatsYear currentStatYearIndex
           currentCommitIndex commits set_availableStatYears set_currentCommitIndex].
      repeat split; try assumption. lia.
Qed.

(** X22. A replay that is left alone never panics. Whatever the fetcher
    sends and however ticks, frames, window sizes and other messages
    interleave, as long as no key is pressed every event is handled
    without a panic of [Update] or of the modelled part of [View] (the
    cursor clamp, the reads of the commit list and
    [renderDeveloperStats]); the overview stays on screen with the
    statistics of all years, auto-advance stays as configured, and the
    cursor is on the newest commit integrated so far. *)
Theorem replay_left_alone_never_panics
    (cfg : Config) (records : list commitInfo) (events : list Event) :
  len records <= Int.max_int ->
  Forall (fun e => is_key_event e = false) events ->
  exists s, exec r (start cfg records) events = Ret s /\ follows_head cfg (model s).
Proof.
  intros Hmax Hall.
  assert (H0 : follows_head cfg (model (start cfg records))).
  { repeat split. }
  pose proof (pipeline_inv_start cfg records) as Hinv.
  revert H0 Hinv. generalize (start cfg records).
  induction Hall as [|e events He Hall IH]; intros s0 H0 Hinv.
  - exists s0. split; [reflexivity | exact H0].
  - destruct (exec_event_follows_head cfg records s0 e Hmax Hinv H0 He)
      as (s1 & Hstep & H1).
    cbn [exec]. rewrite Hstep. cbn [mbind run_bind].
    apply IH; [exact H1|].
    eapply exec_event_pipeline; eassumption.
Qed.

End AutonomousReplayFacts.

Lemma replay_left_alone_never_panics_witness :
  exists s, exec Demo.repo (start (Demo.cfg true) Demo.records) Demo.replay_events = Ret s /\
            follows_head (Demo.cfg true) (model s).
Proof.
  apply (replay_left_alone_never_panics Demo.repo (Demo.cfg true) Demo.records
           Demo.replay_events).
  - vm_compute. discriminate.
  - unfold Demo.replay_events. repeat constructor.
Defined.

(** ** Moving between commits inside the diff view *)

Section DiffNavigationFacts.
Context {Commit Tree Patch : Type}.
Variable r : Repository Commit Tree Patch.

Lemma load_current_diff_returns (m : Model) :
  0 <= currentCommitIndex m < len (commits m) ->
  exists c c' text,
    commits m !! Z.to_nat (currentCommitIndex m) = Some c /\
    identity c' = identity c /\ diff_of_record text c' /\
    load_current_diff r m
    = Ret (set_currentDiff text
             (set_commits (<[Z.to_nat (currentCommitIndex m) := c']> (commits m)) m)).
Proof.
  intros Hi. destruct (index_in_range (commits m) (currentCommitIndex m) Hi)
    as (c & Hidx & Hlook).
  unfold load_current_diff. rewrite Hidx. cbn [mbind run_bind].
  pose proof (getDiff_spec r c) as Hspec.
  destruct (getDiff r c) as [[res c'] calls]. destruct res as [diff|e].
  - destruct Hspec as [Hid ->]. exists c, c', (DiffContent c').
    split; [exact Hlook|]. split; [exact Hid|]. split; [now left | reflexivity].
  - destruct Hspec as [-> He]. exists c, c, ("Error getting diff: " ++ e)%string.
    split; [exact Hlook|]. split; [reflexivity|]. split; [right; eauto | reflexivity].
Qed.

Lemma step_in_diff_view (m : Model) (j : Z) :
  0 <= j < len (commits m) ->
  exists m' c,
    (m1 ← load_current_diff r (set_currentCommitIndex j (set_autoProgress false m));
     Ret (set_diffScroll 0 m1, CmdNil)) = Ret (m', CmdNil) /\
    currentCommitIndex m' = j /\ diffScroll m' = 0 /\
    autoProgress m' = false /\ diffState m' = diffState m /\
    identity <$> commits m' = identity <$> commits m /\
    commits m' !! Z.to_nat j = Some c /\ diff_of_record (currentDiff m') c.
Proof.
  intros Hj.
  destruct (load_current_diff_returns
              (set_currentCommitIndex j (set_autoProgress false m)) Hj)
    as (c & c' & text & Hlook & Hid & Hdiff & ->).
  cbn [mbind run_bind]. eexists _, c'. split; [reflexivity|].
  cbn [currentCommitIndex diffScroll autoProgress diffState commits currentDiff
       set_diffScroll set_currentDiff set_commits set_currentCommitIndex
       set_autoProgress] in *.
  repeat split; try reflexivity.
  - eapply insert_identity; eassumption.
  - apply list_lookup_insert_eq. now apply lookup_lt_Some in Hlook.
  - exact Hdiff.
Qed.

(** X23. Moving between commits inside the diff view. With the diff
    view open on a commit, the right key moves the cursor to the next
    commit and the left key to the previous one; the diff of the commit
    reached is loaded (its text, or the error message of the fetch),
    the scroll offset goes back to 0 and auto-advance is off. The
    commit list keeps its records but for the cached diff text. At the
    last commit the right key, and at the first commit the left key,
    only turns auto-advance off: the text and the offset stay. *)
Theorem diff_view_navigation_reloads_the_diff (m : Model) :
  diffState m = inDiffView ->
  0 <= currentCommitIndex m < len (commits m) -> len (commits m) <= Int.max_int ->
  (currentCommitIndex m < len (commits m) - 1 ->
   exists m' c,
     Update r m (KeyMsg "right") = Ret (m', CmdNil) /\
     currentCommitIndex m' = currentCommitIndex m + 1 /\ diffScroll m' = 0 /\
     autoProgress m' = false /\ diffState m' = inDiffView /\
     identity <$> commits m' = identity <$> commits m /\
     commits m' !! Z.to_nat (currentCommitIndex m + 1) = Some c /\
     diff_of_record (currentDiff m') c) /\
  (currentCommitIndex m = len (commits m) - 1 ->
   Update r m (KeyMsg "right") = Ret (set_autoProgress false m, CmdNil)) /\
  (0 < currentCommitIndex m ->
   exists m' c,
     Update r m (KeyMsg "left") = Ret (m', CmdNil) /\
     currentCommitIndex m' = currentCommitIndex m - 1 /\ diffScroll m' = 0 /\
     autoProgress m' = false /\ diffState m' = inDiffView /\
     identity <$> commits m' = identity <$> commits m /\
     commits m' !! Z.to_nat (currentCommitIndex m - 1) = Some c /\
     diff_of_record (currentDiff m') c) /\
  (currentCommitIndex m = 0 ->
   Update r m (KeyMsg "left") = Ret (set_autoProgress false m, CmdNil)).
Proof.
  intros Hdiff Hcur Hmax.
  assert (Hsub : Int.sub (len (commits m)) 1 = len (commits m) - 1).
  { apply Int_sub_fits. unfold Int.fits, Int.min_int. lia. }
  assert (Hright : Update r m (KeyMsg "right")
                   = if currentCommitIndex m <? len (commits m) - 1
                     then m1 ← load_current_diff r
                                 (set_currentCommitIndex (currentCommitIndex m + 1)
                                    (set_autoProgress false m));
                          Ret (set_diffScroll 0 m1, CmdNil)
                     else Ret (set_autoProgress false m, CmdNil)).
  { unfold Update. rewrite Hdiff. unfold Update_key_inDiffView.
    cbn [key_in existsb String.eqb Ascii.eqb Bool.eqb orb andb]. cbv zeta.
    cbn [currentCommitIndex commits set_autoProgress]. rewrite Hsub.
    destruct (currentCommitIndex m <? len (commits m) - 1) eqn:E; [|reflexivity].
    apply Z.ltb_lt in E.
    rewrite Int_add_fits by (unfold Int.fits, Int.min_int; lia). reflexivity. }
  assert (Hleft : Update r m (KeyMsg "left")
                  = if 0 <? currentCommitIndex m
                    then m1 ← load_current_diff r
                                (set_currentCommitIndex (currentCommitIndex m - 1)
                                   (set_autoProgress false m));
                         Ret (set_diffScroll 0 m1, CmdNil)
                    else Ret (set_autoProgress false m, CmdNil)).
  { unfold Update. rewrite Hdiff. unfold Update_key_inDiffView.
    cbn [key_in existsb String.eqb Ascii.eqb Bool.eqb orb andb]. cbv zeta.
    cbn [currentCommitIndex commits set_autoProgress].
    destruct (0 <? currentCommitIndex m) eqn:E; [|reflexivity].
    apply Z.ltb_lt in E.
    rewrite Int_sub_fits by (unfold Int.fits, Int.min_int; lia). reflexivity. }
  rewrite Hright, Hleft. split; [|split; [|split]].
  - intros Hlt. replace (currentCommitIndex m <? len (commits m) - 1) with true
      by (symmetry; apply Z.ltb_lt; lia).
    destruct (step_in_diff_view m (currentCommitIndex m + 1) ltac:(lia))
      as (m' & c & Hstep & H1 & H2 & H3 & H4 & H5 & H6 & H7).
    exists m', c. rewrite H4, Hdiff in *. auto 10.
  - intros Hlast. replace (currentCommitIndex m <? len (commits m) - 1) with false
      by (symmetry; apply Z.ltb_ge; lia). reflexivity.
  - intros Hpos. replace (0 <? currentCommitIndex m) with true
      by (symmetry; apply Z.ltb_lt; lia).
    destruct (step_in_diff_view m (currentCommitIndex m - 1) ltac:(lia))
      as (m' & c & Hstep & H1 & H2 & H3 & H4 & H5 & H6 & H7).
    exists m', c. rewrite H4, Hdiff in *. auto 10.
  - intros Hfirst. replace (0 <? currentCommitIndex m) with false
      by (symmetry; apply Z.ltb_ge; lia). reflexivity.
Qed.

End DiffNavigationFacts.

Lemma diff_view_navigation_reloads_the_diff_witness :
  Update Demo.repo (model Demo.opened) (KeyMsg "right")
  = Ret (set_autoProgress false (model Demo.opened), CmdNil) /\
  exists m' c,
    Update Demo.repo (model Demo.opened) (KeyMsg "left") = Ret (m', CmdNil) /\
    currentCommitIndex m' = currentCommitIndex (model Demo.opened) - 1 /\
    diffScroll m' = 0 /\
    commits m' !! Z.to_nat (currentCommitIndex (model Demo.opened) - 1) = Some c /\
    diff_of_record (currentDiff m') c.
Proof.
  destruct (diff_view_navigation_reloads_the_diff Demo.repo (model Demo.opened)
              eq_refl
              ltac:(split; vm_compute; [discriminate | reflexivity])
              ltac:(vm_compute; discriminate))
    as (_ & Hlast & Hleft & _).
  split.
  - apply Hlast. vm_compute. reflexivity.
  - destruct (Hleft ltac:(vm_compute; reflexivity))
      as (m' & c & HU & H1 & H2 & _ & _ & _ & H6 & H7).
    exists m', c. auto.
Defined.
